(** * Diff: structural diff / patch engine of [@effect/schema]

    A shallow embedding of [src/Diff.ts]: the operation model, reversal,
    the patch executor [runOp], the differ compiler [go] and the lowering
    to JSON Patch [getJSONPatch], together with the part of the JavaScript
    value universe those functions observe. *)

From Stdlib Require Import ZArith List String Ascii Bool Arith Lia Sorted.
From Stdlib Require Import DecimalString DecimalNat.
From Stdlib Require Import Floats.SpecFloat.
Import ListNotations.

Local Open Scope string_scope.
Local Open Scope list_scope.

Set Implicit Arguments.
Set Warnings "-register-all".

(* ===================================================================== *)
(** ** JavaScript values *)
(* ===================================================================== *)

(** A property key is a string or a symbol.  A number used as a key is
    converted to its decimal string by the language ([String_of_index]). *)
Inductive PropertyKey : Type :=
| KString (s : string)
| KSymbol (description : string).

(** The values the engine manipulates ([unknown] in the source).
    - a number is an IEEE-754 double; [spec_float] has a single NaN, a
      signed zero, signed infinities and signed finite values;
    - a symbol is named by its description: two symbols are the same
      symbol exactly when they carry the same description;
    - an object or an array lives at a heap address [ref]; [===] and
      [Object.is] compare objects by that address;
    - an object is a plain object: it holds own enumerable data
      properties, kept in enumeration order, and its prototype is
      [Object.prototype]; the prototype of an array is [Array.prototype];
      the built-in prototypes are the ones of the language, unmodified.
      The prototype is not part of a value;
    - an array hole is represented by [VUndefined]. *)
Inductive Value : Type :=
| VUndefined
| VNull
| VBoolean (b : bool)
| VNumber (x : spec_float)
| VBigInt (z : Z)
| VString (s : string)
| VSymbol (description : string)
| VFunction (ref : nat)
| VObject (ref : nat) (props : list (PropertyKey * Value))
| VArray (ref : nat) (items : list Value).

Definition PropertyKey_eqb (k1 k2 : PropertyKey) : bool :=
  match k1, k2 with
  | KString a, KString b => String.eqb a b
  | KSymbol a, KSymbol b => String.eqb a b
  | _, _ => false
  end.

(** *** Numbers *)

Definition NaN : spec_float := S754_nan.
Definition pos_zero : spec_float := S754_zero false.
Definition neg_zero : spec_float := S754_zero true.

(** The double nearest to an integer (binary64: 53 bits, emax 1024). *)
Definition number_of_Z (z : Z) : spec_float := binary_normalize 53 1024 z 0 false.
Definition number_of_nat (n : nat) : spec_float := number_of_Z (Z.of_nat n).

(** SameValue on numbers: the representations coincide, so NaN is equal
    to NaN and +0 differs from -0. *)
Definition same_number (x y : spec_float) : bool :=
  match x, y with
  | S754_zero s1, S754_zero s2 => Bool.eqb s1 s2
  | S754_infinity s1, S754_infinity s2 => Bool.eqb s1 s2
  | S754_nan, S754_nan => true
  | S754_finite s1 m1 e1, S754_finite s2 m2 e2 =>
      Bool.eqb s1 s2 && Pos.eqb m1 m2 && Z.eqb e1 e2
  | _, _ => false
  end.

(** *** [Object.is] and [===] *)

(** [Object.is(from, to)]: SameValue. *)
Definition Object_is (a b : Value) : bool :=
  match a, b with
  | VUndefined, VUndefined => true
  | VNull, VNull => true
  | VBoolean x, VBoolean y => Bool.eqb x y
  | VNumber x, VNumber y => same_number x y
  | VBigInt x, VBigInt y => Z.eqb x y
  | VString x, VString y => String.eqb x y
  | VSymbol x, VSymbol y => String.eqb x y
  | VFunction r1, VFunction r2 => Nat.eqb r1 r2
  | VObject r1 _, VObject r2 _ => Nat.eqb r1 r2
  | VArray r1 _, VArray r2 _ => Nat.eqb r1 r2
  | _, _ => false
  end.

(** [from === to]: strict equality; on numbers it is the IEEE-754
    comparison, for which NaN differs from itself and +0 equals -0. *)
Definition strict_equals (a b : Value) : bool :=
  match a, b with
  | VNumber x, VNumber y => SFeqb x y
  | _, _ => Object_is a b
  end.

(** *** Structural equality

    The comparison used to state that a patched value "equals" the
    target: references are ignored, numbers are compared by SameValue,
    arrays position by position and objects key by key (the enumeration
    order of the keys is irrelevant). *)
Fixpoint assoc {A : Type} (k : PropertyKey) (l : list (PropertyKey * A)) : option A :=
  match l with
  | [] => None
  | (k', v) :: l' => if PropertyKey_eqb k k' then Some v else assoc k l'
  end.

Fixpoint equals (a b : Value) {struct a} : bool :=
  match a, b with
  | VUndefined, VUndefined => true
  | VNull, VNull => true
  | VBoolean x, VBoolean y => Bool.eqb x y
  | VNumber x, VNumber y => same_number x y
  | VBigInt x, VBigInt y => Z.eqb x y
  | VString x, VString y => String.eqb x y
  | VSymbol x, VSymbol y => String.eqb x y
  | VFunction r1, VFunction r2 => Nat.eqb r1 r2
  | VObject _ p1, VObject _ p2 =>
      Nat.eqb (List.length p1) (List.length p2) &&
      (fix all (l : list (PropertyKey * Value)) : bool :=
         match l with
         | [] => true
         | (k, v) :: l' =>
             match assoc k p2 with
             | Some w => equals v w && all l'
             | None => false
             end
         end) p1
  | VArray _ l1, VArray _ l2 =>
      (fix all (l1 l2 : list Value) {struct l1} : bool :=
         match l1, l2 with
         | [], [] => true
         | x :: l1', y :: l2' => equals x y && all l1' l2'
         | _, _ => false
         end) l1 l2
  | _, _ => false
  end.

(* ===================================================================== *)
(** ** Errors *)
(* ===================================================================== *)

(** What a call can throw: a [TypeError] of the language (property access
    on [undefined] or [null], a method that does not exist), or one of the
    two validation failures of the lowering. *)
Inductive Error : Type :=
| TypeError
| NonJsonValue (v : Value)
| NonStringKey (k : PropertyKey).

Inductive Result (A : Type) : Type :=
| Ok (a : A)
| Throw (e : Error).
Arguments Ok {A} a.
Arguments Throw {A} e.

Definition bind {A B : Type} (r : Result A) (k : A -> Result B) : Result B :=
  match r with
  | Ok a => k a
  | Throw e => Throw e
  end.

Declare Scope result_scope.
Delimit Scope result_scope with result.
Notation "x <- r ;; k" := (bind r (fun x => k))
  (at level 100, r at next level, right associativity) : result_scope.
Notation "' p <- r ;; k" := (bind r (fun x => let p := x in k))
  (at level 100, p pattern, r at next level, right associativity) : result_scope.
Local Open Scope result_scope.

(* ===================================================================== *)
(** ** Property access *)
(* ===================================================================== *)

(** [String(i)] for an array index. *)
Definition String_of_index (i : nat) : string :=
  NilEmpty.string_of_uint (Nat.to_uint i).

(** The array index a string key denotes, when it is the canonical decimal
    form of one. *)
Definition index_of_key (s : string) : option nat :=
  match NilEmpty.uint_of_string s with
  | Some u =>
      let i := Nat.of_uint u in
      if String.eqb (String_of_index i) s then Some i else None
  | None => None
  end.

Definition char_at (s : string) (i : nat) : option Value :=
  match String.get i s with
  | Some c => Some (VString (String c EmptyString))
  | None => None
  end.

(** The own property [name] of [o], if it has one.  Reading a property of
    [undefined] or [null] throws; a primitive is boxed first, and only a
    string has own properties (its characters and its length).  Functions
    are opaque, and members inherited from the built-in prototypes are not
    modelled. *)
Definition own_property (o : Value) (name : PropertyKey) : Result (option Value) :=
  match o with
  | VUndefined | VNull => Throw TypeError
  | VObject _ props => Ok (assoc name props)
  | VArray _ items =>
      match name with
      | KString s =>
          if String.eqb s "length" then Ok (Some (VNumber (number_of_nat (List.length items))))
          else match index_of_key s with
               | Some i => Ok (nth_error items i)
               | None => Ok None
               end
      | KSymbol _ => Ok None
      end
  | VString str =>
      match name with
      | KString s =>
          if String.eqb s "length" then Ok (Some (VNumber (number_of_nat (String.length str))))
          else match index_of_key s with
               | Some i => Ok (char_at str i)
               | None => Ok None
               end
      | KSymbol _ => Ok None
      end
  | _ => Ok None
  end.

(** [Object.prototype.hasOwnProperty.call(o, name)] *)
Definition hasOwnProperty (o : Value) (name : PropertyKey) : Result bool :=
  p <- own_property o name ;;
  Ok (match p with Some _ => true | None => false end).

(** [o[name]] *)
Definition get (o : Value) (name : PropertyKey) : Result Value :=
  p <- own_property o name ;;
  Ok (match p with Some v => v | None => VUndefined end).

(** [o[i]] for a numeric index [i]. *)
Definition get_index (o : Value) (i : nat) : Result Value :=
  match o with
  | VArray _ items => Ok (nth i items VUndefined)
  | _ => get o (KString (String_of_index i))
  end.

(** [{ ...a }]: the own enumerable properties of [a], in order. *)
Fixpoint indexed {A : Type} (i : nat) (l : list A) : list (nat * A) :=
  match l with
  | [] => []
  | x :: l' => (i, x) :: indexed (S i) l'
  end.

Definition chars (s : string) : list Value :=
  map (fun c => VString (String c EmptyString)) (list_ascii_of_string s).

Definition spread (a : Value) : list (PropertyKey * Value) :=
  match a with
  | VObject _ props => props
  | VArray _ items =>
      map (fun '(i, v) => (KString (String_of_index i), v)) (indexed 0 items)
  | VString s =>
      map (fun '(i, v) => (KString (String_of_index i), v)) (indexed 0 (chars s))
  | _ => []
  end.

(** The table of own properties [out] after the own data property [name]
    is created or updated with [v]: what an assignment does once it is
    known to act on the object itself (see [assign] below, which decides
    that).  An existing property keeps its place, a new one is appended
    (the language enumerates integer-like keys first; that reordering is
    not modelled, and no statement below depends on the order of the
    properties of a patched object). *)
Fixpoint define_property (out : list (PropertyKey * Value)) (name : PropertyKey) (v : Value)
  : list (PropertyKey * Value) :=
  match out with
  | [] => [(name, v)]
  | (k, w) :: out' =>
      if PropertyKey_eqb name k then (k, v) :: out'
      else (k, w) :: define_property out' name v
  end.

(** [delete out[name]] *)
Fixpoint delete_property (out : list (PropertyKey * Value)) (name : PropertyKey)
  : list (PropertyKey * Value) :=
  match out with
  | [] => []
  | (k, w) :: out' =>
      if PropertyKey_eqb name k then delete_property out' name
      else (k, w) :: delete_property out' name
  end.

(** *** Assignment to an object under construction

    The two objects the code builds by assignment, the copy [out] of
    [runOp] and the table [expectedKeys] of the differ compiler, start as
    plain objects.  [out[name] = v] updates the own property [name] if
    there is one.  Otherwise the language looks [name] up along the
    prototype chain: every member of [Object.prototype] is a writable
    data property, for which the assignment creates an own property,
    except ["__proto__"], an accessor whose setter creates no property:
    it makes [v] the prototype of the object when [v] is an object or
    [null], and does nothing for any other [v].

    [has_proto_accessor] records whether that accessor is still found
    along the prototype chain of the object.  It is not after the
    prototype has become [null] (the chain is empty) or an object with an
    own property ["__proto__"] (a data property found first); from then
    on an assignment to ["__proto__"] creates an own property. *)
Record Ordinary : Type :=
  { properties : list (PropertyKey * Value); has_proto_accessor : bool }.

(** [{}] and [{ ...a }] *)
Definition plain (props : list (PropertyKey * Value)) : Ordinary :=
  {| properties := props; has_proto_accessor := true |}.

Definition proto_key : PropertyKey := KString "__proto__".

Definition has_own (props : list (PropertyKey * Value)) (name : PropertyKey) : bool :=
  match assoc name props with Some _ => true | None => false end.

(** [out[name] = v] *)
Definition assign (out : Ordinary) (name : PropertyKey) (v : Value) : Ordinary :=
  if negb (has_own (properties out) name) && PropertyKey_eqb name proto_key
     && has_proto_accessor out
  then
    {| properties := properties out;
       has_proto_accessor :=
         match v with
         | VNull => false
         | VObject _ props => negb (has_own props proto_key)
         | _ => true
         end |}
  else
    {| properties := define_property (properties out) name v;
       has_proto_accessor := has_proto_accessor out |}.

(** [delete out[name]] on such an object. *)
Definition unset (out : Ordinary) (name : PropertyKey) : Ordinary :=
  {| properties := delete_property (properties out) name;
     has_proto_accessor := has_proto_accessor out |}.

(** [out[index] = v] on an array: writing past the end extends the array,
    the skipped positions being holes. *)
Fixpoint array_set (out : list Value) (index : nat) (v : Value) : list Value :=
  match out, index with
  | [], O => [v]
  | [], S i => VUndefined :: array_set [] i v
  | _ :: out', O => v :: out'
  | x :: out', S i => x :: array_set out' i v
  end.

(** [out.splice(index, 0, v)]: insert before [index] (at the end when
    [index] is past it). *)
Definition splice_insert (out : list Value) (index : nat) (v : Value) : list Value :=
  firstn index out ++ v :: skipn index out.

(** [out.splice(index, 1)]: delete the element at [index], if any. *)
Definition splice_delete (out : list Value) (index : nat) : list Value :=
  firstn index out ++ skipn (S index) out.

(* ===================================================================== *)
(** ** ops *)
(* ===================================================================== *)

(** The tagged records of the source.  [Op] and [NestedOp] are two unions
    over the same records; the tag decides at run time, so there is one
    type here and the two unions are the predicates [isOp] and
    [isNestedOp]. *)
Inductive Op : Type :=
| Identical
| Replace (from to : Value)
| ObjectOps (ops : list (PropertyKey * Op))
| ArrayOps (ops : list (nat * Op))
| Add (value : Value)
| Remove (value : Value).

Definition identical : Op := Identical.
Definition replace (from to : Value) : Op := Replace from to.
Definition objectOps (ops : list (PropertyKey * Op)) : Op := ObjectOps ops.
Definition arrayOps (ops : list (nat * Op)) : Op := ArrayOps ops.
Definition add (value : Value) : Op := Add value.
Definition remove (value : Value) : Op := Remove value.

Definition isIdentical (op : Op) : bool :=
  match op with Identical => true | _ => false end.

(** [ReadonlyArray.isNonEmptyReadonlyArray] *)
Definition isNonEmptyReadonlyArray {A : Type} (l : list A) : bool :=
  match l with [] => false | _ :: _ => true end.

(** [NestedOp = Replace | Add | Remove | ObjectOps | ArrayOps], with
    non-empty entry lists. *)
Fixpoint isNestedOp (op : Op) : bool :=
  match op with
  | Identical => false
  | Replace _ _ | Add _ | Remove _ => true
  | ObjectOps ops =>
      isNonEmptyReadonlyArray ops &&
      (fix all (l : list (PropertyKey * Op)) : bool :=
         match l with [] => true | (_, o) :: l' => isNestedOp o && all l' end) ops
  | ArrayOps ops =>
      isNonEmptyReadonlyArray ops &&
      (fix all (l : list (nat * Op)) : bool :=
         match l with [] => true | (_, o) :: l' => isNestedOp o && all l' end) ops
  end.

(** [Op = Identical | Replace | ObjectOps | ArrayOps] *)
Definition isOp (op : Op) : bool :=
  match op with
  | Identical => true
  | Add _ | Remove _ => false
  | _ => isNestedOp op
  end.

Definition reverseReplace (op : Op) : Op :=
  match op with
  | Replace from to => replace to from
  | _ => op
  end.

(** [reverseNestedOp], with [reverseObjectOps] and [reverseArrayOps]
    mapping it over the entries.  The parameter has type [NestedOp], so
    the switch has no case for [Identical]; that tag is left as it is. *)
Fixpoint reverseNestedOp (op : Op) : Op :=
  match op with
  | Replace _ _ => reverseReplace op
  | Add value => remove value
  | Remove value => add value
  | ObjectOps ops => objectOps (map (fun '(key, op) => (key, reverseNestedOp op)) ops)
  | ArrayOps ops => arrayOps (map (fun '(key, op) => (key, reverseNestedOp op)) ops)
  | Identical => op
  end.

Definition reverseObjectOps (op : Op) : Op :=
  match op with
  | ObjectOps ops => objectOps (map (fun '(key, op) => (key, reverseNestedOp op)) ops)
  | _ => op
  end.

Definition reverseArrayOps (op : Op) : Op :=
  match op with
  | ArrayOps ops => arrayOps (map (fun '(key, op) => (key, reverseNestedOp op)) ops)
  | _ => op
  end.

(** [reverseOp]: the parameter has type [Op], so the switch has no case
    for [Add] and [Remove]; those tags are left as they are. *)
Definition reverseOp (op : Op) : Op :=
  match op with
  | Identical => op
  | Replace _ _ => reverseReplace op
  | ObjectOps _ => reverseObjectOps op
  | ArrayOps _ => reverseArrayOps op
  | Add _ | Remove _ => op
  end.

(* ===================================================================== *)
(** ** Patch *)
(* ===================================================================== *)

Record Patch : Type := make { op : Op }.

Definition reverse (patch : Patch) : Patch := make (reverseOp (op patch)).

(** [runOp] allocates the copies it returns: it is given the next free
    heap address and returns the one after its last allocation.
    - The copy of an [ObjectOps] node is a plain object filled by
      assignment ([assign]); the value returned holds its own properties.
    - An entry whose tag has no case in the inner switch ([Identical])
      changes nothing; a root [Add] or [Remove] has no case in the outer
      switch and the function returns [undefined].
    - For [ArrayOps], a receiver that is not an array has no usable
      [slice]/[splice] and cannot be assigned to: with the entries of a
      non-empty list the call throws. *)
Fixpoint runOp (op : Op) (a : Value) (next : nat) {struct op} : Result (Value * nat) :=
  match op with
  | Identical => Ok (a, next)
  | Replace _ to => Ok (to, next)
  | ObjectOps ops =>
      '(out, next') <-
        (fix loop (ops : list (PropertyKey * Op)) (out : Ordinary)
             (next : nat) {struct ops} : Result (Ordinary * nat) :=
           match ops with
           | [] => Ok (out, next)
           | (name, subop) :: ops' =>
               match subop with
               | Replace _ _ | ObjectOps _ | ArrayOps _ =>
                   v <- get a name ;;
                   '(r, next1) <- runOp subop v next ;;
                   loop ops' (assign out name r) next1
               | Add value => loop ops' (assign out name value) next
               | Remove _ => loop ops' (unset out name) next
               | Identical => loop ops' out next
               end
           end) ops (plain (spread a)) (S next) ;;
      Ok (VObject next (properties out), next')
  | ArrayOps ops =>
      match a with
      | VArray _ items =>
          '(out, next') <-
            (fix loop (ops : list (nat * Op)) (out : list Value)
                 (next : nat) {struct ops} : Result (list Value * nat) :=
               match ops with
               | [] => Ok (out, next)
               | (index, subop) :: ops' =>
                   match subop with
                   | Replace _ _ | ObjectOps _ | ArrayOps _ =>
                       v <- get_index a index ;;
                       '(r, next1) <- runOp subop v next ;;
                       loop ops' (array_set out index r) next1
                   | Add value => loop ops' (splice_insert out index value) next
                   | Remove _ => loop ops' (splice_delete out index) next
                   | Identical => loop ops' out next
                   end
               end) ops items (S next) ;;
          Ok (VArray next out, next')
      | _ => Throw TypeError
      end
  | Add _ | Remove _ => Ok (VUndefined, next)
  end.

Definition runPatch (patch : Patch) : Value -> nat -> Result (Value * nat) :=
  runOp (op patch).

(** The two loops of [runOp], named: [runOp (ObjectOps ops) a next] runs
    [run_object_entries a ops] on the copy of [a], and
    [runOp (ArrayOps ops) a next] runs [run_array_entries a ops]. *)
Definition run_object_entries (a : Value)
  : list (PropertyKey * Op) -> Ordinary -> nat -> Result (Ordinary * nat) :=
  fix loop (ops : list (PropertyKey * Op)) (out : Ordinary)
      (next : nat) {struct ops} : Result (Ordinary * nat) :=
    match ops with
    | [] => Ok (out, next)
    | (name, subop) :: ops' =>
        match subop with
        | Replace _ _ | ObjectOps _ | ArrayOps _ =>
            v <- get a name ;;
            '(r, next1) <- runOp subop v next ;;
            loop ops' (assign out name r) next1
        | Add value => loop ops' (assign out name value) next
        | Remove _ => loop ops' (unset out name) next
        | Identical => loop ops' out next
        end
    end.

Definition run_array_entries (a : Value)
  : list (nat * Op) -> list Value -> nat -> Result (list Value * nat) :=
  fix loop (ops : list (nat * Op)) (out : list Value)
      (next : nat) {struct ops} : Result (list Value * nat) :=
    match ops with
    | [] => Ok (out, next)
    | (index, subop) :: ops' =>
        match subop with
        | Replace _ _ | ObjectOps _ | ArrayOps _ =>
            v <- get_index a index ;;
            '(r, next1) <- runOp subop v next ;;
            loop ops' (array_set out index r) next1
        | Add value => loop ops' (splice_insert out index value) next
        | Remove _ => loop ops' (splice_delete out index) next
        | Identical => loop ops' out next
        end
    end.

(* ===================================================================== *)
(** ** Shape descriptors *)
(* ===================================================================== *)

(** The AST of a schema, as far as the differ compiler reads it: the tag
    of a node, the base of a refinement, the thunk of a lazy node, the
    elements of a tuple and the signatures of a type literal.  The other
    fields are kept where they hold sub-descriptors, to show that the
    compiler does not look at them.

    A lazy node holds a thunk [f]; calling it returns the descriptor the
    thunk closes over, which may be a node that contains this very lazy
    node.  A thunk is represented by its index in a table of thunk results
    ([Thunks]), so that such cyclic descriptors can be written down. *)
Module Element.
Record t (T : Type) : Type := make { type : T; isOptional : bool }.
End Element.

Module PropertySignature.
Record t (T : Type) : Type := make { name : PropertyKey; type : T; isOptional : bool }.
End PropertySignature.

Module IndexSignature.
Record t (T : Type) : Type := make { parameter : T; type : T }.
End IndexSignature.

Inductive AST : Type :=
| Declaration (typeParameters : list AST) (type : AST)
| Literal (literal : Value)
| UniqueSymbol (symbol : string)
| UndefinedKeyword
| VoidKeyword
| NeverKeyword
| UnknownKeyword
| AnyKeyword
| StringKeyword
| NumberKeyword
| BooleanKeyword
| BigIntKeyword
| SymbolKeyword
| ObjectKeyword
| Enums (enums : list (string * Value))
| TemplateLiteral (head : string)
| Refinement (from : AST)
| Tuple (elements : list (Element.t AST)) (rest : option (list AST))
| TypeLiteral (propertySignatures : list (PropertySignature.t AST))
    (indexSignatures : list (IndexSignature.t AST))
| Union (types : list AST)
| Lazy (f : nat)
| Transform (from to : AST).

Definition Thunks : Type := nat -> AST.

(** [Object.keys(input)] and [Object.getOwnPropertySymbols(input)] *)
Definition Object_keys (input : Value) : Result (list PropertyKey) :=
  match input with
  | VUndefined | VNull => Throw TypeError
  | _ => Ok (filter (fun k => match k with KString _ => true | KSymbol _ => false end)
               (map fst (spread input)))
  end.

Definition Object_getOwnPropertySymbols (input : Value) : Result (list PropertyKey) :=
  match input with
  | VUndefined | VNull => Throw TypeError
  | _ => Ok (filter (fun k => match k with KString _ => false | KSymbol _ => true end)
               (map fst (spread input)))
  end.

(** Modelled from the spec: [getKeysForIndexSignature] of
    [internal/common] is not part of the sources at hand.  The keys of an
    index signature are enumerated in a stable order: the string keys of
    the object in insertion order for a string (or template literal)
    parameter, its symbol keys for a symbol parameter; a refinement
    parameter enumerates like its base.  No other parameter kind is
    handled: the function returns [undefined], and the [for ... of] over
    it throws. *)
Fixpoint getKeysForIndexSignature (input : Value) (parameter : AST)
  : Result (list PropertyKey) :=
  match parameter with
  | StringKeyword | TemplateLiteral _ => Object_keys input
  | SymbolKeyword => Object_getOwnPropertySymbols input
  | Refinement from => getKeysForIndexSignature input from
  | _ => Throw TypeError
  end.

(* ===================================================================== *)
(** ** Differ *)
(* ===================================================================== *)

Definition Differ : Type := Value -> Value -> Result Patch.

(** [ops.push(entry)] *)
Definition push {A : Type} (ops : list A) (entry : A) : list A := ops ++ [entry].

(** The loop over the elements of a tuple; [i] is the loop counter. *)
Fixpoint handle_elements (elements : list Differ) (i : nat) (from to : Value)
    (ops : list (nat * Op)) : Result (list (nat * Op)) :=
  match elements with
  | [] => Ok ops
  | differ :: elements' =>
      f <- get_index from i ;;
      t <- get_index to i ;;
      p <- differ f t ;;
      let op := op p in
      handle_elements elements' (S i) from to
        (if negb (isIdentical op) then push ops (i, op) else ops)
  end.

(** The loop over the property signatures of a type literal, each paired
    with its compiled differ. *)
Fixpoint handle_property_signatures (propertySignatures : list (PropertyKey * Differ))
    (from to : Value) (ops : list (PropertyKey * Op)) : Result (list (PropertyKey * Op)) :=
  match propertySignatures with
  | [] => Ok ops
  | (name, differ) :: rest =>
      hf <- hasOwnProperty from name ;;
      ops' <-
        (if hf then
           ht <- hasOwnProperty to name ;;
           if ht then
             f <- get from name ;;
             t <- get to name ;;
             p <- differ f t ;;
             let op := op p in
             Ok (if negb (isIdentical op) then push ops (name, op) else ops)
           else
             f <- get from name ;;
             Ok (push ops (name, remove f))
         else
           ht <- hasOwnProperty to name ;;
           if ht then
             t <- get to name ;;
             Ok (push ops (name, add t))
           else Ok ops) ;;
      handle_property_signatures rest from to ops'
  end.

(** The table [expectedKeys]: a plain object [{}] on which the compiler
    runs [expectedKeys[name] = null] for every declared name, in
    declaration order.  A declared name ["__proto__"] leaves no own
    property: the assignment runs the setter of [Object.prototype], which
    makes [null] the prototype of the table (were the name declared a
    second time, that assignment would create the property). *)
Definition expected_keys (names : list PropertyKey) : Ordinary :=
  fold_left (fun table name => assign table name VNull) names (plain []).

(** [Object.prototype.hasOwnProperty.call(expectedKeys, name)] *)
Definition isExpectedKey (expectedKeys : Ordinary) (name : PropertyKey) : bool :=
  has_own (properties expectedKeys) name.

(** [for (const name of fromKeys)] *)
Fixpoint handle_from_keys (differ : Differ) (expectedKeys : Ordinary)
    (fromKeys : list PropertyKey)
    (from to : Value) (ops : list (PropertyKey * Op)) : Result (list (PropertyKey * Op)) :=
  match fromKeys with
  | [] => Ok ops
  | name :: rest =>
      if isExpectedKey expectedKeys name then
        handle_from_keys differ expectedKeys rest from to ops
      else
        ht <- hasOwnProperty to name ;;
        ops' <-
          (if ht then
             f <- get from name ;;
             t <- get to name ;;
             p <- differ f t ;;
             let op := op p in
             Ok (if negb (isIdentical op) then push ops (name, op) else ops)
           else
             f <- get from name ;;
             Ok (push ops (name, remove f))) ;;
        handle_from_keys differ expectedKeys rest from to ops'
  end.

(** [for (const name of toKeys)] *)
Fixpoint handle_to_keys (expectedKeys : Ordinary) (toKeys : list PropertyKey)
    (from to : Value) (ops : list (PropertyKey * Op)) : Result (list (PropertyKey * Op)) :=
  match toKeys with
  | [] => Ok ops
  | name :: rest =>
      if isExpectedKey expectedKeys name then
        handle_to_keys expectedKeys rest from to ops
      else
        hf <- hasOwnProperty from name ;;
        ops' <-
          (if negb hf then
             t <- get to name ;;
             Ok (push ops (name, add t))
           else Ok ops) ;;
        handle_to_keys expectedKeys rest from to ops'
  end.

(** The loop over the index signatures, each given by its parameter and
    its compiled differ. *)
Fixpoint handle_index_signatures (indexSignatures : list (AST * Differ))
    (expectedKeys : Ordinary) (from to : Value) (ops : list (PropertyKey * Op))
  : Result (list (PropertyKey * Op)) :=
  match indexSignatures with
  | [] => Ok ops
  | (parameter, differ) :: rest =>
      fromKeys <- getKeysForIndexSignature from parameter ;;
      ops1 <- handle_from_keys differ expectedKeys fromKeys from to ops ;;
      toKeys <- getKeysForIndexSignature to parameter ;;
      ops2 <- handle_to_keys expectedKeys toKeys from to ops1 ;;
      handle_index_signatures rest expectedKeys from to ops2
  end.

(** [array.map(f)] for a compilation step [f] that may not return. *)
Fixpoint traverse {A B : Type} (f : A -> option B) (l : list A) : option (list B) :=
  match l with
  | [] => Some []
  | x :: l' =>
      match f x with
      | Some y =>
          match traverse f l' with
          | Some ys => Some (y :: ys)
          | None => None
          end
      | None => None
      end
  end.

(** The differ compiler.  The source recurses without a bound; [fuel]
    bounds the depth of the recursion, and [None] means that the bound was
    reached before the call returned.  A differ, once compiled, is a
    closure over the compiled differs of its components. *)
Fixpoint go (fuel : nat) (thunks : Thunks) (ast : AST) {struct fuel} : option Differ :=
  match fuel with
  | O => None
  | S fuel =>
      match ast with
      | NumberKeyword =>
          Some (fun from to => Ok (make (if Object_is from to then identical else replace from to)))
      | Declaration _ _
      | Literal _
      | UniqueSymbol _
      | UndefinedKeyword
      | VoidKeyword
      | NeverKeyword
      | UnknownKeyword
      | AnyKeyword
      | StringKeyword
      | BooleanKeyword
      | BigIntKeyword
      | SymbolKeyword
      | ObjectKeyword
      | Enums _
      | TemplateLiteral _
      | Union _
      | Transform _ _ =>
          Some (fun from to => Ok (make (if strict_equals from to then identical else replace from to)))
      | Refinement from => go fuel thunks from
      | Lazy f => go fuel thunks (thunks f)
      | Tuple elements _ =>
          match traverse (fun e => go fuel thunks (Element.type e)) elements with
          | Some elements' =>
              Some (fun from to =>
                      ops <- handle_elements elements' 0 from to [] ;;
                      Ok (make (if isNonEmptyReadonlyArray ops then arrayOps ops else identical)))
          | None => None
          end
      | TypeLiteral propertySignatures indexSignatures =>
          match traverse (fun ps => go fuel thunks (PropertySignature.type ps)) propertySignatures with
          | Some propertySignatures' =>
              match traverse (fun sig => go fuel thunks (IndexSignature.type sig)) indexSignatures with
              | Some indexSignatures' =>
                  let names := map (@PropertySignature.name AST) propertySignatures in
                  let parameters := map (@IndexSignature.parameter AST) indexSignatures in
                  let expectedKeys := expected_keys names in
                  Some (fun from to =>
                          ops <- handle_property_signatures
                                   (combine names propertySignatures') from to [] ;;
                          ops <- handle_index_signatures
                                   (combine parameters indexSignatures') expectedKeys from to ops ;;
                          Ok (make (if isNonEmptyReadonlyArray ops then objectOps ops else identical)))
              | None => None
              end
          | None => None
          end
      end
  end.

(** [fromSchema = go(AST.to(schema.ast))].  [AST.to], which projects a
    schema on its type side, belongs to the AST module and is taken as a
    parameter; it is applied to the descriptor and to what its thunks
    return. *)
Section FromSchema.
Variable AST_to : AST -> AST.

Definition fromSchema (fuel : nat) (thunks : Thunks) (schema : AST) : option Differ :=
  go fuel (fun f => AST_to (thunks f)) (AST_to schema).

End FromSchema.

(* ===================================================================== *)
(** ** JSONPatch *)
(* ===================================================================== *)

Inductive JSONPatch : Type :=
| op_add (path : string) (value : Value)
| op_remove (path : string)
| op_replace (path : string) (value : Value).

(** [s.replaceAll(pattern, replacement)] for a non-empty [pattern]: the
    occurrences are found from left to right and do not overlap.  [skip]
    counts the characters of a matched occurrence still to be passed. *)
Fixpoint replaceAll_from (pattern replacement : string) (skip : nat) (s : string) : string :=
  match s with
  | EmptyString => EmptyString
  | String c s' =>
      match skip with
      | S k => replaceAll_from pattern replacement k s'
      | O =>
          if String.prefix pattern s
          then (replacement ++ replaceAll_from pattern replacement (String.length pattern - 1) s')%string
          else String c (replaceAll_from pattern replacement 0 s')
      end
  end.

Definition replaceAll (s pattern replacement : string) : string :=
  replaceAll_from pattern replacement 0 s.

(** [array.join("")] *)
Definition join (l : list string) : string := String.concat "" l.

Definition pointer (path : list string) : string :=
  join (map (fun s => ("/" ++ replaceAll (replaceAll s "~" "~0") "/" "~1")%string) path).

(** Modelled from the spec: the JSON schema and its validator are not part
    of the sources at hand.  A value is JSON-representable when it is
    [null], a string, a number, a boolean, an array of such values or an
    object all of whose keys are strings and all of whose values are such
    values; under strict excess-property validation any other key (a
    symbol) is an error. *)
Fixpoint isJson (a : Value) : bool :=
  match a with
  | VNull | VString _ | VNumber _ | VBoolean _ => true
  | VArray _ items =>
      (fix all (l : list Value) : bool :=
         match l with [] => true | x :: l' => isJson x && all l' end) items
  | VObject _ props =>
      (fix all (l : list (PropertyKey * Value)) : bool :=
         match l with
         | [] => true
         | (KString _, v) :: l' => isJson v && all l'
         | (KSymbol _, _) :: _ => false
         end) props
  | _ => false
  end.

(** [S.validate(S.json)(a, { onExcessProperty: "error" })]: returns its
    argument or throws. *)
Definition validateJson (a : Value) : Result Value :=
  if isJson a then Ok a else Throw (NonJsonValue a).

(** [S.validate(S.string)] applied to a property key. *)
Definition validateString (key : PropertyKey) : Result string :=
  match key with
  | KString s => Ok s
  | KSymbol _ => Throw (NonStringKey key)
  end.

Inductive Either (E A : Type) : Type :=
| Left (e : E)
| Right (a : A).
Arguments Left {E A} e.
Arguments Right {E A} a.

(** [Either.liftThrowable(f, onThrow)]; the errors thrown here are already
    [Error]s, which [onThrow] returns as they are. *)
Definition liftThrowable {A B : Type} (f : A -> Result B) (a : A) : Either Error B :=
  match f a with
  | Ok b => Right b
  | Throw e => Left e
  end.

(** The two arrays the lowering mutates. *)
Record Lowering : Type := { out : list JSONPatch; path : list string }.

Definition path_push (st : Lowering) (s : string) : Lowering :=
  {| out := out st; path := push (path st) s |}.

Definition path_pop (st : Lowering) : Lowering :=
  {| out := out st; path := removelast (path st) |}.

Definition out_push (st : Lowering) (entry : JSONPatch) : Lowering :=
  {| out := push (out st) entry; path := path st |}.

Definition lower_replace (to : Value) (st : Lowering) : Result Lowering :=
  value <- validateJson to ;;
  Ok (out_push st (op_replace (pointer (path st)) value)).

Definition lower_add (value : Value) (st : Lowering) : Result Lowering :=
  value <- validateJson value ;;
  Ok (out_push st (op_add (pointer (path st)) value)).

Definition lower_remove (st : Lowering) : Result Lowering :=
  Ok (out_push st (op_remove (pointer (path st)))).

(** The inner switch of the closures [objectOps] and [arrayOps], which
    call each other: [lower_entry (ObjectOps ops)] is [objectOps(op)] and
    [lower_entry (ArrayOps ops)] is [arrayOps(op)]. *)
Fixpoint lower_entry (op : Op) (st : Lowering) {struct op} : Result Lowering :=
  match op with
  | Replace _ to => lower_replace to st
  | Add value => lower_add value st
  | Remove _ => lower_remove st
  | ObjectOps ops =>
      (fix forEach (ops : list (PropertyKey * Op)) (st : Lowering) {struct ops}
         : Result Lowering :=
         match ops with
         | [] => Ok st
         | (key, op) :: ops' =>
             s <- validateString key ;;
             st' <- lower_entry op (path_push st s) ;;
             forEach ops' (path_pop st')
         end) ops st
  | ArrayOps ops =>
      (fix forEach (ops : list (nat * Op)) (st : Lowering) {struct ops}
         : Result Lowering :=
         match ops with
         | [] => Ok st
         | (key, op) :: ops' =>
             st' <- lower_entry op (path_push st (String_of_index key)) ;;
             forEach ops' (path_pop st')
         end) ops st
  | Identical => Ok st
  end.

Definition getJSONPatch : Op -> Either Error (list JSONPatch) :=
  liftThrowable (fun op =>
    let st := {| out := []; path := [] |} in
    st' <- match op with
           | Identical => Ok st
           | Replace _ to => lower_replace to st
           | ObjectOps _ => lower_entry op st
           | ArrayOps _ => lower_entry op st
           | Add _ | Remove _ => Ok st
           end ;;
    Ok (out st')).

(* ===================================================================== *)
(** ** Reference descriptions used by the statements *)
(* ===================================================================== *)

(** *** Record algorithm, field by field

    What the specification says about one declared field: present in both
    values, the field is diffed and emitted when the result is not
    identical; present only in [from], it is removed; present only in
    [to], it is added; absent in both, it is skipped. *)
Definition field_entry (name : PropertyKey) (differ : Differ)
    (from to : list (PropertyKey * Value)) : Result (list (PropertyKey * Op)) :=
  match assoc name from, assoc name to with
  | Some f, Some t =>
      p <- differ f t ;;
      Ok (if isIdentical (op p) then [] else [(name, op p)])
  | Some f, None => Ok [(name, Remove f)]
  | None, Some t => Ok [(name, Add t)]
  | None, None => Ok []
  end.

(** The entries of all declared fields, in declaration order. *)
Fixpoint field_entries (fields : list (PropertyKey * Differ))
    (from to : list (PropertyKey * Value)) : Result (list (PropertyKey * Op)) :=
  match fields with
  | [] => Ok []
  | (name, differ) :: rest =>
      e <- field_entry name differ from to ;;
      es <- field_entries rest from to ;;
      Ok (e ++ es)
  end.

(** [ObjectOps(entries)] if there are entries, else [Identical]. *)
Definition object_result (entries : list (PropertyKey * Op)) : Patch :=
  make (match entries with [] => Identical | _ :: _ => ObjectOps entries end).

(** *** Tuple algorithm, position by position

    Every declared position [i] is compared as [from[i]] against [to[i]],
    a position beyond the end of an array reading as [undefined]; the
    entry [(i, op)] is emitted when the result is not identical. *)
Fixpoint element_entries (elements : list Differ) (i : nat) (from to : list Value)
  : Result (list (nat * Op)) :=
  match elements with
  | [] => Ok []
  | differ :: rest =>
      p <- differ (nth i from VUndefined) (nth i to VUndefined) ;;
      es <- element_entries rest (S i) from to ;;
      Ok ((if isIdentical (op p) then [] else [(i, op p)]) ++ es)
  end.

(** [ArrayOps(entries)] if there are entries, else [Identical]. *)
Definition array_result (entries : list (nat * Op)) : Patch :=
  make (match entries with [] => Identical | _ :: _ => ArrayOps entries end).

(** *** Array entries read against the original array

    Reference semantics of an [ArrayOps] node, to compare [runOp] with.
    An entry acts on the array in one of three ways: [Add] brings a value
    in, [Remove] takes an element away, and a nested op ([Replace],
    [ObjectOps], [ArrayOps]) puts the patched element in place of the
    element.  An [Identical] entry does nothing. *)
Inductive Step : Type :=
| Insert (value : Value)
| Delete
| Assign (result : Value).

(** The steps of a list of entries, in the order of the list.  The input
    of a nested op is the element of the original array [a] at the index
    of its entry, whatever the earlier entries did to the copy; the
    nested ops run in list order, which fixes the addresses of the
    objects they allocate. *)
Fixpoint array_steps (a : Value) (ops : list (nat * Op)) (next : nat)
  : Result (list (nat * Step) * nat) :=
  match ops with
  | [] => Ok ([], next)
  | (index, subop) :: ops' =>
      match subop with
      | Identical => array_steps a ops' next
      | Add value =>
          '(steps, next') <- array_steps a ops' next ;;
          Ok ((index, Insert value) :: steps, next')
      | Remove _ =>
          '(steps, next') <- array_steps a ops' next ;;
          Ok ((index, Delete) :: steps, next')
      | Replace _ _ | ObjectOps _ | ArrayOps _ =>
          v <- get_index a index ;;
          '(r, next1) <- runOp subop v next ;;
          '(steps, next') <- array_steps a ops' next1 ;;
          Ok ((index, Assign r) :: steps, next')
      end
  end.

(** One step applied to the copy in progress, its index addressing the
    copy as it is now; and a list of steps applied in list order. *)
Definition apply_step (out : list Value) (entry : nat * Step) : list Value :=
  match snd entry with
  | Insert value => splice_insert out (fst entry) value
  | Delete => splice_delete out (fst entry)
  | Assign result => array_set out (fst entry) result
  end.

Definition in_list_order (steps : list (nat * Step)) (items : list Value) : list Value :=
  fold_left apply_step steps items.

(** What a list of steps means when every index addresses the array as it
    was when the patch was computed: the element at an index with a
    removal disappears, a value inserted at an index comes just before
    the element that was there (or at the end), the element at the index
    of a nested op is replaced by the patched one.  [j] is the index of
    the first of [items] in the original array. *)
Fixpoint step_at (steps : list (nat * Step)) (j : nat) : option Step :=
  match steps with
  | [] => None
  | (i, s) :: steps' => if Nat.eqb i j then Some s else step_at steps' j
  end.

Fixpoint at_diff_time (steps : list (nat * Step)) (j : nat) (items : list Value)
  : list Value :=
  match items with
  | [] => match step_at steps j with Some (Insert v) => [v] | _ => [] end
  | x :: items' =>
      match step_at steps j with
      | Some (Insert v) => v :: x :: at_diff_time steps (S j) items'
      | Some Delete => at_diff_time steps (S j) items'
      | Some (Assign r) => r :: at_diff_time steps (S j) items'
      | None => x :: at_diff_time steps (S j) items'
      end
  end.

(** The index of a step addresses an array of [n] elements: an element
    for a nested op, an element or the end for an insertion or a
    removal. *)
Definition in_range (n : nat) (entry : nat * Step) : bool :=
  match snd entry with
  | Assign _ => Nat.ltb (fst entry) n
  | _ => Nat.leb (fst entry) n
  end.

Definition is_insert_or_removal (entry : nat * Op) : bool :=
  match snd entry with Add _ | Remove _ => true | _ => false end.

(** The indices decrease strictly along the list. *)
Fixpoint descending {A : Type} (entries : list (nat * A)) : bool :=
  match entries with
  | [] => true
  | (i, _) :: entries' =>
      match entries' with
      | [] => true
      | (i', _) :: _ => Nat.ltb i' i && descending entries'
      end
  end.

(** The entries sorted by descending index (insertion sort). *)
Fixpoint insert_descending (entry : nat * Op) (ops : list (nat * Op)) : list (nat * Op) :=
  match ops with
  | [] => [entry]
  | e :: ops' =>
      if Nat.leb (fst e) (fst entry) then entry :: ops
      else e :: insert_descending entry ops'
  end.

Definition sort_descending (ops : list (nat * Op)) : list (nat * Op) :=
  fold_right insert_descending [] ops.

(** *** What the lowering emits

    The keys an op tree places on the path are all strings, and the values
    it emits in [add] and [replace] entries are all JSON. *)
Fixpoint lowerable_entry (op : Op) : bool :=
  match op with
  | Replace _ to => isJson to
  | Add value => isJson value
  | Remove _ => true
  | ObjectOps ops =>
      (fix all (l : list (PropertyKey * Op)) : bool :=
         match l with
         | [] => true
         | (KString _, o) :: l' => lowerable_entry o && all l'
         | (KSymbol _, _) :: _ => false
         end) ops
  | ArrayOps ops =>
      (fix all (l : list (nat * Op)) : bool :=
         match l with
         | [] => true
         | (_, o) :: l' => lowerable_entry o && all l'
         end) ops
  | Identical => true
  end.

Definition lowerable (op : Op) : bool :=
  match op with
  | Add _ | Remove _ => true
  | _ => lowerable_entry op
  end.

(** The two validation failures of the lowering: a key that is not a
    string, a value that is not JSON. *)
Definition is_validation_failure (e : Error) : Prop :=
  match e with
  | NonStringKey (KSymbol _) => True
  | NonJsonValue v => isJson v = false
  | _ => False
  end.

(** Every occurrence of the character [p] replaced by [r]. *)
Fixpoint substitute (p : ascii) (r : string) (s : string) : string :=
  match s with
  | EmptyString => EmptyString
  | String c s' =>
      if Ascii.eqb c p then (r ++ substitute p r s')%string
      else String c (substitute p r s')
  end.

(** One character of a pointer segment, escaped. *)
Definition escape_char (c : ascii) : string :=
  if Ascii.eqb c "~" then "~0"
  else if Ascii.eqb c "/" then "~1"
  else String c EmptyString.

Fixpoint escape (s : string) : string :=
  match s with
  | EmptyString => EmptyString
  | String c s' => (escape_char c ++ escape s')%string
  end.

(** The entries of an op tree in depth-first order, each addressed by the
    pointer of the keys above it. *)
Fixpoint entries_of (segments : list string) (op : Op) {struct op} : list JSONPatch :=
  let here := String.concat "" (map (fun s => ("/" ++ escape s)%string) segments) in
  match op with
  | Replace _ to => [op_replace here to]
  | Add value => [op_add here value]
  | Remove _ => [op_remove here]
  | ObjectOps ops =>
      (fix each (l : list (PropertyKey * Op)) : list JSONPatch :=
         match l with
         | [] => []
         | (KString s, o) :: l' => entries_of (segments ++ [s]) o ++ each l'
         | (KSymbol _, _) :: l' => each l'
         end) ops
  | ArrayOps ops =>
      (fix each (l : list (nat * Op)) : list JSONPatch :=
         match l with
         | [] => []
         | (i, o) :: l' => entries_of (segments ++ [String_of_index i]) o ++ each l'
         end) ops
  | Identical => []
  end.

Definition patch_document (op : Op) : list JSONPatch :=
  match op with
  | Add _ | Remove _ => []
  | _ => entries_of [] op
  end.

(** The state after lowering an entry that can be lowered: the document
    has grown by the entries of the op, the path is as it was. *)
Definition lowered_state (st : Lowering) (op : Op) : Lowering :=
  {| out := out st ++ entries_of (path st) op; path := path st |}.

(** *** Array-level entries of an op tree

    No [ArrayOps] node of the tree has an entry tagged [Add] or
    [Remove]. *)
Definition is_add_or_remove (op : Op) : bool :=
  match op with Add _ | Remove _ => true | _ => false end.

Fixpoint positional (op : Op) : bool :=
  match op with
  | ObjectOps ops =>
      (fix all (l : list (PropertyKey * Op)) : bool :=
         match l with [] => true | (_, o) :: l' => positional o && all l' end) ops
  | ArrayOps ops =>
      (fix all (l : list (nat * Op)) : bool :=
         match l with
         | [] => true
         | (_, o) :: l' => negb (is_add_or_remove o) && positional o && all l'
         end) ops
  | _ => true
  end.


(** What holds of every op a compiled differ returns: it is not itself an
    addition or a removal, and none of its array nodes has one. *)
Definition positional_root (op : Op) : Prop :=
  positional op = true /\ is_add_or_remove op = false.

Definition returns_positional (differ : Differ) : Prop :=
  forall from to patch, differ from to = Ok patch -> positional_root (op patch).

(** [returns_entries E differ]: every op the differ returns, when it is
    not [Identical], satisfies [E]. *)
Definition returns_entries (E : Op -> Prop) (differ : Differ) : Prop :=
  forall from to patch,
    differ from to = Ok patch -> isIdentical (op patch) = false -> E (op patch).

(** The tags the compiler treats as leaves compared with [===]. *)
Definition is_strict_leaf (ast : AST) : bool :=
  match ast with
  | Declaration _ _ | Literal _ | UniqueSymbol _ | UndefinedKeyword | VoidKeyword
  | NeverKeyword | UnknownKeyword | AnyKeyword | StringKeyword | BooleanKeyword
  | BigIntKeyword | SymbolKeyword | ObjectKeyword | Enums _ | TemplateLiteral _
  | Union _ | Transform _ _ => true
  | _ => false
  end.

(** Whether a key is a string (and not a symbol). *)
Definition is_string_key (k : PropertyKey) : bool :=
  match k with KString _ => true | KSymbol _ => false end.

(** The kind of keys an index signature ranges over: [Some true] for
    string keys, [Some false] for symbol keys, [None] for a parameter
    [getKeysForIndexSignature] does not handle. *)
Fixpoint key_kind (parameter : AST) : option bool :=
  match parameter with
  | StringKeyword | TemplateLiteral _ => Some true
  | SymbolKeyword => Some false
  | Refinement from => key_kind from
  | _ => None
  end.

(** *** Record algorithm, index signature by index signature

    What the specification says about the index-keyed fields: for every
    key present in [from] or in [to] that is not one of the expected
    keys, the same present/absent logic as for a declared field
    ([field_entry]), with the value differ of the index signature.  The
    keys of one signature are the keys of its kind of [from], in
    enumeration order, followed by those of [to] that [from] lacks. *)
Definition keys_of_kind (string_keys : bool) (props : list (PropertyKey * Value))
  : list PropertyKey :=
  filter (fun k => Bool.eqb (is_string_key k) string_keys) (map fst props).

Definition signature_keys (string_keys : bool) (expectedKeys : Ordinary)
    (from to : list (PropertyKey * Value)) : list PropertyKey :=
  filter (fun k => negb (isExpectedKey expectedKeys k))
    (keys_of_kind string_keys from ++
     filter (fun k => negb (has_own from k)) (keys_of_kind string_keys to)).

(** The entries of one index signature; a parameter whose keys
    [getKeysForIndexSignature] cannot enumerate makes the differ throw. *)
Definition signature_entries (parameter : AST) (differ : Differ)
    (expectedKeys : Ordinary) (from to : list (PropertyKey * Value))
  : Result (list (PropertyKey * Op)) :=
  match key_kind parameter with
  | Some string_keys =>
      field_entries
        (map (fun k => (k, differ)) (signature_keys string_keys expectedKeys from to))
        from to
  | None => Throw TypeError
  end.

(** The entries of all index signatures, in declaration order. *)
Fixpoint index_entries (indexSignatures : list (AST * Differ))
    (expectedKeys : Ordinary) (from to : list (PropertyKey * Value))
  : Result (list (PropertyKey * Op)) :=
  match indexSignatures with
  | [] => Ok []
  | (parameter, differ) :: rest =>
      e <- signature_entries parameter differ expectedKeys from to ;;
      es <- index_entries rest expectedKeys from to ;;
      Ok (e ++ es)
  end.

(** The primitive values other than numbers. *)
Definition non_number_primitive (v : Value) : bool :=
  match v with
  | VUndefined | VNull | VBoolean _ | VBigInt _ | VString _ | VSymbol _ => true
  | _ => false
  end.

(** *** The shapes on which the engine is complete

    [has_shape thunks ast v]: [v] is a value of the shape [ast], for the
    shapes and values the differ and the executor handle in full:
    - the number shape, with any number;
    - a leaf compared with [===], with a primitive value other than a
      number (on those, [===] is SameValue);
    - refinements and lazy nodes over such shapes;
    - a tuple, with exactly one item per declared element;
    - a type literal whose property signatures have distinct names and
      whose index signatures are keyed by strings or by symbols, with an
      object whose own keys are distinct, none of them ["__proto__"], and
      each property of which is declared by a property signature, or is
      undeclared and falls under the index signatures of its kind of key
      (no excess property: a property that is neither is not allowed). *)
Inductive has_shape (thunks : Thunks) : AST -> Value -> Prop :=
| shape_number x : has_shape thunks NumberKeyword (VNumber x)
| shape_leaf ast v :
    is_strict_leaf ast = true -> non_number_primitive v = true ->
    has_shape thunks ast v
| shape_Refinement from v :
    has_shape thunks from v -> has_shape thunks (Refinement from) v
| shape_Lazy f v :
    has_shape thunks (thunks f) v -> has_shape thunks (Lazy f) v
| shape_Tuple elements rest r items :
    Forall2 (fun e v => has_shape thunks (Element.type e) v) elements items ->
    has_shape thunks (Tuple elements rest) (VArray r items)
| shape_TypeLiteral propertySignatures indexSignatures r props :
    NoDup (map (@PropertySignature.name AST) propertySignatures) ->
    NoDup (map fst props) ->
    ~ In proto_key (map fst props) ->
    (forall sig, In sig indexSignatures ->
       key_kind (IndexSignature.parameter sig) <> None) ->
    (forall k v, In (k, v) props ->
       (exists ps, In ps propertySignatures /\ PropertySignature.name ps = k /\
                   has_shape thunks (PropertySignature.type ps) v) \/
       (~ In k (map (@PropertySignature.name AST) propertySignatures) /\
        (exists sig, In sig indexSignatures /\
                     key_kind (IndexSignature.parameter sig) = Some (is_string_key k)) /\
        (forall sig, In sig indexSignatures ->
           key_kind (IndexSignature.parameter sig) = Some (is_string_key k) ->
           has_shape thunks (IndexSignature.type sig) v))) ->
    has_shape thunks (TypeLiteral propertySignatures indexSignatures) (VObject r props).

(** [applies_to op a b]: applying [op] to [a] returns a value
    structurally equal to [b]. *)
Definition applies_to (op : Op) (a b : Value) : Prop :=
  forall next, exists out next',
    runOp op a next = Ok (out, next') /\ equals out b = true.

(** The round trip of one pair: the differ returns a patch, and the patch
    applied to [from] returns a value structurally equal to [to]. *)
Definition round_trips (differ : Differ) (from to : Value) : Prop :=
  exists patch, differ from to = Ok patch /\ applies_to (op patch) from to.

(** Round trip and reversal of one pair: moreover the reversed patch
    applied to [to] returns a value structurally equal to [from]. *)
Definition two_way (differ : Differ) (from to : Value) : Prop :=
  exists patch,
    differ from to = Ok patch /\
    applies_to (op patch) from to /\
    applies_to (op (reverse patch)) to from.

(** Two property tables agree on a key. *)
Definition agree (a b : option Value) : Prop :=
  match a, b with
  | Some v, Some w => equals v w = true
  | None, None => True
  | _, _ => False
  end.

(** What the entry of a record patch is, for the property tables of
    [from] and [to]: the non-identical op of a component whose two
    directions apply, the removal of a property [to] lacks, or the
    addition of a property [from] lacks. *)
Inductive fair_entry (p1 p2 : list (PropertyKey * Value)) : PropertyKey * Op -> Prop :=
| fair_nested k e f t :
    assoc k p1 = Some f -> assoc k p2 = Some t ->
    isIdentical e = false -> is_add_or_remove e = false ->
    applies_to e f t -> applies_to (reverseOp e) t f ->
    fair_entry p1 p2 (k, e)
| fair_Remove k f :
    assoc k p1 = Some f -> assoc k p2 = None -> equals f f = true ->
    fair_entry p1 p2 (k, Remove f)
| fair_Add k t :
    assoc k p1 = None -> assoc k p2 = Some t -> equals t t = true ->
    fair_entry p1 p2 (k, Add t).

(** A key is covered by the entries of a patch when one of them addresses
    it, or when the two tables already agree on it. *)
Definition covered (p1 p2 : list (PropertyKey * Value)) (keys : list PropertyKey)
    (k : PropertyKey) : Prop :=
  In k keys \/ (agree (assoc k p1) (assoc k p2) /\ agree (assoc k p2) (assoc k p1)).

(** The same for the entry of a tuple patch, which is always the op of a
    component. *)
Definition fair_item (l1 l2 : list Value) (entry : nat * Op) : Prop :=
  fst entry < List.length l1 /\
  isIdentical (snd entry) = false /\ is_add_or_remove (snd entry) = false /\
  applies_to (snd entry) (nth (fst entry) l1 VUndefined) (nth (fst entry) l2 VUndefined) /\
  applies_to (reverseOp (snd entry))
    (nth (fst entry) l2 VUndefined) (nth (fst entry) l1 VUndefined).

(** The entries of a node, each op reversed. *)
Definition reverse_entries {K : Type} (es : list (K * Op)) : list (K * Op) :=
  map (fun '(key, op) => (key, reverseNestedOp op)) es.

(** *** Descriptors with a finite unfolding

    [resolves thunks ast]: following the parts of [ast] the compiler
    visits (the base of a refinement, the result of a thunk, the element
    types of a tuple, the types of the property and index signatures of a
    type literal) always ends at leaves. *)
Inductive resolves (thunks : Thunks) : AST -> Prop :=
| resolves_number : resolves thunks NumberKeyword
| resolves_leaf ast : is_strict_leaf ast = true -> resolves thunks ast
| resolves_Refinement from : resolves thunks from -> resolves thunks (Refinement from)
| resolves_Lazy f : resolves thunks (thunks f) -> resolves thunks (Lazy f)
| resolves_Tuple elements rest :
    resolves_all thunks (map (@Element.type AST) elements) ->
    resolves thunks (Tuple elements rest)
| resolves_TypeLiteral propertySignatures indexSignatures :
    resolves_all thunks (map (@PropertySignature.type AST) propertySignatures) ->
    resolves_all thunks (map (@IndexSignature.type AST) indexSignatures) ->
    resolves thunks (TypeLiteral propertySignatures indexSignatures)
with resolves_all (thunks : Thunks) : list AST -> Prop :=
| resolves_nil : resolves_all thunks []
| resolves_cons ast l :
    resolves thunks ast -> resolves_all thunks l -> resolves_all thunks (ast :: l).

Scheme resolves_mut := Minimality for resolves Sort Prop
  with resolves_all_mut := Minimality for resolves_all Sort Prop.

(** *** Entries of two documents that undo each other

    [mirrors a b]: the two entries address the same path, and [b] is of
    the kind that undoes [a]: a [remove] for an [add], an [add] for a
    [remove], a [replace] for a [replace]. *)
Definition mirrors (a b : JSONPatch) : Prop :=
  match a, b with
  | op_add p _, op_remove q => p = q
  | op_remove p, op_add q _ => p = q
  | op_replace p _, op_replace q _ => p = q
  | _, _ => False
  end.

(** *** Descriptors that declare every component

    [declares_all thunks ast]: along the parts of [ast] the compiler
    visits, every type literal is a struct: it has property signatures
    and no index signature. *)
Inductive declares_all (thunks : Thunks) : AST -> Prop :=
| declares_number : declares_all thunks NumberKeyword
| declares_leaf ast : is_strict_leaf ast = true -> declares_all thunks ast
| declares_Refinement from : declares_all thunks from -> declares_all thunks (Refinement from)
| declares_Lazy f : declares_all thunks (thunks f) -> declares_all thunks (Lazy f)
| declares_Tuple elements rest :
    Forall (fun e => declares_all thunks (Element.type e)) elements ->
    declares_all thunks (Tuple elements rest)
| declares_TypeLiteral propertySignatures :
    Forall (fun ps => declares_all thunks (PropertySignature.type ps)) propertySignatures ->
    declares_all thunks (TypeLiteral propertySignatures []).

(* ===================================================================== *)
(** ** Example schemas and values *)
(* ===================================================================== *)

Definition no_thunks : Thunks := fun _ => NeverKeyword.

Definition number (z : Z) : Value := VNumber (number_of_Z z).

Definition required (name : string) (type : AST) : PropertySignature.t AST :=
  PropertySignature.make (KString name) type false.

Definition optional (name : string) (type : AST) : PropertySignature.t AST :=
  PropertySignature.make (KString name) type true.

(** [S.record(S.string, S.string)] *)
Definition record_string_string : AST :=
  TypeLiteral [] [IndexSignature.make StringKeyword StringKeyword].

(** [S.array(S.string)]: a tuple without elements and with a rest. *)
Definition array_of_string : AST := Tuple [] (Some [StringKeyword]).

(** [S.struct({ a: S.string, b: S.number })] *)
Definition struct_a_b : AST :=
  TypeLiteral [required "a" StringKeyword; required "b" NumberKeyword] [].

(** The schema of the test "User", reduced to its recursive field:
    [const User = S.struct({ subUser: S.optional(S.lazy(() => User)) })].
    Thunk [0] returns [User] itself. *)
Definition User : AST := TypeLiteral [optional "subUser" (Lazy 0)] [].
Definition User_thunks : Thunks := fun _ => User.

(** The schema of the test "lazy (manual)":
    [const schema = S.lazy(() => S.struct({ a: S.string, as: S.array(schema) }))].
    Thunk [0] returns the struct, whose array refers to the lazy node. *)
Definition lazy_A : AST := Lazy 0.
Definition lazy_A_thunks : Thunks :=
  fun _ => TypeLiteral [required "a" StringKeyword;
                        required "as" (Tuple [] (Some [lazy_A]))] [].

(* ===================================================================== *)
(** * Properties *)
(* ===================================================================== *)

Unset Implicit Arguments.

(** ** Keys, numbers, equalities *)

Lemma PropertyKey_eqb_spec k1 k2 : reflect (k1 = k2) (PropertyKey_eqb k1 k2).
Proof.
  destruct k1 as [a|a], k2 as [b|b]; simpl;
    try (constructor; discriminate);
    destruct (String.eqb_spec a b); constructor; congruence.
Qed.

Lemma PropertyKey_eqb_refl k : PropertyKey_eqb k k = true.
Proof. destruct (PropertyKey_eqb_spec k k); congruence. Qed.

Lemma PropertyKey_eqb_neq a b : a <> b -> PropertyKey_eqb a b = false.
Proof. intros H. destruct (PropertyKey_eqb_spec a b); [contradiction | reflexivity]. Qed.

Lemma same_number_spec x y : reflect (x = y) (same_number x y).
Proof.
  destruct x as [s1|s1| |s1 m1 e1], y as [s2|s2| |s2 m2 e2]; simpl;
    try (constructor; congruence).
  - destruct (Bool.eqb_spec s1 s2); constructor; congruence.
  - destruct (Bool.eqb_spec s1 s2); constructor; congruence.
  - destruct (Bool.eqb_spec s1 s2), (Pos.eqb_spec m1 m2), (Z.eqb_spec e1 e2);
      simpl; constructor; congruence.
Qed.

Lemma Object_is_refl a : Object_is a a = true.
Proof.
  destruct a; simpl; auto using Bool.eqb_reflx, Z.eqb_refl, String.eqb_refl, Nat.eqb_refl.
  destruct (same_number_spec x x); congruence.
Qed.

(** [===] on two numbers holds exactly when they are the same number other
    than NaN, or are both zeros. *)
Lemma SFeqb_refl x : x <> S754_nan -> SFeqb x x = true.
Proof.
  unfold SFeqb, SFcompare. destruct x as [s|s| |s m e]; try congruence.
  - destruct s; reflexivity.
  - intros _. rewrite Z.compare_refl.
    change (Pos.compare_cont Eq m m) with (Pos.compare m m).
    rewrite Pos.compare_refl. destruct s; reflexivity.
Qed.

Lemma SFeqb_true x y :
  SFeqb x y = true ->
  (x = y /\ x <> S754_nan) \/ (exists s1 s2, x = S754_zero s1 /\ y = S754_zero s2).
Proof.
  assert (Hcont : forall m1 m2, Pos.compare_cont Eq m1 m2 = Eq -> m1 = m2).
  { intros m1 m2 H. apply Pos.compare_eq. exact H. }
  unfold SFeqb, SFcompare.
  destruct x as [s1|s1| |s1 m1 e1], y as [s2|s2| |s2 m2 e2]; intros H;
    try discriminate H;
    try (destruct s1; discriminate H);
    try (destruct s2; discriminate H).
  - right. eauto.
  - left. destruct s1, s2; try discriminate H; split; congruence.
  - left. split; [|discriminate].
    destruct s1, s2; try discriminate H;
      destruct (Z.compare_spec e1 e2); try discriminate H; subst e2;
      destruct (Pos.compare_cont Eq m1 m2) eqn:E; try discriminate H;
      apply Hcont in E; congruence.
Qed.

Lemma SFeqb_true_iff x y :
  SFeqb x y = true <->
  (x = y /\ x <> S754_nan) \/ (exists s1 s2, x = S754_zero s1 /\ y = S754_zero s2).
Proof.
  split; [apply SFeqb_true|].
  intros [[<- Hn]|(s1 & s2 & -> & ->)]; [apply SFeqb_refl; exact Hn | reflexivity].
Qed.

(** [===] and [Object.is] disagree on exactly two kinds of pairs: NaN with
    NaN, and two zeros of opposite signs. *)
Lemma strict_equals_Object_is a b :
  strict_equals a b = Object_is a b \/
  (a = VNumber NaN /\ b = VNumber NaN) \/
  (exists s, a = VNumber (S754_zero s) /\ b = VNumber (S754_zero (negb s))).
Proof.
  destruct a, b; try (left; reflexivity). simpl.
  destruct (same_number_spec x x0) as [->|Hne].
  - destruct x0 as [s|s| |s m e]; try (left; apply SFeqb_refl; discriminate).
    right. left. split; reflexivity.
  - destruct (SFeqb x x0) eqn:E; [|left; reflexivity].
    apply SFeqb_true in E. destruct E as [[? _]|(s1 & s2 & -> & ->)]; [contradiction|].
    right. right. exists s1. destruct s1, s2; simpl; try (split; reflexivity);
      exfalso; apply Hne; reflexivity.
Qed.

(** ** Array indices as property keys *)

Lemma index_of_key_String_of_index i : index_of_key (String_of_index i) = Some i.
Proof.
  unfold index_of_key, String_of_index.
  rewrite NilEmpty.usu, DecimalNat.Unsigned.of_to, String.eqb_refl. reflexivity.
Qed.

Lemma String_of_index_not_length i : String.eqb (String_of_index i) "length" = false.
Proof. unfold String_of_index. destruct (Nat.to_uint i); reflexivity. Qed.

(** Reading an array at a numeric index and at the key the index converts
    to are the same read. *)
Lemma get_index_array r items i :
  get (VArray r items) (KString (String_of_index i)) = get_index (VArray r items) i.
Proof.
  unfold get. cbn [own_property get_index].
  rewrite String_of_index_not_length, index_of_key_String_of_index. cbn [bind].
  f_equal. revert i. induction items as [|x items IH]; intros [|i]; try reflexivity.
  cbn [nth_error nth]. apply IH.
Qed.

(** ** The leaf comparators of [go] *)

Lemma go_number fuel thunks :
  go (S fuel) thunks NumberKeyword =
  Some (fun from to => Ok (make (if Object_is from to then identical else replace from to))).
Proof. reflexivity. Qed.

Lemma go_strict_leaf fuel thunks ast :
  is_strict_leaf ast = true ->
  go (S fuel) thunks ast =
  Some (fun from to => Ok (make (if strict_equals from to then identical else replace from to))).
Proof. destruct ast; simpl; intros H; try discriminate H; reflexivity. Qed.

(** C5, observed on the code: the leaf comparator of the [unknown] shape is
    [===], not SameValue.  [Object.is(NaN, NaN)] holds, yet the differ
    answers [Replace(NaN, NaN)]; [Object.is(0, -0)] fails, yet the differ
    answers [Identical].  The number shape does follow SameValue on the
    same pairs. *)
Theorem unknown_leaf_is_strict_not_SameValue :
  forall fuel thunks,
  exists differ differ_number,
    go (S fuel) thunks UnknownKeyword = Some differ /\
    go (S fuel) thunks NumberKeyword = Some differ_number /\
    Object_is (VNumber NaN) (VNumber NaN) = true /\
    differ (VNumber NaN) (VNumber NaN) = Ok (make (Replace (VNumber NaN) (VNumber NaN))) /\
    differ_number (VNumber NaN) (VNumber NaN) = Ok (make Identical) /\
    Object_is (VNumber pos_zero) (VNumber neg_zero) = false /\
    differ (VNumber pos_zero) (VNumber neg_zero) = Ok (make Identical) /\
    differ_number (VNumber pos_zero) (VNumber neg_zero) =
      Ok (make (Replace (VNumber pos_zero) (VNumber neg_zero))).
Proof.
  intros fuel thunks. eexists. eexists.
  split; [reflexivity|]. split; [reflexivity|].
  repeat split; reflexivity.
Qed.

(** The number shape compares with SameValue, on all values. *)
Lemma number_leaf_is_SameValue fuel thunks :
  exists differ,
    go (S fuel) thunks NumberKeyword = Some differ /\
    forall from to,
      (Object_is from to = true -> differ from to = Ok (make Identical)) /\
      (Object_is from to = false -> differ from to = Ok (make (Replace from to))).
Proof.
  eexists. split; [reflexivity|]. intros from to. split; intros ->; reflexivity.
Qed.

(** C6, observed on the code: diffing a value against itself is not always
    [Identical].  At the [unknown] shape, and at a struct with a field of
    that shape, [NaN] is reported as replaced by itself. *)
Theorem identity_fails_on_NaN :
  forall fuel thunks,
  exists differ differ_struct,
    go (S fuel) thunks UnknownKeyword = Some differ /\
    differ (VNumber NaN) (VNumber NaN) = Ok (make (Replace (VNumber NaN) (VNumber NaN))) /\
    go (S (S fuel)) thunks (TypeLiteral [required "x" UnknownKeyword] []) = Some differ_struct /\
    let a := VObject 1 [(KString "x", VNumber NaN)] in
    differ_struct a a =
      Ok (make (ObjectOps [(KString "x", Replace (VNumber NaN) (VNumber NaN))])).
Proof.
  intros fuel thunks. eexists. eexists.
  split; [reflexivity|]. split; [reflexivity|]. split; reflexivity.
Qed.

(** A second way for the identity to fail: an absent optional element of
    a struct type makes the tuple differ read a property of [undefined]. *)
Lemma identity_throws_on_absent_struct_element :
  forall fuel thunks,
  exists differ,
    go (S (S (S fuel))) thunks
       (Tuple [Element.make (TypeLiteral [required "a" StringKeyword] []) true] None)
      = Some differ /\
    differ (VArray 1 []) (VArray 1 []) = Throw TypeError.
Proof. intros fuel thunks. eexists. split; reflexivity. Qed.

(** ** Compilation of self-referential shapes *)

Lemma go_User_Lazy fuel :
  go fuel User_thunks User = None /\ go fuel User_thunks (Lazy 0) = None.
Proof.
  induction fuel as [|fuel [IH1 IH2]]; [split; reflexivity|].
  split.
  - simpl. rewrite IH2. reflexivity.
  - simpl. exact IH1.
Qed.

(** C4, observed on the code: compilation of the self-referential schema
    [User] never returns.  [go] resolves a lazy node by calling its thunk
    and compiling the result at once; nothing records that [User] is
    already being compiled, so the recursion [User -> Lazy -> User] has no
    end, whatever the depth allowed. *)
Theorem fromSchema_User_never_returns :
  forall fuel,
    fromSchema (fun ast => ast) fuel User_thunks User = None /\
    go fuel User_thunks User = None.
Proof.
  intros fuel. unfold fromSchema.
  split; apply (go_User_Lazy fuel).
Qed.

Lemma traverse_map {A B C : Type} (g : A -> B) (f : B -> option C) l :
  traverse (fun x => f (g x)) l = traverse f (map g l).
Proof.
  induction l as [|x l IH]; [reflexivity|].
  cbn [traverse map]. rewrite IH. reflexivity.
Qed.

Lemma resolves_returns thunks :
  forall ast, resolves thunks ast ->
  exists n, forall fuel, n <= fuel -> exists differ, go fuel thunks ast = Some differ.
Proof.
  apply (@resolves_mut thunks
           (fun ast => exists n, forall fuel, n <= fuel ->
              exists differ, go fuel thunks ast = Some differ)
           (fun l => exists n, forall fuel, n <= fuel ->
              exists differs, traverse (go fuel thunks) l = Some differs)).
  - exists 1. intros [|fuel] H; [lia|]. eexists. reflexivity.
  - intros ast Hleaf. exists 1. intros [|fuel] H; [lia|].
    rewrite (go_strict_leaf _ _ _ Hleaf). eexists. reflexivity.
  - intros from _ [n IH]. exists (S n). intros [|fuel] H; [lia|].
    cbn [go]. apply IH. lia.
  - intros f _ [n IH]. exists (S n). intros [|fuel] H; [lia|].
    cbn [go]. apply IH. lia.
  - intros elements rest _ [n IH]. exists (S n). intros [|fuel] H; [lia|].
    cbn [go]. rewrite (traverse_map (@Element.type AST) (go fuel thunks)).
    destruct (IH fuel) as [differs ->]; [lia|]. eexists. reflexivity.
  - intros pss iss _ [n1 IH1] _ [n2 IH2]. exists (S (Nat.max n1 n2)).
    intros [|fuel] H; [lia|]. cbn [go].
    rewrite (traverse_map (@PropertySignature.type AST) (go fuel thunks)).
    rewrite (traverse_map (@IndexSignature.type AST) (go fuel thunks)).
    destruct (IH1 fuel) as [fields ->]; [lia|].
    destruct (IH2 fuel) as [indexes ->]; [lia|].
    eexists. reflexivity.
  - exists 0. intros fuel _. eexists. reflexivity.
  - intros ast l _ [n1 IH1] _ [n2 IH2]. exists (Nat.max n1 n2).
    intros fuel H. cbn [traverse].
    destruct (IH1 fuel) as [differ ->]; [lia|].
    destruct (IH2 fuel) as [differs ->]; [lia|].
    eexists. reflexivity.
Qed.

Lemma traverse_resolves_all thunks (f : AST -> option Differ) l :
  (forall ast differ, f ast = Some differ -> resolves thunks ast) ->
  forall differs, traverse f l = Some differs -> resolves_all thunks l.
Proof.
  intros Hf. induction l as [|ast l IH]; intros differs H; [constructor|].
  cbn [traverse] in H.
  destruct (f ast) as [differ|] eqn:E; [|discriminate H].
  destruct (traverse f l) as [ds|]; [|discriminate H].
  constructor; [exact (Hf _ _ E) | exact (IH _ eq_refl)].
Qed.

Lemma returns_resolves thunks fuel :
  forall ast differ, go fuel thunks ast = Some differ -> resolves thunks ast.
Proof.
  induction fuel as [|fuel IH]; intros ast differ H; [discriminate H|].
  destruct ast; cbn [go] in H;
    try (apply resolves_leaf; reflexivity).
  - apply resolves_number.
  - apply resolves_Refinement. exact (IH _ _ H).
  - rewrite (traverse_map (@Element.type AST) (go fuel thunks)) in H.
    destruct (traverse (go fuel thunks) (map (@Element.type AST) elements))
      as [differs|] eqn:E; [|discriminate H].
    apply resolves_Tuple. exact (@traverse_resolves_all thunks _ _ IH _ E).
  - rewrite (traverse_map (@PropertySignature.type AST) (go fuel thunks)) in H.
    rewrite (traverse_map (@IndexSignature.type AST) (go fuel thunks)) in H.
    destruct (traverse (go fuel thunks) (map (@PropertySignature.type AST) propertySignatures))
      as [fields|] eqn:E1; [|discriminate H].
    destruct (traverse (go fuel thunks) (map (@IndexSignature.type AST) indexSignatures))
      as [indexes|] eqn:E2; [|discriminate H].
    apply resolves_TypeLiteral;
      [exact (@traverse_resolves_all thunks _ _ IH _ E1)
      | exact (@traverse_resolves_all thunks _ _ IH _ E2)].
  - apply resolves_Lazy. exact (IH _ _ H).
Qed.

(** Compilation returns exactly on the descriptors with a finite
    unfolding; with enough fuel the model returns the differ. *)
Lemma go_returns_iff_resolves thunks ast :
  resolves thunks ast <-> exists fuel differ, go fuel thunks ast = Some differ.
Proof.
  split.
  - intros H. destruct (resolves_returns thunks ast H) as [n Hn].
    exists n. apply Hn. apply le_n.
  - intros (fuel & differ & H). exact (@returns_resolves thunks fuel _ _ H).
Qed.

Lemma User_does_not_resolve : ~ resolves User_thunks User.
Proof.
  intros H. apply go_returns_iff_resolves in H. destruct H as (fuel & differ & H).
  rewrite (proj1 (go_User_Lazy fuel)) in H. discriminate H.
Qed.

(** The recursive schema of the test "lazy (manual)" does compile: its
    only recursive occurrence is the rest of an array, which the compiler
    never visits.  The differ gives the op the test expects. *)
Example lazy_manual_compiles :
  exists differ,
    go 3 lazy_A_thunks lazy_A = Some differ /\
    differ (VObject 1 [(KString "a", VString "a"); (KString "as", VArray 2 [])])
           (VObject 3 [(KString "a", VString "b"); (KString "as", VArray 4 [])]) =
      Ok (make (ObjectOps [(KString "a", Replace (VString "a") (VString "b"))])).
Proof. eexists. split; reflexivity. Qed.

(** ** Round trip and reversal on the code *)

(** C1, observed on the code: for the shape of arrays of strings the
    differ finds no difference between [["x"]] and [["y"]]; the patch is
    [Identical] and applying it to [["x"]] returns [["x"]], which is not
    [["y"]]. *)
Theorem round_trip_fails_on_array_shape :
  forall fuel thunks next,
  let from := VArray 1 [VString "x"] in
  let to := VArray 2 [VString "y"] in
  exists differ patch,
    go (S fuel) thunks array_of_string = Some differ /\
    differ from to = Ok patch /\
    op patch = Identical /\
    runPatch patch from next = Ok (from, next) /\
    equals from to = false.
Proof.
  intros fuel thunks next. eexists. eexists.
  split; [reflexivity|]. split; [reflexivity|]. repeat split.
Qed.

(** The same failure at a leaf: under the [unknown] shape, [0] and [-0]
    are found identical, and the patch leaves [0] where [-0] is
    expected. *)
Lemma round_trip_fails_on_signed_zero :
  forall fuel thunks next,
  let from := VNumber pos_zero in
  let to := VNumber neg_zero in
  exists differ patch,
    go (S fuel) thunks UnknownKeyword = Some differ /\
    differ from to = Ok patch /\
    runPatch patch from next = Ok (from, next) /\
    equals from to = false.
Proof.
  intros fuel thunks next. eexists. eexists.
  split; [reflexivity|]. split; [reflexivity|]. split; reflexivity.
Qed.

(** A tuple with an optional element: shrinking [["a"]] to [[]] is diffed
    as a replacement by [undefined], and the patched array keeps a slot. *)
Lemma round_trip_fails_on_optional_element :
  forall fuel thunks next,
  let from := VArray 1 [VString "a"] in
  let to := VArray 2 [] in
  exists differ patch,
    go (S (S fuel)) thunks (Tuple [Element.make StringKeyword true] None) = Some differ /\
    differ from to = Ok patch /\
    op patch = ArrayOps [(0, Replace (VString "a") VUndefined)] /\
    runPatch patch from next = Ok (VArray next [VUndefined], S next) /\
    equals (VArray next [VUndefined]) to = false.
Proof.
  intros fuel thunks next. eexists. eexists.
  split; [reflexivity|]. split; [reflexivity|]. repeat split.
Qed.

(** C2, observed on the code: on the same arrays the reversed patch is
    [Identical] as well, and applying it to [["y"]] returns [["y"]], which
    is not [["x"]]. *)
Theorem reversal_fails_on_array_shape :
  forall fuel thunks next,
  let from := VArray 1 [VString "x"] in
  let to := VArray 2 [VString "y"] in
  exists differ patch,
    go (S fuel) thunks array_of_string = Some differ /\
    differ from to = Ok patch /\
    op (reverse patch) = Identical /\
    runPatch (reverse patch) to next = Ok (to, next) /\
    equals to from = false.
Proof.
  intros fuel thunks next. eexists. eexists.
  split; [reflexivity|]. split; [reflexivity|]. repeat split.
Qed.

Lemma reversal_fails_on_signed_zero :
  forall fuel thunks next,
  let from := VNumber pos_zero in
  let to := VNumber neg_zero in
  exists differ patch,
    go (S fuel) thunks UnknownKeyword = Some differ /\
    differ from to = Ok patch /\
    runPatch (reverse patch) to next = Ok (to, next) /\
    equals to from = false.
Proof.
  intros fuel thunks next. eexists. eexists.
  split; [reflexivity|]. split; [reflexivity|]. split; reflexivity.
Qed.

(** ** Pointer encoding *)

Lemma prefix_empty s : String.prefix "" s = true.
Proof. destruct s; reflexivity. Qed.

(** [replaceAll] with a pattern of one character. *)
Lemma replaceAll_char s p r :
  replaceAll s (String p EmptyString) r = substitute p r s.
Proof.
  unfold replaceAll. induction s as [|c s IH]; [reflexivity|].
  cbn [replaceAll_from String.prefix String.length Nat.sub substitute].
  destruct (ascii_dec p c) as [<-|Hne].
  - rewrite prefix_empty, Ascii.eqb_refl, IH. reflexivity.
  - destruct (Ascii.eqb_spec c p) as [->|_]; [contradiction Hne; reflexivity|].
    rewrite IH. reflexivity.
Qed.

Lemma escape_replaceAll s :
  replaceAll (replaceAll s "~" "~0") "/" "~1" = escape s.
Proof.
  rewrite !replaceAll_char.
  induction s as [|c s IH]; [reflexivity|].
  cbn [escape substitute]. unfold escape_char.
  destruct (Ascii.eqb_spec c "~") as [->|Hne].
  - cbn. rewrite IH. reflexivity.
  - cbn [substitute]. destruct (Ascii.eqb c "/"); rewrite IH; reflexivity.
Qed.

Lemma pointer_escape path :
  pointer path = String.concat "" (map (fun s => ("/" ++ escape s)%string) path).
Proof.
  unfold pointer, join. f_equal.
  apply map_ext. intros s. rewrite escape_replaceAll. reflexivity.
Qed.

(** C9: the pointer of a path is the concatenation, segment by segment, of
    "/" and the segment in which every "~" has become "~0" and every "/"
    has become "~1".  Over a record keyed by strings, the diff of [{}]
    against [{"": ""}] lowers to one [add] at "/" and the diff of [{}]
    against [{"/": ""}] to one [add] at "/~1". *)
Theorem pointer_escaping :
  (forall path,
     pointer path = String.concat "" (map (fun s => ("/" ++ escape s)%string) path)) /\
  (forall c, escape (String c EmptyString) =
             if Ascii.eqb c "~" then "~0" else if Ascii.eqb c "/" then "~1"
             else String c EmptyString) /\
  (forall s1 s2, escape (s1 ++ s2) = (escape s1 ++ escape s2)%string) /\
  (exists differ patch,
     go 2 no_thunks record_string_string = Some differ /\
     differ (VObject 1 []) (VObject 2 [(KString "", VString "")]) = Ok patch /\
     getJSONPatch (op patch) = Right [op_add "/" (VString "")]) /\
  (exists differ patch,
     go 2 no_thunks record_string_string = Some differ /\
     differ (VObject 1 []) (VObject 2 [(KString "/", VString "")]) = Ok patch /\
     getJSONPatch (op patch) = Right [op_add "/~1" (VString "")]).
Proof.
  split; [exact pointer_escape|].
  split.
  { intros c. cbn [escape]. unfold escape_char.
    destruct (Ascii.eqb c "~"); [reflexivity|].
    destruct (Ascii.eqb c "/"); reflexivity. }
  split.
  { intros s1 s2. induction s1 as [|c s1 IH]; [reflexivity|].
    cbn [String.append escape]. rewrite IH.
    unfold escape_char.
    destruct (Ascii.eqb c "~"); [reflexivity|].
    destruct (Ascii.eqb c "/"); reflexivity. }
  split; eexists; eexists; (split; [reflexivity|]; split; [reflexivity|]; reflexivity).
Qed.

(** ** Lowering to JSON Patch *)

(** Induction on op trees, with the hypothesis available for every entry
    of a node. *)
Lemma Op_tree_ind (P : Op -> Prop) :
  P Identical ->
  (forall from to, P (Replace from to)) ->
  (forall ops, Forall (fun entry => P (snd entry)) ops -> P (ObjectOps ops)) ->
  (forall ops, Forall (fun entry => P (snd entry)) ops -> P (ArrayOps ops)) ->
  (forall value, P (Add value)) ->
  (forall value, P (Remove value)) ->
  forall op, P op.
Proof.
  intros HI HR HO HA HAdd HRem.
  fix IH 1. intros [|from to|ops|ops|value|value].
  - exact HI.
  - apply HR.
  - apply HO. induction ops as [|[k o] ops IHops]; constructor; [apply IH | exact IHops].
  - apply HA. induction ops as [|[k o] ops IHops]; constructor; [apply IH | exact IHops].
  - apply HAdd.
  - apply HRem.
Qed.

Lemma removelast_push {A : Type} (l : list A) (x : A) : removelast (push l x) = l.
Proof. unfold push. apply removelast_last. Qed.

Lemma path_pop_push st s : path_pop (path_push st s) = st.
Proof.
  destruct st as [o p]. unfold path_pop, path_push. simpl.
  rewrite removelast_push. reflexivity.
Qed.

Lemma lower_entry_spec op :
  forall st,
    (lowerable_entry op = true -> lower_entry op st = Ok (lowered_state st op)) /\
    (lowerable_entry op = false ->
       exists e, lower_entry op st = Throw e /\ is_validation_failure e).
Proof.
  induction op as [|from to|ops IH|ops IH|value|value] using Op_tree_ind; intros st.
  - split; [intros _ | discriminate].
    unfold lowered_state. simpl. rewrite app_nil_r. destruct st; reflexivity.
  - cbn [lowerable_entry lower_entry]. unfold lower_replace, validateJson.
    split; intros H; rewrite H; cbn [bind].
    + unfold lowered_state, out_push, push. cbn [entries_of out path].
      rewrite pointer_escape. reflexivity.
    + eexists. split; [reflexivity | exact H].
  - cbn [lowerable_entry lower_entry].
    revert st. induction IH as [|[key o] ops Ho _ IHops]; intros st.
    + split; [intros _ | discriminate].
      unfold lowered_state. simpl. rewrite app_nil_r. destruct st; reflexivity.
    + destruct key as [s|d]; cbn [validateString bind].
      * destruct (Ho (path_push st s)) as [Hok Hko]. cbn [snd] in Hok, Hko.
        destruct (lowerable_entry o) eqn:Eo; cbn [andb].
        -- rewrite (Hok eq_refl). cbn [bind].
           destruct (IHops (path_pop (lowered_state (path_push st s) o))) as [Hok' Hko'].
           split; intros H.
           ++ rewrite (Hok' H).
              unfold lowered_state, path_pop, path_push, push. cbn [out path entries_of].
              rewrite removelast_last, app_assoc. reflexivity.
           ++ exact (Hko' H).
        -- split; [discriminate | intros _].
           destruct (Hko eq_refl) as (e & -> & He). exists e. split; [reflexivity | exact He].
      * split; [discriminate | intros _].
        eexists. split; [reflexivity | exact I].
  - cbn [lowerable_entry lower_entry].
    revert st. induction IH as [|[key o] ops Ho _ IHops]; intros st.
    + split; [intros _ | discriminate].
      unfold lowered_state. simpl. rewrite app_nil_r. destruct st; reflexivity.
    + destruct (Ho (path_push st (String_of_index key))) as [Hok Hko]. cbn [snd] in Hok, Hko.
      destruct (lowerable_entry o) eqn:Eo; cbn [andb].
      * rewrite (Hok eq_refl). cbn [bind].
        destruct (IHops (path_pop (lowered_state (path_push st (String_of_index key)) o)))
          as [Hok' Hko'].
        split; intros H.
        -- rewrite (Hok' H).
           unfold lowered_state, path_pop, path_push, push. cbn [out path entries_of].
           rewrite removelast_last, app_assoc. reflexivity.
        -- exact (Hko' H).
      * split; [discriminate | intros _].
        destruct (Hko eq_refl) as (e & -> & He). exists e. split; [reflexivity | exact He].
  - cbn [lowerable_entry lower_entry]. unfold lower_add, validateJson.
    split; intros H; rewrite H; cbn [bind].
    + unfold lowered_state, out_push, push. cbn [entries_of out path].
      rewrite pointer_escape. reflexivity.
    + eexists. split; [reflexivity | exact H].
  - split; [intros _ | discriminate].
    cbn [lower_entry]. unfold lower_remove, lowered_state, out_push, push.
    cbn [entries_of out path]. rewrite pointer_escape. reflexivity.
Qed.

(** C8: the lowering is all or nothing.  When a key to be placed on the
    path is not a string, or a value to be emitted by an [add] or a
    [replace] is not JSON, [getJSONPatch] returns an error (one of the two
    validation failures) and no document; otherwise it returns the whole
    document, every entry of the tree in depth-first order. *)
Theorem getJSONPatch_all_or_nothing :
  forall op,
    match getJSONPatch op with
    | Right document => lowerable op = true /\ document = patch_document op
    | Left e => lowerable op = false /\ is_validation_failure e
    end.
Proof.
  intros op. unfold getJSONPatch, liftThrowable.
  set (st := {| out := []; path := [] |}).
  destruct op as [|from to|ops|ops|value|value];
    try (cbn; split; reflexivity).
  - destruct (lower_entry_spec (Replace from to) st) as [Hok Hko].
    cbn [lower_entry] in Hok, Hko.
    destruct (lowerable_entry (Replace from to)) eqn:E.
    + rewrite (Hok eq_refl). cbn. split; [exact E | reflexivity].
    + destruct (Hko eq_refl) as (e & -> & He). cbn. split; [exact E | exact He].
  - destruct (lower_entry_spec (ObjectOps ops) st) as [Hok Hko].
    destruct (lowerable_entry (ObjectOps ops)) eqn:E.
    + rewrite (Hok eq_refl). cbn [bind]. split; [exact E | reflexivity].
    + destruct (Hko eq_refl) as (e & -> & He). cbn [bind]. split; [exact E | exact He].
  - destruct (lower_entry_spec (ArrayOps ops) st) as [Hok Hko].
    destruct (lowerable_entry (ArrayOps ops)) eqn:E.
    + rewrite (Hok eq_refl). cbn [bind]. split; [exact E | reflexivity].
    + destruct (Hko eq_refl) as (e & -> & He). cbn [bind]. split; [exact E | exact He].
Qed.

(** ** The record algorithm *)

Lemma hasOwnProperty_object r props name :
  hasOwnProperty (VObject r props) name =
  Ok (match assoc name props with Some _ => true | None => false end).
Proof. reflexivity. Qed.

Lemma get_object r props name :
  get (VObject r props) name =
  Ok (match assoc name props with Some v => v | None => VUndefined end).
Proof. reflexivity. Qed.

(** The loop over the property signatures computes the entries of the
    declared fields, appended to the entries already there. *)
Lemma handle_property_signatures_spec r1 from r2 to fields :
  forall ops,
    handle_property_signatures fields (VObject r1 from) (VObject r2 to) ops =
    (es <- field_entries fields from to ;; Ok (ops ++ es)).
Proof.
  induction fields as [|[name differ] fields IH]; intros ops.
  - simpl. rewrite app_nil_r. reflexivity.
  - cbn [handle_property_signatures field_entries].
    rewrite !hasOwnProperty_object, !get_object. unfold field_entry.
    destruct (assoc name from) as [f|], (assoc name to) as [t|]; cbn [bind].
    + destruct (differ f t) as [p|e]; cbn [bind]; [|reflexivity].
      rewrite IH. destruct (isIdentical (op p)); cbn [negb];
        destruct (field_entries fields from to) as [es|e]; cbn [bind]; try reflexivity.
      unfold push. rewrite <- app_assoc. reflexivity.
    + rewrite IH. destruct (field_entries fields from to) as [es|e]; cbn [bind]; try reflexivity.
      unfold push, remove. rewrite <- app_assoc. reflexivity.
    + rewrite IH. destruct (field_entries fields from to) as [es|e]; cbn [bind]; try reflexivity.
      unfold push, add. rewrite <- app_assoc. reflexivity.
    + rewrite IH. destruct (field_entries fields from to) as [es|e]; cbn [bind]; reflexivity.
Qed.

(** The loops over the index signatures only append entries. *)
Lemma handle_from_keys_extends differ expectedKeys from to fromKeys :
  forall ops ops',
    handle_from_keys differ expectedKeys fromKeys from to ops = Ok ops' ->
    exists more, ops' = ops ++ more.
Proof.
  induction fromKeys as [|name rest IH]; intros ops ops' H; cbn [handle_from_keys] in H.
  - injection H as <-. exists []. rewrite app_nil_r. reflexivity.
  - destruct (isExpectedKey expectedKeys name); [exact (IH _ _ H)|].
    destruct (hasOwnProperty to name) as [[|]|e]; cbn [bind] in H; try discriminate H.
    + destruct (get from name) as [f|e]; cbn [bind] in H; try discriminate H.
      destruct (get to name) as [t|e]; cbn [bind] in H; try discriminate H.
      destruct (differ f t) as [p|e]; cbn [bind] in H; try discriminate H.
      destruct (isIdentical (op p)); cbn [negb] in H.
      * exact (IH _ _ H).
      * destruct (IH _ _ H) as [more ->]. unfold push. rewrite <- app_assoc. eauto.
    + destruct (get from name) as [f|e]; cbn [bind] in H; try discriminate H.
      destruct (IH _ _ H) as [more ->]. unfold push. rewrite <- app_assoc. eauto.
Qed.

Lemma handle_to_keys_extends expectedKeys from to toKeys :
  forall ops ops',
    handle_to_keys expectedKeys toKeys from to ops = Ok ops' ->
    exists more, ops' = ops ++ more.
Proof.
  induction toKeys as [|name rest IH]; intros ops ops' H; cbn [handle_to_keys] in H.
  - injection H as <-. exists []. rewrite app_nil_r. reflexivity.
  - destruct (isExpectedKey expectedKeys name); [exact (IH _ _ H)|].
    destruct (hasOwnProperty from name) as [[|]|e]; cbn [bind negb] in H; try discriminate H.
    + exact (IH _ _ H).
    + destruct (get to name) as [t|e]; cbn [bind] in H; try discriminate H.
      destruct (IH _ _ H) as [more ->]. unfold push. rewrite <- app_assoc. eauto.
Qed.

Lemma handle_index_signatures_extends expectedKeys from to indexSignatures :
  forall ops ops',
    handle_index_signatures indexSignatures expectedKeys from to ops = Ok ops' ->
    exists more, ops' = ops ++ more.
Proof.
  induction indexSignatures as [|[parameter differ] rest IH]; intros ops ops' H;
    cbn [handle_index_signatures] in H.
  - injection H as <-. exists []. rewrite app_nil_r. reflexivity.
  - destruct (getKeysForIndexSignature from parameter) as [fromKeys|e];
      cbn [bind] in H; try discriminate H.
    destruct (handle_from_keys differ expectedKeys fromKeys from to ops) as [ops1|e] eqn:E1;
      cbn [bind] in H; try discriminate H.
    destruct (getKeysForIndexSignature to parameter) as [toKeys|e];
      cbn [bind] in H; try discriminate H.
    destruct (handle_to_keys expectedKeys toKeys from to ops1) as [ops2|e] eqn:E2;
      cbn [bind] in H; try discriminate H.
    apply handle_from_keys_extends in E1. destruct E1 as [m1 ->].
    apply handle_to_keys_extends in E2. destruct E2 as [m2 ->].
    destruct (IH _ _ H) as [m3 ->].
    exists (m1 ++ m2 ++ m3). rewrite <- !app_assoc. reflexivity.
Qed.

(** The add/remove scenario: over a record keyed by strings, [{}] against
    [{a: "v"}] is one addition; its reversal is one removal, and applying
    the reversal to [{a: "v"}] gives back an object without properties. *)
Example add_remove_scenario :
  exists differ patch,
    go 2 no_thunks record_string_string = Some differ /\
    differ (VObject 1 []) (VObject 2 [(KString "a", VString "v")]) = Ok patch /\
    op patch = ObjectOps [(KString "a", Add (VString "v"))] /\
    op (reverse patch) = ObjectOps [(KString "a", Remove (VString "v"))] /\
    runPatch (reverse patch) (VObject 2 [(KString "a", VString "v")]) 3 = Ok (VObject 3 [], 4) /\
    runPatch patch (VObject 1 []) 3 = Ok (VObject 3 [(KString "a", VString "v")], 4).
Proof.
  eexists. eexists. split; [reflexivity|]. split; [reflexivity|]. repeat split.
Qed.

(** ** The tuple algorithm *)

Lemma traverse_Forall2 {A B : Type} (f : A -> option B) l :
  forall l', traverse f l = Some l' -> Forall2 (fun x y => f x = Some y) l l'.
Proof.
  induction l as [|x l IH]; intros l' H; cbn [traverse] in H.
  - injection H as <-. constructor.
  - destruct (f x) as [y|] eqn:Ey; [|discriminate H].
    destruct (traverse f l) as [ys|]; [|discriminate H].
    injection H as <-. constructor; [exact Ey | apply IH; reflexivity].
Qed.

Lemma positional_ObjectOps ops :
  positional (ObjectOps ops) = true <->
  Forall (fun entry => positional (snd entry) = true) ops.
Proof.
  cbn [positional]. induction ops as [|[k o] ops IH].
  - split; [constructor | reflexivity].
  - rewrite andb_true_iff, IH. split.
    + intros [H1 H2]. constructor; assumption.
    + intros H. inversion H; subst. split; assumption.
Qed.

Lemma positional_ArrayOps ops :
  positional (ArrayOps ops) = true <->
  Forall (fun entry => positional_root (snd entry)) ops.
Proof.
  cbn [positional]. unfold positional_root. induction ops as [|[k o] ops IH].
  - split; [constructor | reflexivity].
  - rewrite !andb_true_iff, negb_true_iff, IH. cbn [snd]. split.
    + intros [[H1 H2] H3]. constructor; [split|]; assumption.
    + intros H. inversion H as [|? ? [H1 H2] H3]; subst. repeat split; assumption.
Qed.

(** The loop over the elements compares position by position. *)
Lemma handle_elements_spec r1 from r2 to elements :
  forall i ops,
    handle_elements elements i (VArray r1 from) (VArray r2 to) ops =
    (es <- element_entries elements i from to ;; Ok (ops ++ es)).
Proof.
  induction elements as [|differ elements IH]; intros i ops.
  - simpl. rewrite app_nil_r. reflexivity.
  - cbn [handle_elements element_entries get_index bind].
    destruct (differ (nth i from VUndefined) (nth i to VUndefined)) as [p|e]; cbn [bind];
      [|reflexivity].
    rewrite IH.
    destruct (element_entries elements (S i) from to) as [es|e]; cbn [bind]; [|reflexivity].
    destruct (isIdentical (op p)); cbn [negb app]; [reflexivity|].
    unfold push. rewrite <- app_assoc. reflexivity.
Qed.

(** Inversion of a successful [bind]: the first computation returned [x]. *)
Tactic Notation "unbind" hyp(H) "as" ident(x) ident(E) :=
match type of H with
| bind ?X _ = Ok _ =>
    let e := fresh "e" in
    destruct X as [x|e] eqn:E; cbn [bind] in H; [|discriminate H]
end.

Ltac pushed :=
unfold push; apply Forall_app; split; [assumption|]; constructor; [|constructor].

(** The loops of a differ push entries of two kinds: an [Add] or a
  [Remove], or the op of a component differ when that op is not
  [Identical].  Whatever property [E] holds of the former and is
  returned by the component differs holds of every entry. *)
Section Entries.
Variable E : Op -> Prop.
Hypothesis E_Add : forall value, E (Add value).
Hypothesis E_Remove : forall value, E (Remove value).

Lemma handle_elements_entries elements from to :
  Forall (returns_entries E) elements ->
  forall i ops ops',
    Forall (fun entry => E (snd entry)) ops -> handle_elements elements i from to ops = Ok ops' -> Forall (fun entry => E (snd entry)) ops'.
Proof.
  induction 1 as [|differ elements Hd _ IH]; intros i ops ops' Hops H;
    cbn [handle_elements] in H.
  - injection H as <-. exact Hops.
  - unbind H as f Ef. unbind H as t Et. unbind H as p Ep.
    eapply IH; [|exact H].
    destruct (isIdentical (op p)) eqn:Eid; cbn [negb]; [exact Hops|].
    pushed. exact (Hd _ _ _ Ep Eid).
Qed.

Lemma handle_property_signatures_entries fields from to :
  Forall (fun field => returns_entries E (snd field)) fields ->
  forall ops ops',
    Forall (fun entry => E (snd entry)) ops ->
    handle_property_signatures fields from to ops = Ok ops' ->
    Forall (fun entry => E (snd entry)) ops'.
Proof.
  induction 1 as [|[name differ] fields Hd _ IH]; intros ops ops' Hops H;
    cbn [handle_property_signatures] in H.
  - injection H as <-. exact Hops.
  - cbn [snd] in Hd. unbind H as hf Ehf. unbind H as ops1 Eops.
    eapply IH; [|exact H]. clear H.
    destruct hf; unbind Eops as ht Eht; destruct ht.
    + unbind Eops as f Ef. unbind Eops as t Et. unbind Eops as p Ep.
      injection Eops as <-.
      destruct (isIdentical (op p)) eqn:Eid; cbn [negb]; [exact Hops|].
      pushed. exact (Hd _ _ _ Ep Eid).
    + unbind Eops as f Ef. injection Eops as <-. pushed. apply E_Remove.
    + unbind Eops as t Et. injection Eops as <-. pushed. apply E_Add.
    + injection Eops as <-. exact Hops.
Qed.

Lemma handle_from_keys_entries differ expectedKeys from to fromKeys :
  returns_entries E differ ->
  forall ops ops',
    Forall (fun entry => E (snd entry)) ops ->
    handle_from_keys differ expectedKeys fromKeys from to ops = Ok ops' ->
    Forall (fun entry => E (snd entry)) ops'.
Proof.
  intros Hd.
  induction fromKeys as [|name rest IH]; intros ops ops' Hops H;
    cbn [handle_from_keys] in H.
  - injection H as <-. exact Hops.
  - destruct (isExpectedKey expectedKeys name); [exact (IH _ _ Hops H)|].
    unbind H as ht Eht. unbind H as ops1 Eops.
    eapply IH; [|exact H]. clear H.
    destruct ht.
    + unbind Eops as f Ef. unbind Eops as t Et. unbind Eops as p Ep.
      injection Eops as <-.
      destruct (isIdentical (op p)) eqn:Eid; cbn [negb]; [exact Hops|].
      pushed. exact (Hd _ _ _ Ep Eid).
    + unbind Eops as f Ef. injection Eops as <-. pushed. apply E_Remove.
Qed.

Lemma handle_to_keys_entries expectedKeys from to toKeys :
  forall ops ops',
    Forall (fun entry => E (snd entry)) ops ->
    handle_to_keys expectedKeys toKeys from to ops = Ok ops' ->
    Forall (fun entry => E (snd entry)) ops'.
Proof.
  induction toKeys as [|name rest IH]; intros ops ops' Hops H;
    cbn [handle_to_keys] in H.
  - injection H as <-. exact Hops.
  - destruct (isExpectedKey expectedKeys name); [exact (IH _ _ Hops H)|].
    unbind H as hf Ehf. unbind H as ops1 Eops.
    eapply IH; [|exact H]. clear H.
    destruct hf; cbn [negb] in Eops.
    + injection Eops as <-. exact Hops.
    + unbind Eops as t Et. injection Eops as <-. pushed. apply E_Add.
Qed.

Lemma handle_index_signatures_entries expectedKeys from to indexSignatures :
  Forall (fun sig => returns_entries E (snd sig)) indexSignatures ->
  forall ops ops',
    Forall (fun entry => E (snd entry)) ops ->
    handle_index_signatures indexSignatures expectedKeys from to ops = Ok ops' ->
    Forall (fun entry => E (snd entry)) ops'.
Proof.
  induction 1 as [|[parameter differ] rest Hd _ IH]; intros ops ops' Hops H;
    cbn [handle_index_signatures] in H.
  - injection H as <-. exact Hops.
  - cbn [snd] in Hd.
    unbind H as fromKeys Efrom. unbind H as ops1 E1.
    unbind H as toKeys Eto. unbind H as ops2 E2.
    eapply IH; [|exact H].
    eapply handle_to_keys_entries; [|exact E2].
    eapply handle_from_keys_entries; [exact Hd | exact Hops | exact E1].
Qed.
End Entries.

Lemma Forall_combine_snd {A B : Type} (P : B -> Prop) (l1 : list A) (l2 : list B) :
  Forall P l2 -> Forall (fun x => P (snd x)) (combine l1 l2).
Proof.
  intros H. revert l1. induction H as [|y l2 Hy _ IH]; intros [|x l1]; cbn [combine];
    constructor; [exact Hy | apply IH].
Qed.

Lemma Forall2_Forall_r {A B : Type} (R : A -> B -> Prop) (P : B -> Prop) l l' :
  (forall x y, R x y -> P y) -> Forall2 R l l' -> Forall P l'.
Proof. intros HR H. induction H; constructor; eauto. Qed.

Lemma leaf_returns_positional (same : Value -> Value -> bool) :
  returns_positional
    (fun from to => Ok (make (if same from to then identical else replace from to))).
Proof.
  intros from to patch H. injection H as <-. cbn [op].
  destruct (same from to); split; reflexivity.
Qed.

(** Every compiled differ returns positional ops. *)
Lemma go_returns_positional fuel thunks :
  forall ast differ, go fuel thunks ast = Some differ -> returns_positional differ.
Proof.
  induction fuel as [|fuel IH]; intros ast differ H; [discriminate H|].
  destruct ast; cbn [go] in H;
    try (injection H as <-; apply leaf_returns_positional).
  - exact (IH _ _ H).
  - destruct (traverse (fun e => go fuel thunks (Element.type e)) elements)
      as [elements'|] eqn:E; [|discriminate H].
    injection H as <-. intros from to patch Hp.
    destruct (handle_elements elements' 0 from to []) as [ops|e] eqn:Eops;
      cbn [bind] in Hp; [|discriminate Hp].
    injection Hp as <-. cbn [op].
    assert (Hall : Forall (fun entry => positional_root (snd entry)) ops).
    { eapply (handle_elements_entries positional_root); [|constructor|exact Eops].
      eapply Forall2_Forall_r; [|exact (traverse_Forall2 _ _ _ E)].
      intros x y Hxy f t p Hp _. exact (IH _ _ Hxy _ _ _ Hp). }
    destruct ops as [|entry ops]; [split; reflexivity|].
    cbn [isNonEmptyReadonlyArray]. unfold arrayOps. split; [|reflexivity].
    apply positional_ArrayOps. exact Hall.
  - destruct (traverse (fun ps => go fuel thunks (PropertySignature.type ps)) propertySignatures)
      as [fields|] eqn:Ef; [|discriminate H].
    destruct (traverse (fun sig => go fuel thunks (IndexSignature.type sig)) indexSignatures)
      as [indexes|] eqn:Ei; [|discriminate H].
    injection H as <-. intros from to patch Hp.
    match type of Hp with
    | bind ?X _ = _ => destruct X as [ops1|e] eqn:E1; cbn [bind] in Hp; [|discriminate Hp]
    end.
    match type of Hp with
    | bind ?X _ = _ => destruct X as [ops2|e] eqn:E2; cbn [bind] in Hp; [|discriminate Hp]
    end.
    injection Hp as <-. cbn [op].
    assert (Hall : Forall (fun entry => positional (snd entry) = true) ops2).
    { eapply (handle_index_signatures_entries (fun op => positional op = true));
        [reflexivity | reflexivity | | |exact E2].
      - apply Forall_combine_snd.
        eapply Forall2_Forall_r; [|exact (traverse_Forall2 _ _ _ Ei)].
        intros x y Hxy f t p Hp _. exact (proj1 (IH _ _ Hxy _ _ _ Hp)).
      - eapply (handle_property_signatures_entries (fun op => positional op = true));
          [reflexivity | reflexivity | |constructor|exact E1].
        apply Forall_combine_snd.
        eapply Forall2_Forall_r; [|exact (traverse_Forall2 _ _ _ Ef)].
        intros x y Hxy f t p Hp _. exact (proj1 (IH _ _ Hxy _ _ _ Hp)). }
    destruct ops2 as [|entry ops2]; [split; reflexivity|].
    cbn [isNonEmptyReadonlyArray]. unfold objectOps. split; [|reflexivity].
    apply positional_ObjectOps. exact Hall.
  - exact (IH _ _ H).
Qed.


Lemma own_property_throws o name e : own_property o name = Throw e -> e = TypeError.
Proof.
  destruct o; cbn [own_property]; try discriminate; try congruence;
    destruct name as [key|key]; try discriminate;
    destruct (String.eqb key "length"); try discriminate;
    destruct (index_of_key key); discriminate.
Qed.

Lemma hasOwnProperty_throws o name e : hasOwnProperty o name = Throw e -> e = TypeError.
Proof.
  unfold hasOwnProperty. destruct (own_property o name) as [p|e'] eqn:E; [discriminate|].
  intros H. injection H as <-. exact (own_property_throws _ _ _ E).
Qed.

Lemma get_index_throws o i e : get_index o i = Throw e -> e = TypeError.
Proof.
  destruct o; cbn [get_index]; try discriminate; unfold get;
    match goal with
    | |- bind (own_property ?o ?k) _ = _ -> _ =>
        destruct (own_property o k) as [p|e'] eqn:E; [discriminate|];
        intros H; injection H as <-; exact (own_property_throws _ _ _ E)
    end.
Qed.

Lemma go_throws_on_null_or_undefined thunks fuel ast differ from to :
  go fuel thunks ast = Some differ ->
  (exists e elements rest, ast = Tuple (e :: elements) rest) \/
  (exists ps propertySignatures indexSignatures,
     ast = TypeLiteral (ps :: propertySignatures) indexSignatures) ->
  from = VUndefined \/ from = VNull \/ to = VUndefined \/ to = VNull ->
  differ from to = Throw TypeError.
Proof.
  intros Hgo Hast Hnull. destruct fuel as [|fuel]; [discriminate Hgo|].
  destruct Hast as [(e & elements & rest & ->)|(ps & pss & iss & ->)]; cbn [go] in Hgo.
  - destruct (traverse (fun e => go fuel thunks (Element.type e)) (e :: elements))
      as [differs|] eqn:E; [|discriminate Hgo].
    injection Hgo as <-. cbn [traverse] in E.
    destruct (go fuel thunks (Element.type e)) as [d|]; [|discriminate E].
    destruct (traverse (fun e => go fuel thunks (Element.type e)) elements) as [ds|];
      [|discriminate E].
    injection E as <-. cbn [handle_elements].
    destruct (get_index from 0) as [f|err] eqn:Ef.
    + cbn [bind]. destruct Hnull as [->|[->|[->| ->]]]; try discriminate Ef; reflexivity.
    + rewrite (get_index_throws _ _ _ Ef). reflexivity.
  - destruct (traverse (fun ps => go fuel thunks (PropertySignature.type ps)) (ps :: pss))
      as [differs|] eqn:E; [|discriminate Hgo].
    destruct (traverse (fun sig => go fuel thunks (IndexSignature.type sig)) iss)
      as [differs'|]; [|discriminate Hgo].
    injection Hgo as <-. cbn [traverse] in E.
    destruct (go fuel thunks (PropertySignature.type ps)) as [d|]; [|discriminate E].
    destruct (traverse (fun ps => go fuel thunks (PropertySignature.type ps)) pss) as [ds|];
      [|discriminate E].
    injection E as <-. cbn [map combine handle_property_signatures].
    destruct (hasOwnProperty from (PropertySignature.name ps)) as [hf|err] eqn:Ef.
    + cbn [bind].
      destruct Hnull as [->|[->|[->| ->]]]; try discriminate Ef; destruct hf; reflexivity.
    + rewrite (hasOwnProperty_throws _ _ _ Ef). reflexivity.
Qed.






(** ** The entries of an array patch *)

Lemma run_array_entries_steps a ops :
  forall out next,
    run_array_entries a ops out next =
    ('(steps, next') <- array_steps a ops next ;;
     Ok (in_list_order steps out, next')).
Proof.
  induction ops as [|[index subop] ops IH]; intros out next; [reflexivity|].
  assert (Hnested :
            (v <- get_index a index ;;
             '(r, next1) <- runOp subop v next ;;
             run_array_entries a ops (array_set out index r) next1) =
            ('(steps, next') <-
               (v <- get_index a index ;;
                '(r, next1) <- runOp subop v next ;;
                '(steps, next') <- array_steps a ops next1 ;;
                Ok ((index, Assign r) :: steps, next')) ;;
             Ok (in_list_order steps out, next'))).
  { destruct (get_index a index) as [v|e]; cbn [bind]; [|reflexivity].
    destruct (runOp subop v next) as [[r next1]|e]; cbn [bind]; [|reflexivity].
    rewrite IH.
    destruct (array_steps a ops next1) as [[steps next']|e]; reflexivity. }
  destruct subop as [|from to|entries|entries|value|value].
  - exact (IH out next).
  - exact Hnested.
  - exact Hnested.
  - exact Hnested.
  - change (run_array_entries a ops (splice_insert out index value) next =
            ('(steps, next') <-
               ('(steps, next') <- array_steps a ops next ;;
                Ok ((index, Insert value) :: steps, next')) ;;
             Ok (in_list_order steps out, next'))).
    rewrite IH. destruct (array_steps a ops next) as [[steps next']|e]; reflexivity.
  - change (run_array_entries a ops (splice_delete out index) next =
            ('(steps, next') <-
               ('(steps, next') <- array_steps a ops next ;;
                Ok ((index, Delete) :: steps, next')) ;;
             Ok (in_list_order steps out, next'))).
    rewrite IH. destruct (array_steps a ops next) as [[steps next']|e]; reflexivity.
Qed.

Lemma step_at_below steps j :
  Forall (fun entry : nat * Step => fst entry < j) steps ->
  forall k, j <= k -> step_at steps k = None.
Proof.
  induction 1 as [|[i s] steps Hi _ IH]; intros k Hk; [reflexivity|].
  cbn [step_at]. cbn [fst] in Hi.
  destruct (Nat.eqb_spec i k); [lia | apply IH; exact Hk].
Qed.

Lemma at_diff_time_untouched steps items :
  forall j, (forall k, j <= k -> step_at steps k = None) -> at_diff_time steps j items = items.
Proof.
  induction items as [|x items IH]; intros j H; cbn [at_diff_time];
    rewrite (H j (le_n j)); [reflexivity|].
  rewrite IH; [reflexivity|]. intros k Hk. apply H. lia.
Qed.

Lemma in_range_spec n i s :
  in_range n (i, s) = true <->
  match s with Assign _ => i < n | _ => i <= n end.
Proof.
  unfold in_range. cbn [fst snd].
  destruct s; [apply Nat.leb_le | apply Nat.leb_le | apply Nat.ltb_lt].
Qed.

(** The step of greatest index can be applied first: the others address
    positions before it, which it leaves in place. *)
Lemma at_diff_time_head rest s :
  forall i items j,
    in_range (List.length items) (i, s) = true ->
    Forall (fun entry : nat * Step => fst entry < j + i) rest ->
    at_diff_time ((j + i, s) :: rest) j items =
    at_diff_time rest j (apply_step items (i, s)).
Proof.
  induction i as [|i IH]; intros items j Hin Hrest; apply in_range_spec in Hin.
  - rewrite Nat.add_0_r in *.
    assert (Hnone : forall k, j <= k -> step_at rest k = None)
      by (apply step_at_below; exact Hrest).
    assert (Hafter : forall k, S j <= k -> step_at ((j, s) :: rest) k = None).
    { intros k Hk. cbn [step_at]. destruct (Nat.eqb_spec j k); [lia|]. apply Hnone. lia. }
    rewrite (@at_diff_time_untouched rest _ j Hnone).
    unfold apply_step, splice_insert, splice_delete. cbn [fst snd].
    destruct items as [|x items]; cbn [at_diff_time step_at];
      rewrite Nat.eqb_refl; destruct s; cbn [firstn skipn app array_set List.length] in *;
      try reflexivity; try lia;
      rewrite (@at_diff_time_untouched _ _ (S j) Hafter); reflexivity.
  - destruct items as [|x items]; [destruct s; cbn [List.length] in Hin; lia|].
    cbn [List.length] in Hin.
    assert (Hstep : apply_step (x :: items) (S i, s) = x :: apply_step items (i, s)).
    { unfold apply_step, splice_insert, splice_delete. cbn [fst snd].
      destruct s; reflexivity. }
    rewrite Hstep. cbn [at_diff_time step_at].
    destruct (Nat.eqb_spec (j + S i) j); [lia|].
    replace (j + S i) with (S j + i) by lia.
    rewrite (IH items (S j)); [reflexivity | |].
    + apply in_range_spec. destruct s; lia.
    + eapply Forall_impl; [|exact Hrest]. intros e He. cbn beta in *. lia.
Qed.

Lemma descending_below {A : Type} i (o : A) rest :
  descending ((i, o) :: rest) = true ->
  Forall (fun entry => fst entry < i) rest /\ descending rest = true.
Proof.
  revert i o. induction rest as [|[i' o'] rest IH]; intros i o H.
  - split; [constructor | reflexivity].
  - change (descending ((i, o) :: (i', o') :: rest))
      with (Nat.ltb i' i && descending ((i', o') :: rest)) in H.
    apply andb_true_iff in H. destruct H as [Hlt Hd].
    apply Nat.ltb_lt in Hlt. split; [|exact Hd].
    constructor; [exact Hlt|].
    destruct (IH _ _ Hd) as [Hall _].
    eapply Forall_impl; [|exact Hall]. intros e He. cbn beta in *. lia.
Qed.

Lemma array_set_length out i v : i < List.length (array_set out i v).
Proof.
  revert i. induction out as [|x out IH]; intros i.
  - induction i as [|i IHi]; cbn [array_set List.length]; lia.
  - destruct i as [|i]; cbn [array_set List.length]; [lia|].
    specialize (IH i). lia.
Qed.

Lemma apply_step_length items i s :
  in_range (List.length items) (i, s) = true ->
  i <= List.length (apply_step items (i, s)).
Proof.
  intros Hin. apply in_range_spec in Hin.
  unfold apply_step, splice_insert, splice_delete. cbn [fst snd].
  destruct s.
  - rewrite length_app. cbn [List.length]. rewrite length_firstn, length_skipn. lia.
  - rewrite length_app, length_firstn, length_skipn. lia.
  - pose proof (array_set_length items i result). lia.
Qed.

(** Applied in strictly descending order of index, the steps address the
    array as it was before the patch. *)
Lemma in_list_order_descending steps :
  forall items,
    descending steps = true ->
    forallb (in_range (List.length items)) steps = true ->
    in_list_order steps items = at_diff_time steps 0 items.
Proof.
  unfold in_list_order.
  induction steps as [|[i s] rest IH]; intros items Hd Hb.
  - cbn [fold_left]. symmetry. apply at_diff_time_untouched. reflexivity.
  - cbn [fold_left].
    cbn [forallb] in Hb. apply andb_true_iff in Hb. destruct Hb as [Hi Hb].
    destruct (descending_below _ _ _ Hd) as [Hlt Hd'].
    pose proof (@at_diff_time_head rest s i items 0 Hi Hlt) as Hhead.
    cbn [Nat.add] in Hhead. rewrite Hhead.
    apply IH; [exact Hd'|].
    pose proof (apply_step_length items i s Hi) as Hlen.
    apply forallb_forall. intros [i' s'] Hin.
    rewrite Forall_forall in Hlt. specialize (Hlt _ Hin). cbn [fst] in Hlt.
    apply in_range_spec. destruct s'; lia.
Qed.

(** C3, as the code has it: [runOp] applies the entries of an [ArrayOps]
    node in the order of the list.  Each entry acts on the copy as the
    earlier entries left it, at the index it carries, a nested op reading
    its input from the original array; nothing is sorted and no index is
    renumbered.  When the entries other than [Identical] are listed by
    strictly descending index and every index is in range, every index
    addresses the array as it was at diff time. *)
Theorem array_patch_applied_in_list_order :
  forall ops r items next,
    runOp (ArrayOps ops) (VArray r items) next =
      ('(steps, next') <- array_steps (VArray r items) ops (S next) ;;
       Ok (VArray next (in_list_order steps items), next')) /\
    (forall steps next',
       array_steps (VArray r items) ops (S next) = Ok (steps, next') ->
       descending steps = true ->
       forallb (in_range (List.length items)) steps = true ->
       runOp (ArrayOps ops) (VArray r items) next =
         Ok (VArray next (at_diff_time steps 0 items), next')).
Proof.
  intros ops r items next.
  assert (Hrun : runOp (ArrayOps ops) (VArray r items) next =
                 ('(steps, next') <- array_steps (VArray r items) ops (S next) ;;
                  Ok (VArray next (in_list_order steps items), next'))).
  { change (runOp (ArrayOps ops) (VArray r items) next)
      with ('(out, next') <- run_array_entries (VArray r items) ops items (S next) ;;
            Ok (VArray next out, next')).
    rewrite run_array_entries_steps.
    destruct (array_steps (VArray r items) ops (S next)) as [[steps next']|e]; reflexivity. }
  split; [exact Hrun|].
  intros steps next' Hsteps Hd Hb. rewrite Hrun, Hsteps. cbn [bind].
  rewrite (in_list_order_descending _ _ Hd Hb). reflexivity.
Qed.

(** The theorem at a nested op, a removal and an insertion listed from
    the end: on [["a", "b", "c"]], position 2 is replaced, position 1 is
    removed and ["q"] comes in at position 0. *)
Lemma array_patch_applied_in_list_order_witness :
  runOp (ArrayOps [(2, Replace (VString "c") (VString "z"));
                   (1, Remove (VString "b"));
                   (0, Add (VString "q"))])
        (VArray 1 [VString "a"; VString "b"; VString "c"]) 2 =
  Ok (VArray 2 [VString "q"; VString "a"; VString "z"], 3).
Proof.
  exact (proj2 (array_patch_applied_in_list_order
                  [(2, Replace (VString "c") (VString "z"));
                   (1, Remove (VString "b"));
                   (0, Add (VString "q"))] 1
                  [VString "a"; VString "b"; VString "c"] 2)
               [(2, Assign (VString "z")); (1, Delete); (0, Insert (VString "q"))] 3
               eq_refl eq_refl eq_refl).
Defined.

(** C3 as stated does not hold: listed by ascending index, the two
    removals of positions 0 and 1 of [["a", "b", "c"]] leave ["b"], where
    the positions captured at diff time, and the application in
    descending order, leave ["c"]. *)
Lemma array_patch_index_drift :
  ~ (forall ops r items next steps next',
       forallb is_insert_or_removal ops = true ->
       array_steps (VArray r items) ops (S next) = Ok (steps, next') ->
       forallb (in_range (List.length items)) steps = true ->
       runOp (ArrayOps ops) (VArray r items) next =
         runOp (ArrayOps (sort_descending ops)) (VArray r items) next /\
       runOp (ArrayOps ops) (VArray r items) next =
         Ok (VArray next (at_diff_time steps 0 items), next')).
Proof.
  intros H.
  destruct (H [(0, Remove (VString "a")); (1, Remove (VString "b"))] 1
              [VString "a"; VString "b"; VString "c"] 2 _ _ eq_refl eq_refl eq_refl)
    as [H1 H2].
  discriminate H1.
Qed.

(** ** Property tables *)

Lemma runOp_ObjectOps ops a next :
  runOp (ObjectOps ops) a next =
  ('(out, next') <- run_object_entries a ops (plain (spread a)) (S next) ;;
   Ok (VObject next (properties out), next')).
Proof. reflexivity. Qed.

Lemma runOp_ArrayOps ops r items next :
  runOp (ArrayOps ops) (VArray r items) next =
  ('(out, next') <- run_array_entries (VArray r items) ops items (S next) ;;
   Ok (VArray next out, next')).
Proof. reflexivity. Qed.

Lemma assoc_define_property out name v k :
  assoc k (define_property out name v) =
  if PropertyKey_eqb k name then Some v else assoc k out.
Proof.
  induction out as [|[k' w] out IH]; cbn [define_property assoc].
  - destruct (PropertyKey_eqb k name); reflexivity.
  - destruct (PropertyKey_eqb_spec name k') as [->|Hne]; cbn [assoc].
    + destruct (PropertyKey_eqb k k'); reflexivity.
    + rewrite IH. destruct (PropertyKey_eqb_spec k k') as [->|Hne'];
        [|reflexivity].
      destruct (PropertyKey_eqb_spec k' name) as [->|_]; [contradiction Hne|]; reflexivity.
Qed.

Lemma assoc_delete_property out name k :
  assoc k (delete_property out name) =
  if PropertyKey_eqb k name then None else assoc k out.
Proof.
  induction out as [|[k' w] out IH]; cbn [delete_property assoc].
  - destruct (PropertyKey_eqb k name); reflexivity.
  - destruct (PropertyKey_eqb_spec name k') as [->|Hne]; cbn [assoc].
    + rewrite IH. destruct (PropertyKey_eqb k k'); reflexivity.
    + rewrite IH. destruct (PropertyKey_eqb_spec k k') as [->|Hne'];
        [|reflexivity].
      destruct (PropertyKey_eqb_spec k' name) as [->|_]; [contradiction Hne|]; reflexivity.
Qed.

Lemma assoc_In {A : Type} k (l : list (PropertyKey * A)) v :
  assoc k l = Some v -> In (k, v) l.
Proof.
  induction l as [|[k' w] l IH]; cbn [assoc]; [discriminate|].
  destruct (PropertyKey_eqb_spec k k') as [->|_].
  - intros H. injection H as <-. left. reflexivity.
  - intros H. right. exact (IH H).
Qed.

Lemma assoc_None {A : Type} k (l : list (PropertyKey * A)) :
  assoc k l = None <-> ~ In k (map fst l).
Proof.
  induction l as [|[k' w] l IH]; cbn [assoc map fst In].
  - split; [intros _ []| reflexivity].
  - destruct (PropertyKey_eqb_spec k k') as [->|Hne].
    + split; [discriminate | intros H; contradiction H; left; reflexivity].
    + rewrite IH. split.
      * intros H [Heq|Hin]; [congruence | contradiction].
      * intros H Hin. apply H. right. exact Hin.
Qed.

Lemma In_assoc {A : Type} k (l : list (PropertyKey * A)) v :
  NoDup (map fst l) -> In (k, v) l -> assoc k l = Some v.
Proof.
  induction l as [|[k' w] l IH]; cbn [assoc map fst]; intros Hnd Hin; [contradiction Hin|].
  inversion Hnd as [|? ? Hnot Hnd']; subst.
  destruct Hin as [Heq|Hin].
  - injection Heq as -> ->. rewrite PropertyKey_eqb_refl. reflexivity.
  - destruct (PropertyKey_eqb_spec k k') as [->|_]; [|exact (IH Hnd' Hin)].
    contradiction Hnot. apply (in_map fst) in Hin. exact Hin.
Qed.

Lemma In_keys_assoc {A : Type} k (l : list (PropertyKey * A)) :
  In k (map fst l) <-> exists v, assoc k l = Some v.
Proof.
  destruct (assoc k l) as [v|] eqn:E.
  - split; [eauto|]. intros _. apply assoc_In in E. apply (in_map fst) in E. exact E.
  - split; [|intros [v Hv]; discriminate Hv].
    intros H. apply assoc_None in E. contradiction.
Qed.

Lemma NoDup_define_property out name v :
  NoDup (map fst out) -> NoDup (map fst (define_property out name v)).
Proof.
  induction out as [|[k w] out IH]; cbn [define_property map fst]; intros H.
  - constructor; [intros [] | constructor].
  - inversion H as [|? ? Hnot Hnd]; subst.
    destruct (PropertyKey_eqb_spec name k) as [->|Hne]; cbn [map fst].
    + constructor; assumption.
    + constructor; [|exact (IH Hnd)].
      intros Hin. apply In_keys_assoc in Hin. destruct Hin as [x Hx].
      rewrite assoc_define_property in Hx.
      destruct (PropertyKey_eqb_spec k name) as [->|_]; [contradiction Hne; reflexivity|].
      apply Hnot. apply In_keys_assoc. eauto.
Qed.

Lemma NoDup_delete_property out name :
  NoDup (map fst out) -> NoDup (map fst (delete_property out name)).
Proof.
  induction out as [|[k w] out IH]; cbn [delete_property map fst]; intros H;
    [constructor|].
  inversion H as [|? ? Hnot Hnd]; subst.
  destruct (PropertyKey_eqb_spec name k) as [->|Hne]; cbn [map fst]; [exact (IH Hnd)|].
  constructor; [|exact (IH Hnd)].
  intros Hin. apply In_keys_assoc in Hin. destruct Hin as [x Hx].
  rewrite assoc_delete_property in Hx.
  destruct (PropertyKey_eqb k name); [discriminate Hx|].
  apply Hnot. apply In_keys_assoc. eauto.
Qed.

(** Two objects whose keys are distinct and which agree on every key are
    structurally equal. *)
Lemma equals_objects r1 p1 r2 p2 :
  NoDup (map fst p1) -> NoDup (map fst p2) ->
  (forall k, agree (assoc k p1) (assoc k p2)) ->
  equals (VObject r1 p1) (VObject r2 p2) = true.
Proof.
  intros Hnd1 Hnd2 Hag. cbn [equals]. apply andb_true_iff. split.
  - apply Nat.eqb_eq. rewrite <- (length_map fst p1), <- (length_map fst p2).
    apply Nat.le_antisymm; apply NoDup_incl_length; try assumption;
      intros k Hk; apply In_keys_assoc in Hk; destruct Hk as [v Hv];
      apply In_keys_assoc; specialize (Hag k); rewrite Hv in Hag; unfold agree in Hag.
    + destruct (assoc k p2) as [w|]; [eauto | contradiction].
    + destruct (assoc k p1) as [w|]; [eauto | contradiction].
  - assert (Hall : forall l, incl l p1 ->
              (fix all (l : list (PropertyKey * Value)) : bool :=
                 match l with
                 | [] => true
                 | (k, v) :: l' =>
                     match assoc k p2 with
                     | Some w => equals v w && all l'
                     | None => false
                     end
                 end) l = true).
    { induction l as [|[k v] l IH]; intros Hincl; [reflexivity|].
      assert (Hin : In (k, v) p1) by (apply Hincl; left; reflexivity).
      pose proof (In_assoc k p1 v Hnd1 Hin) as Hk.
      specialize (Hag k). rewrite Hk in Hag. unfold agree in Hag.
      destruct (assoc k p2) as [w|]; [|contradiction].
      rewrite Hag. cbn [andb]. apply IH. intros x Hx. apply Hincl. right. exact Hx. }
    apply Hall. apply incl_refl.
Qed.

(** Two arrays of the same length whose items are equal position by
    position are structurally equal. *)
Lemma equals_arrays r1 l1 r2 l2 :
  Forall2 (fun x y => equals x y = true) l1 l2 ->
  equals (VArray r1 l1) (VArray r2 l2) = true.
Proof.
  intros H. cbn [equals]. induction H as [|x y l1 l2 Hxy _ IH]; [reflexivity|].
  rewrite Hxy. exact IH.
Qed.

(** The loops over the index signatures compute the entries the
    specification describes. *)
Lemma getKeys_object r props parameter b :
  key_kind parameter = Some b ->
  getKeysForIndexSignature (VObject r props) parameter =
  Ok (filter (fun k => Bool.eqb (is_string_key k) b) (map fst props)).
Proof.
  induction parameter; cbn [key_kind getKeysForIndexSignature]; intros H;
    try discriminate H; try (injection H as <-);
    try (unfold Object_keys, Object_getOwnPropertySymbols; cbn [spread]; f_equal;
         apply filter_ext; intros [k|k]; reflexivity).
  apply IHparameter. exact H.
Qed.

Lemma getKeys_object_None r props parameter :
  key_kind parameter = None ->
  getKeysForIndexSignature (VObject r props) parameter = Throw TypeError.
Proof.
  induction parameter; cbn [key_kind getKeysForIndexSignature]; intros H;
    try discriminate H; try reflexivity.
  apply IHparameter. exact H.
Qed.

Lemma field_entries_app fields1 fields2 from to :
  field_entries (fields1 ++ fields2) from to =
  (e1 <- field_entries fields1 from to ;;
   e2 <- field_entries fields2 from to ;;
   Ok (e1 ++ e2)).
Proof.
  induction fields1 as [|[name d] fields1 IH]; cbn [app field_entries bind].
  - destruct (field_entries fields2 from to); reflexivity.
  - destruct (field_entry name d from to) as [e|err]; cbn [bind]; [|reflexivity].
    rewrite IH.
    destruct (field_entries fields1 from to) as [e1|err]; cbn [bind]; [|reflexivity].
    destruct (field_entries fields2 from to) as [e2|err]; cbn [bind]; [|reflexivity].
    rewrite app_assoc. reflexivity.
Qed.

Lemma handle_from_keys_spec r1 from r2 to differ expectedKeys :
  forall fromKeys ops,
    (forall k, In k fromKeys -> has_own from k = true) ->
    handle_from_keys differ expectedKeys fromKeys (VObject r1 from) (VObject r2 to) ops =
    (es <- field_entries
             (map (fun k => (k, differ))
                  (filter (fun k => negb (isExpectedKey expectedKeys k)) fromKeys))
             from to ;;
     Ok (ops ++ es)).
Proof.
  induction fromKeys as [|name rest IH]; intros ops Hown.
  - simpl. rewrite app_nil_r. reflexivity.
  - assert (Hrest : forall k, In k rest -> has_own from k = true)
      by (intros k Hk; apply Hown; right; exact Hk).
    cbn [handle_from_keys filter].
    destruct (isExpectedKey expectedKeys name); cbn [negb]; [exact (IH ops Hrest)|].
    cbn [map field_entries]. unfold field_entry.
    rewrite hasOwnProperty_object, !get_object.
    pose proof (Hown name (or_introl eq_refl)) as Hname. unfold has_own in Hname.
    destruct (assoc name from) as [f|]; [|discriminate Hname].
    destruct (assoc name to) as [t|]; cbn [bind].
    + destruct (differ f t) as [p|e]; cbn [bind]; [|reflexivity].
      rewrite (IH _ Hrest). destruct (isIdentical (op p)); cbn [negb];
        match goal with
        | |- context [field_entries ?l from to] =>
            destruct (field_entries l from to) as [es|e]; cbn [bind]; try reflexivity
        end.
      unfold push. rewrite <- app_assoc. reflexivity.
    + rewrite (IH _ Hrest).
      match goal with
      | |- context [field_entries ?l from to] =>
          destruct (field_entries l from to) as [es|e]; cbn [bind]; try reflexivity
      end.
      unfold push, remove. rewrite <- app_assoc. reflexivity.
Qed.

Lemma handle_to_keys_spec r1 from r2 to differ expectedKeys :
  forall toKeys ops,
    (forall k, In k toKeys -> has_own to k = true) ->
    handle_to_keys expectedKeys toKeys (VObject r1 from) (VObject r2 to) ops =
    (es <- field_entries
             (map (fun k => (k, differ))
                  (filter (fun k => negb (isExpectedKey expectedKeys k))
                          (filter (fun k => negb (has_own from k)) toKeys)))
             from to ;;
     Ok (ops ++ es)).
Proof.
  induction toKeys as [|name rest IH]; intros ops Hown.
  - simpl. rewrite app_nil_r. reflexivity.
  - assert (Hrest : forall k, In k rest -> has_own to k = true)
      by (intros k Hk; apply Hown; right; exact Hk).
    pose proof (Hown name (or_introl eq_refl)) as Hname. unfold has_own in Hname.
    cbn [handle_to_keys filter]. rewrite hasOwnProperty_object, get_object.
    unfold has_own at 1.
    destruct (isExpectedKey expectedKeys name) eqn:Eexp.
    + destruct (assoc name from); cbn [negb filter]; [|rewrite Eexp; cbn [negb]];
        exact (IH ops Hrest).
    + destruct (assoc name from) as [f|] eqn:Ef; cbn [negb filter bind].
      * exact (IH ops Hrest).
      * rewrite Eexp. cbn [negb map field_entries]. unfold field_entry. rewrite Ef.
        destruct (assoc name to) as [t|]; [|discriminate Hname]. cbn [bind].
        rewrite (IH _ Hrest).
        match goal with
        | |- context [field_entries ?l from to] =>
            destruct (field_entries l from to) as [es|e]; cbn [bind]; try reflexivity
        end.
        unfold push, add. rewrite <- app_assoc. reflexivity.
Qed.

Lemma keys_of_kind_own b (props : list (PropertyKey * Value)) k :
  In k (keys_of_kind b props) -> has_own props k = true.
Proof.
  unfold keys_of_kind, has_own. intros H. apply filter_In in H. destruct H as [H _].
  apply In_keys_assoc in H. destruct H as [v ->]. reflexivity.
Qed.

Lemma handle_index_signatures_spec r1 from r2 to expectedKeys :
  forall (indexSignatures : list (AST * Differ)) ops,
    handle_index_signatures indexSignatures expectedKeys (VObject r1 from) (VObject r2 to) ops =
    (es <- index_entries indexSignatures expectedKeys from to ;; Ok (ops ++ es)).
Proof.
  induction indexSignatures as [|[parameter differ] rest IH]; intros ops.
  - simpl. rewrite app_nil_r. reflexivity.
  - cbn [handle_index_signatures index_entries]. unfold signature_entries.
    destruct (key_kind parameter) as [b|] eqn:Ekind.
    + rewrite !(getKeys_object _ _ _ _ Ekind). cbn [bind].
      fold (keys_of_kind b from). fold (keys_of_kind b to).
      rewrite (handle_from_keys_spec r1 from r2 to differ expectedKeys)
        by (intros k; apply keys_of_kind_own).
      unfold signature_keys. rewrite filter_app, map_app, field_entries_app.
      match goal with
      | |- context [field_entries ?l from to] =>
          destruct (field_entries l from to) as [es1|e]; cbn [bind]; [|reflexivity]
      end.
      rewrite (handle_to_keys_spec r1 from r2 to differ expectedKeys)
        by (intros k; apply keys_of_kind_own).
      match goal with
      | |- context [field_entries ?l from to] =>
          destruct (field_entries l from to) as [es2|e]; cbn [bind]; [|reflexivity]
      end.
      rewrite IH.
      destruct (index_entries rest expectedKeys from to) as [es3|e]; cbn [bind];
        [|reflexivity].
      rewrite <- !app_assoc. reflexivity.
    + rewrite (getKeys_object_None _ _ _ Ekind). reflexivity.
Qed.

(** The own keys of the table [expectedKeys] are declared names, and every
    declared name other than ["__proto__"] is one of them. *)
Lemma assign_keys out name v k :
  In k (map fst (properties (assign out name v))) ->
  In k (map fst (properties out)) \/ k = name.
Proof.
  unfold assign.
  destruct (negb (has_own (properties out) name) && PropertyKey_eqb name proto_key
            && has_proto_accessor out); cbn [properties]; [left; assumption|].
  intros H. apply In_keys_assoc in H. destruct H as [w Hw].
  rewrite assoc_define_property in Hw.
  destruct (PropertyKey_eqb_spec k name) as [->|_]; [right; reflexivity|].
  left. apply In_keys_assoc. eauto.
Qed.

Lemma assign_keeps_keys out name v k :
  In k (map fst (properties out)) -> In k (map fst (properties (assign out name v))).
Proof.
  intros H. unfold assign.
  destruct (negb (has_own (properties out) name) && PropertyKey_eqb name proto_key
            && has_proto_accessor out); cbn [properties]; [exact H|].
  apply In_keys_assoc in H. destruct H as [w Hw].
  apply In_keys_assoc. rewrite assoc_define_property.
  destruct (PropertyKey_eqb k name); eauto.
Qed.

Lemma assign_other_key out name v :
  name <> proto_key ->
  assign out name v =
  {| properties := define_property (properties out) name v;
     has_proto_accessor := has_proto_accessor out |}.
Proof.
  intros H. unfold assign. rewrite (PropertyKey_eqb_neq _ _ H), andb_false_r. reflexivity.
Qed.

Lemma isExpectedKey_true expected k :
  isExpectedKey expected k = true <-> In k (map fst (properties expected)).
Proof.
  unfold isExpectedKey, has_own. rewrite In_keys_assoc.
  destruct (assoc k (properties expected)) as [v|]; split; try reflexivity; eauto.
  - intros H. discriminate H.
  - intros [v H]. discriminate H.
Qed.

Lemma isExpectedKey_false expected k :
  isExpectedKey expected k = false <-> ~ In k (map fst (properties expected)).
Proof.
  rewrite <- isExpectedKey_true. destruct (isExpectedKey expected k); split; congruence.
Qed.

Lemma assoc_key_not_proto (props : list (PropertyKey * Value)) k v :
  ~ In proto_key (map fst props) -> assoc k props = Some v -> k <> proto_key.
Proof.
  intros Hno Hk ->. apply Hno. apply In_keys_assoc. eauto.
Qed.

Lemma expected_keys_declared names k :
  In k (map fst (properties (expected_keys names))) -> In k names.
Proof.
  unfold expected_keys.
  assert (H : forall table,
            In k (map fst (properties
                             (fold_left (fun table name => assign table name VNull)
                                        names table))) ->
            In k (map fst (properties table)) \/ In k names).
  { induction names as [|name names IH]; intros table Hk; cbn [fold_left] in Hk;
      [left; exact Hk|].
    destruct (IH _ Hk) as [Hin|Hin]; [|right; right; exact Hin].
    destruct (assign_keys _ _ _ _ Hin) as [Hin'| ->];
      [left; exact Hin' | right; left; reflexivity]. }
  intros Hk. destruct (H _ Hk) as [[]|Hin]. exact Hin.
Qed.

Lemma declared_expected_keys names k :
  k <> proto_key -> In k names -> In k (map fst (properties (expected_keys names))).
Proof.
  intros Hne. unfold expected_keys.
  assert (H : forall table,
            In k (map fst (properties table)) \/ In k names ->
            In k (map fst (properties
                             (fold_left (fun table name => assign table name VNull)
                                        names table)))).
  { induction names as [|name names IH]; intros table Hk; cbn [fold_left].
    - destruct Hk as [Hk|[]]. exact Hk.
    - apply IH. destruct Hk as [Hk|[<-|Hk]].
      + left. apply assign_keeps_keys. exact Hk.
      + left. rewrite (assign_other_key _ _ _ Hne). cbn [properties].
        apply In_keys_assoc. rewrite assoc_define_property, PropertyKey_eqb_refl. eauto.
      + right. exact Hk. }
  intros Hk. apply H. right. exact Hk.
Qed.

Lemma expected_keys_without_proto names :
  NoDup names -> ~ In proto_key (map fst (properties (expected_keys names))).
Proof.
  unfold expected_keys.
  assert (H : forall table,
            NoDup names ->
            ~ In proto_key (map fst (properties table)) ->
            has_proto_accessor table = true \/ ~ In proto_key names ->
            ~ In proto_key
                (map fst (properties
                            (fold_left (fun table name => assign table name VNull)
                                       names table)))).
  { induction names as [|name names IH]; intros table Hnd Hown Hacc; cbn [fold_left];
      [exact Hown|].
    inversion Hnd as [|? ? Hnotin Hnd']; subst.
    destruct (PropertyKey_eqb_spec name proto_key) as [->|Hne].
    - apply (IH _ Hnd'); [|right; exact Hnotin].
      intros Hin. destruct (assign_keys _ _ _ _ Hin) as [Hin'|_]; [exact (Hown Hin')|].
      destruct Hacc as [Hacc|Hno]; [|apply Hno; left; reflexivity].
      revert Hin. unfold assign, has_own.
      destruct (assoc proto_key (properties table)) as [w|] eqn:Ew.
      + contradiction Hown. apply In_keys_assoc. eauto.
      + rewrite Hacc, PropertyKey_eqb_refl. cbn [negb andb properties]. exact Hown.
    - apply (IH _ Hnd').
      + intros Hin. destruct (assign_keys _ _ _ _ Hin) as [Hin'|Heq];
          [exact (Hown Hin') | exact (Hne (eq_sym Heq))].
      + destruct Hacc as [Hacc|Hno].
        * left. rewrite (assign_other_key _ _ _ Hne). exact Hacc.
        * right. intros Hin. apply Hno. right. exact Hin. }
  intros Hnd. apply (H (plain []) Hnd); [intros [] | left; reflexivity].
Qed.

(** C7, as the code has it: the record algorithm.  Once the types of
    the signatures are compiled, the differ of a type literal is compiled
    too, and on two objects it emits
    - for each declared field, in declaration order, the entry the
      specification describes ([field_entries]: the recursive diff when
      the field is in both values and the diff is not identical, [Remove]
      of the old value when it is only in [from], [Add] of the new value
      when it is only in [to]);
    - then, for each index signature in declaration order, the entries of
      the same logic for the keys of its kind that are not expected keys:
      those of [from] in enumeration order, followed by those of [to]
      that [from] lacks ([index_entries]);
    the result is [ObjectOps] of all these entries when there are some and
    [Identical] otherwise.  The expected keys are declared names, and
    every declared name other than ["__proto__"] is expected; among
    distinct declared names, ["__proto__"] is not. *)
Theorem record_diff_algorithm :
  forall fuel thunks propertySignatures indexSignatures fields indexes,
    traverse (fun ps => go fuel thunks (PropertySignature.type ps)) propertySignatures
      = Some fields ->
    traverse (fun sig => go fuel thunks (IndexSignature.type sig)) indexSignatures
      = Some indexes ->
    exists differ,
      go (S fuel) thunks (TypeLiteral propertySignatures indexSignatures) = Some differ /\
      let names := map (@PropertySignature.name AST) propertySignatures in
      let parameters := map (@IndexSignature.parameter AST) indexSignatures in
      (forall r1 from r2 to,
         differ (VObject r1 from) (VObject r2 to) =
           (entries <- field_entries (combine names fields) from to ;;
            more <- index_entries (combine parameters indexes) (expected_keys names) from to ;;
            Ok (object_result (entries ++ more)))) /\
      (forall k, isExpectedKey (expected_keys names) k = true -> In k names) /\
      (forall k, k <> proto_key -> In k names ->
                 isExpectedKey (expected_keys names) k = true) /\
      (NoDup names -> isExpectedKey (expected_keys names) proto_key = false).
Proof.
  intros fuel thunks pss iss fields indexes Hps His.
  eexists. split.
  { cbn [go]. rewrite Hps, His. reflexivity. }
  cbn zeta. split; [|split; [|split]].
  - intros r1 from r2 to. cbn beta.
    rewrite handle_property_signatures_spec. cbn [app].
    destruct (field_entries _ from to) as [entries|e]; cbn [bind]; [|reflexivity].
    rewrite handle_index_signatures_spec.
    destruct (index_entries _ _ from to) as [more|e]; cbn [bind]; [|reflexivity].
    unfold object_result, objectOps, identical. destruct (entries ++ more); reflexivity.
  - intros k Hk. apply expected_keys_declared, isExpectedKey_true. exact Hk.
  - intros k Hne Hk. apply isExpectedKey_true, declared_expected_keys; assumption.
  - intros Hnd. apply isExpectedKey_false, expected_keys_without_proto. exact Hnd.
Qed.

(** The theorem at a struct with a catch-all: the declared field ["a"] is
    diffed first; then, of the other keys, ["x"] is removed, ["y"] is
    diffed and ["z"] is added.  And at the record keyed by strings, for
    [{}] against [{ a: "v" }]: the patch adds ["a"], the reversed patch
    removes it, and applied to [{ a: "v" }] it returns [{}]. *)
Lemma record_diff_algorithm_witness :
  (exists differ,
     go 2 no_thunks
        (TypeLiteral [required "a" StringKeyword]
                     [IndexSignature.make StringKeyword StringKeyword]) = Some differ /\
     differ (VObject 1 [(KString "x", VString "1"); (KString "a", VString "a");
                        (KString "y", VString "2")])
            (VObject 2 [(KString "z", VString "4"); (KString "y", VString "3");
                        (KString "a", VString "b")]) =
       Ok (make (ObjectOps [(KString "a", Replace (VString "a") (VString "b"));
                            (KString "x", Remove (VString "1"));
                            (KString "y", Replace (VString "2") (VString "3"));
                            (KString "z", Add (VString "4"))]))) /\
  (exists differ patch,
     go 2 no_thunks record_string_string = Some differ /\
     differ (VObject 1 []) (VObject 2 [(KString "a", VString "v")]) = Ok patch /\
     op patch = ObjectOps [(KString "a", Add (VString "v"))] /\
     op (reverse patch) = ObjectOps [(KString "a", Remove (VString "v"))] /\
     runPatch (reverse patch) (VObject 2 [(KString "a", VString "v")]) 3 =
       Ok (VObject 3 [], 4)).
Proof.
  split.
  - destruct (@record_diff_algorithm 1 no_thunks
                [required "a" StringKeyword]
                [IndexSignature.make StringKeyword StringKeyword] _ _
                eq_refl eq_refl) as (differ & Hgo & Hdiff & _).
    exists differ. split; [exact Hgo|].
    rewrite Hdiff. reflexivity.
  - destruct (@record_diff_algorithm 1 no_thunks []
                [IndexSignature.make StringKeyword StringKeyword] _ _
                eq_refl eq_refl) as (differ & Hgo & Hdiff & _).
    exists differ, (make (ObjectOps [(KString "a", Add (VString "v"))])).
    split; [exact Hgo|]. split; [rewrite Hdiff; reflexivity|].
    repeat split.
Defined.

(** C7 as stated does not hold on records: the result is not made of the
    entries of the declared fields alone.  Over the record keyed by
    strings, which declares no field, [{}] against [{a: "v"}] has no entry
    of a declared field, and the patch is not [Identical]. *)
Lemma record_result_has_index_entries :
  ~ (forall fuel thunks propertySignatures indexSignatures fields differ r1 from r2 to,
       traverse (fun ps => go fuel thunks (PropertySignature.type ps)) propertySignatures
         = Some fields ->
       go (S fuel) thunks (TypeLiteral propertySignatures indexSignatures) = Some differ ->
       differ (VObject r1 from) (VObject r2 to) =
         (entries <- field_entries
                       (combine (map (@PropertySignature.name AST) propertySignatures) fields)
                       from to ;;
          Ok (object_result entries))).
Proof.
  intros H.
  specialize (H 1 no_thunks [] [IndexSignature.make StringKeyword StringKeyword] [] _
                1 [] 2 [(KString "a", VString "v")] eq_refl eq_refl).
  discriminate H.
Qed.

(** ** Values of a supported shape *)

Lemma Value_tree_ind (P : Value -> Prop) :
  P VUndefined -> P VNull ->
  (forall b, P (VBoolean b)) -> (forall x, P (VNumber x)) -> (forall z, P (VBigInt z)) ->
  (forall s, P (VString s)) -> (forall d, P (VSymbol d)) -> (forall r, P (VFunction r)) ->
  (forall r props, Forall (fun kv => P (snd kv)) props -> P (VObject r props)) ->
  (forall r items, Forall P items -> P (VArray r items)) ->
  forall v, P v.
Proof.
  intros Hu Hn Hb Hx Hz Hs Hd Hf Ho Ha.
  fix IH 1. intros [| |b|x|z|s|d|r|r props|r items].
  - exact Hu.
  - exact Hn.
  - apply Hb.
  - apply Hx.
  - apply Hz.
  - apply Hs.
  - apply Hd.
  - apply Hf.
  - apply Ho. induction props as [|[k v] props IHp]; constructor; [apply IH | exact IHp].
  - apply Ha. induction items as [|v items IHi]; constructor; [apply IH | exact IHi].
Qed.

Lemma same_number_refl x : same_number x x = true.
Proof. destruct (same_number_spec x x); congruence. Qed.

(** A value of a supported shape is structurally equal to itself. *)
Lemma equals_refl_shaped thunks :
  forall v ast, has_shape thunks ast v -> equals v v = true.
Proof.
  induction v as [| |b|x|z|s|d|r|r props IHp|r items IHi] using Value_tree_ind;
    intros ast H; cbn [equals];
    auto using Bool.eqb_reflx, Z.eqb_refl, String.eqb_refl, Nat.eqb_refl, same_number_refl.
  - change (equals (VObject r props) (VObject r props) = true).
    remember (VObject r props) as v eqn:Ev.
    induction H as [x|ast v Hleaf Hprim|from v H IH|f v H IH|elements rest r' items H
                    |pss iss r' props' Hnames Hkeys Hproto Hkinds Hprops];
      try discriminate Ev; try (subst v; cbn in Hprim; discriminate Hprim); auto.
    injection Ev as -> ->.
    apply equals_objects; try assumption.
    intros k. unfold agree. destruct (assoc k props) as [v|] eqn:E; [|exact I].
    apply assoc_In in E.
    rewrite Forall_forall in IHp.
    destruct (Hprops k v E) as [(ps & _ & _ & Hv)|(_ & (sig & Hsig & Hkind) & Hall)].
    + exact (IHp (k, v) E _ Hv).
    + exact (IHp (k, v) E _ (Hall sig Hsig Hkind)).
  - change (equals (VArray r items) (VArray r items) = true).
    remember (VArray r items) as v eqn:Ev.
    induction H as [x|ast v Hleaf Hprim|from v H IH|f v H IH|elements rest r' items' H
                    |pss iss r' props' Hnames Hkeys Hproto Hkinds Hprops];
      try discriminate Ev; try (subst v; cbn in Hprim; discriminate Hprim); auto.
    injection Ev as -> ->.
    apply equals_arrays.
    clear r. revert elements H. induction IHi as [|v items Hv _ IHitems]; intros elements H.
    + constructor.
    + inversion H as [|e ? es ? He Hes]; subst.
      constructor; [exact (Hv _ He) | exact (IHitems _ Hes)].
Qed.

Lemma strict_equals_primitive a b :
  non_number_primitive a = true -> non_number_primitive b = true ->
  strict_equals a b = equals a b.
Proof. destruct a, b; intros Ha Hb; try discriminate Ha; try discriminate Hb; reflexivity. Qed.

Lemma strict_equals_sym a b : strict_equals a b = strict_equals b a.
Proof.
  destruct a, b; cbn; try reflexivity;
    try (match goal with |- Bool.eqb ?x ?y = _ => destruct x, y; reflexivity end);
    try apply Z.eqb_sym; try apply String.eqb_sym; try apply Nat.eqb_sym.
  destruct (SFeqb x x0) eqn:E1, (SFeqb x0 x) eqn:E2; try reflexivity.
  - apply SFeqb_true_iff in E1.
    assert (SFeqb x0 x = true); [|congruence].
    apply SFeqb_true_iff.
    destruct E1 as [[-> Hn]|(s1 & s2 & -> & ->)]; [left; split; auto | right; eauto].
  - apply SFeqb_true_iff in E2.
    assert (SFeqb x x0 = true); [|congruence].
    apply SFeqb_true_iff.
    destruct E2 as [[-> Hn]|(s1 & s2 & -> & ->)]; [left; split; auto | right; eauto].
Qed.

Lemma Object_is_sym a b : Object_is a b = Object_is b a.
Proof.
  destruct a, b; cbn; try reflexivity;
    try (match goal with |- Bool.eqb ?x ?y = _ => destruct x, y; reflexivity end);
    try apply Z.eqb_sym; try apply String.eqb_sym; try apply Nat.eqb_sym.
  destruct (same_number_spec x x0), (same_number_spec x0 x); congruence.
Qed.

(** The two leaf comparators apply both ways on the values of their
    shapes. *)
Lemma number_leaf_two_way x y :
  two_way
    (fun from to => Ok (make (if Object_is from to then identical else replace from to)))
    (VNumber x) (VNumber y).
Proof.
  eexists. split; [reflexivity|]. unfold reverse. cbn [op Object_is].
  destruct (same_number_spec x y) as [->|Hne]; split; intros next.
  - exists (VNumber y), next. split; [reflexivity | apply same_number_refl].
  - exists (VNumber y), next. split; [reflexivity | apply same_number_refl].
  - exists (VNumber y), next. split; [reflexivity | apply same_number_refl].
  - exists (VNumber x), next. split; [reflexivity | apply same_number_refl].
Qed.

Lemma equals_refl_primitive a : non_number_primitive a = true -> equals a a = true.
Proof.
  destruct a; intros H; try discriminate H; cbn;
    auto using Bool.eqb_reflx, Z.eqb_refl, String.eqb_refl.
Qed.

Lemma strict_leaf_two_way from to :
  non_number_primitive from = true -> non_number_primitive to = true ->
  two_way
    (fun from to => Ok (make (if strict_equals from to then identical else replace from to)))
    from to.
Proof.
  intros Hf Ht. eexists. split; [reflexivity|]. unfold reverse. cbn [op].
  destruct (strict_equals from to) eqn:E; split; intros next.
  - exists from, next. split; [reflexivity|].
    rewrite <- (strict_equals_primitive _ _ Hf Ht). exact E.
  - exists to, next. split; [reflexivity|].
    rewrite <- (strict_equals_primitive _ _ Ht Hf), strict_equals_sym. exact E.
  - exists to, next. split; [reflexivity | exact (equals_refl_primitive _ Ht)].
  - exists from, next. split; [reflexivity | exact (equals_refl_primitive _ Hf)].
Qed.

(** ** Patches that apply both ways *)

Lemma run_array_entries_nested a index subop ops out next :
  is_add_or_remove subop = false -> isIdentical subop = false ->
  run_array_entries a ((index, subop) :: ops) out next =
  (v <- get_index a index ;;
   '(r, next1) <- runOp subop v next ;;
   run_array_entries a ops (array_set out index r) next1).
Proof. destruct subop; intros H1 H2; try discriminate H1; try discriminate H2; reflexivity. Qed.

Lemma run_object_entries_nested a name subop ops out next :
  is_add_or_remove subop = false -> isIdentical subop = false ->
  run_object_entries a ((name, subop) :: ops) out next =
  (v <- get a name ;;
   '(r, next1) <- runOp subop v next ;;
   run_object_entries a ops (assign out name r) next1).
Proof. destruct subop; intros H1 H2; try discriminate H1; try discriminate H2; reflexivity. Qed.

Lemma run_object_entries_Add a name value ops out next :
  run_object_entries a ((name, Add value) :: ops) out next =
  run_object_entries a ops (assign out name value) next.
Proof. reflexivity. Qed.

Lemma run_object_entries_Remove a name value ops out next :
  run_object_entries a ((name, Remove value) :: ops) out next =
  run_object_entries a ops (unset out name) next.
Proof. reflexivity. Qed.

Lemma isIdentical_true op : isIdentical op = true -> op = Identical.
Proof. destruct op; intros H; try discriminate H; reflexivity. Qed.

Lemma PropertyKey_eq_dec (a b : PropertyKey) : {a = b} + {a <> b}.
Proof. destruct (PropertyKey_eqb_spec a b); [left | right]; assumption. Qed.


Lemma reverseNestedOp_root op :
  is_add_or_remove op = false -> reverseNestedOp op = reverseOp op.
Proof. destruct op; intros H; try discriminate H; reflexivity. Qed.

Lemma isIdentical_reverseOp op : isIdentical (reverseOp op) = isIdentical op.
Proof. destruct op; reflexivity. Qed.

Lemma is_add_or_remove_reverseOp op :
  is_add_or_remove (reverseOp op) = is_add_or_remove op.
Proof. destruct op; reflexivity. Qed.

Lemma reverseNestedOp_involutive op : reverseNestedOp (reverseNestedOp op) = op.
Proof.
  induction op as [|from to|ops IH|ops IH|value|value] using Op_tree_ind;
    try reflexivity; cbn [reverseNestedOp]; unfold objectOps, arrayOps;
    cbn [reverseNestedOp]; unfold objectOps, arrayOps; f_equal;
    rewrite map_map; induction IH as [|[k o] ops Ho _ IHops];
    try reflexivity; cbn [map snd] in *; rewrite Ho, IHops; reflexivity.
Qed.

Lemma reverseOp_involutive op : reverseOp (reverseOp op) = op.
Proof.
  destruct op as [|from to|ops|ops|value|value]; try reflexivity.
  - exact (reverseNestedOp_involutive (ObjectOps ops)).
  - exact (reverseNestedOp_involutive (ArrayOps ops)).
Qed.

(** Reversing twice gives the patch back. *)
Lemma reverse_involutive patch : reverse (reverse patch) = patch.
Proof.
  destruct patch as [o]. unfold reverse. cbn [op]. f_equal. apply reverseOp_involutive.
Qed.

Lemma map_fst_reverse_entries {K : Type} (es : list (K * Op)) :
  map fst (reverse_entries es) = map fst es.
Proof.
  unfold reverse_entries. rewrite map_map. apply map_ext. intros [k o]. reflexivity.
Qed.

(** *** Record patches *)

(** The reversal of a fair entry is a fair entry of the reversed pair. *)
Lemma fair_entry_reverse p1 p2 entry :
  fair_entry p1 p2 entry ->
  fair_entry p2 p1 (fst entry, reverseNestedOp (snd entry)).
Proof.
  intros [k e f t Ef Et Hid Hroot Hfw Hbw | k f Ef Et Hrefl | k t Ef Et Hrefl]; cbn [fst snd].
  - rewrite (reverseNestedOp_root _ Hroot).
    apply (@fair_nested p2 p1 k (reverseOp e) t f); try assumption.
    + rewrite isIdentical_reverseOp. exact Hid.
    + rewrite is_add_or_remove_reverseOp. exact Hroot.
    + rewrite reverseOp_involutive. exact Hfw.
  - apply fair_Add; assumption.
  - apply fair_Remove; assumption.
Qed.

Lemma Forall_fair_reverse p1 p2 es :
  Forall (fair_entry p1 p2) es -> Forall (fair_entry p2 p1) (reverse_entries es).
Proof.
  induction 1 as [|[k e] es H _ IH]; [constructor|].
  cbn [reverse_entries map]. constructor; [exact (fair_entry_reverse _ _ _ H) | exact IH].
Qed.

Lemma entries_step keys k (out out1 out' p2 : list (PropertyKey * Value)) :
  (forall k', k' <> k -> assoc k' out1 = assoc k' out) ->
  agree (assoc k out1) (assoc k p2) ->
  (forall k', ~ In k' keys -> assoc k' out' = assoc k' out1) ->
  (forall k', In k' keys -> agree (assoc k' out') (assoc k' p2)) ->
  (forall k', ~ In k' (k :: keys) -> assoc k' out' = assoc k' out) /\
  (forall k', In k' (k :: keys) -> agree (assoc k' out') (assoc k' p2)).
Proof.
  intros Hstep Hk Hother Hag. split.
  - intros k' Hk'. rewrite Hother; [|intros Hin; apply Hk'; right; exact Hin].
    apply Hstep. intros ->. apply Hk'. left. reflexivity.
  - intros k' Hk'. destruct (in_dec PropertyKey_eq_dec k' keys) as [Hin|Hnin];
      [exact (Hag k' Hin)|].
    destruct Hk' as [<-|Hin]; [|contradiction].
    rewrite (Hother k Hnin). exact Hk.
Qed.

Lemma assoc_define_property_other out k v k' :
  k' <> k -> assoc k' (define_property out k v) = assoc k' out.
Proof. intros H. rewrite assoc_define_property, (PropertyKey_eqb_neq _ _ H). reflexivity. Qed.

Lemma assoc_delete_property_other out k k' :
  k' <> k -> assoc k' (delete_property out k) = assoc k' out.
Proof. intros H. rewrite assoc_delete_property, (PropertyKey_eqb_neq _ _ H). reflexivity. Qed.

(** Applying fair entries to a copy makes the copy agree with the target
    on their keys and leaves the other keys as they were.  No entry
    addresses ["__proto__"], which neither table holds: every assignment
    creates or updates an own property. *)
Lemma run_fair_entries r1 p1 p2 es :
  ~ In proto_key (map fst p1) -> ~ In proto_key (map fst p2) ->
  Forall (fair_entry p1 p2) es ->
  forall out next,
    NoDup (map fst (properties out)) ->
    exists out' next',
      run_object_entries (VObject r1 p1) es out next = Ok (out', next') /\
      NoDup (map fst (properties out')) /\
      (forall k, ~ In k (map fst es) -> assoc k (properties out') = assoc k (properties out)) /\
      (forall k, In k (map fst es) -> agree (assoc k (properties out')) (assoc k p2)).
Proof.
  intros Hno1 Hno2.
  induction 1 as [|entry es Hfair _ IH]; intros out next Hnd.
  - exists out, next. split; [reflexivity|]. split; [exact Hnd|].
    split; [reflexivity | intros k []].
  - destruct Hfair as [k e f t Ef Et Hid Hroot Hfw Hbw | k f Ef Et Hrefl | k t Ef Et Hrefl];
      cbn [map fst].
    + rewrite (run_object_entries_nested _ _ _ _ _ _ Hroot Hid), get_object, Ef.
      cbn [bind]. destruct (Hfw next) as (r & next1 & Hr & Heq). rewrite Hr. cbn [bind].
      rewrite (assign_other_key _ _ _ (assoc_key_not_proto _ _ _ Hno1 Ef)).
      destruct (IH {| properties := define_property (properties out) k r;
                      has_proto_accessor := has_proto_accessor out |} next1
                   (NoDup_define_property _ _ _ Hnd))
        as (out' & next' & Hrun & Hnd' & Hother & Hag).
      cbn [properties] in Hother.
      exists out', next'. split; [exact Hrun|]. split; [exact Hnd'|].
      apply (entries_step _ k (properties out) (define_property (properties out) k r));
        try assumption.
      * intros k' Hk'. apply assoc_define_property_other. exact Hk'.
      * rewrite assoc_define_property, PropertyKey_eqb_refl, Et. exact Heq.
    + rewrite run_object_entries_Remove. unfold unset.
      destruct (IH {| properties := delete_property (properties out) k;
                      has_proto_accessor := has_proto_accessor out |} next
                   (NoDup_delete_property _ _ Hnd))
        as (out' & next' & Hrun & Hnd' & Hother & Hag).
      cbn [properties] in Hother.
      exists out', next'. split; [exact Hrun|]. split; [exact Hnd'|].
      apply (entries_step _ k (properties out) (delete_property (properties out) k));
        try assumption.
      * intros k' Hk'. apply assoc_delete_property_other. exact Hk'.
      * rewrite assoc_delete_property, PropertyKey_eqb_refl, Et. exact I.
    + rewrite run_object_entries_Add.
      rewrite (assign_other_key _ _ _ (assoc_key_not_proto _ _ _ Hno2 Et)).
      destruct (IH {| properties := define_property (properties out) k t;
                      has_proto_accessor := has_proto_accessor out |} next
                   (NoDup_define_property _ _ _ Hnd))
        as (out' & next' & Hrun & Hnd' & Hother & Hag).
      cbn [properties] in Hother.
      exists out', next'. split; [exact Hrun|]. split; [exact Hnd'|].
      apply (entries_step _ k (properties out) (define_property (properties out) k t));
        try assumption.
      * intros k' Hk'. apply assoc_define_property_other. exact Hk'.
      * rewrite assoc_define_property, PropertyKey_eqb_refl, Et. exact Hrefl.
Qed.

(** A record patch made of fair entries that cover every key turns
    [from] into [to]. *)
Lemma object_patch_applies r1 p1 r2 p2 es :
  NoDup (map fst p1) -> NoDup (map fst p2) ->
  ~ In proto_key (map fst p1) -> ~ In proto_key (map fst p2) ->
  Forall (fair_entry p1 p2) es ->
  (forall k, covered p1 p2 (map fst es) k) ->
  applies_to (op (object_result es)) (VObject r1 p1) (VObject r2 p2).
Proof.
  intros Hnd1 Hnd2 Hno1 Hno2 Hfair Hcov next.
  destruct es as [|entry es]; cbn [object_result op].
  - exists (VObject r1 p1), next. split; [reflexivity|].
    apply equals_objects; try assumption.
    intros k. destruct (Hcov k) as [[]|[H _]]. exact H.
  - rewrite runOp_ObjectOps. cbn [spread].
    destruct (run_fair_entries r1 p1 p2 _ Hno1 Hno2 Hfair (plain p1) (S next) Hnd1)
      as (out & next' & Hrun & Hnd & Hother & Hag).
    cbn [plain properties] in Hother.
    rewrite Hrun. cbn [bind]. eexists. eexists. split; [reflexivity|].
    apply equals_objects; try assumption.
    intros k. destruct (in_dec PropertyKey_eq_dec k (map fst (entry :: es))) as [Hin|Hnin];
      [exact (Hag k Hin)|].
    rewrite (Hother k Hnin). destruct (Hcov k) as [Hin|[H _]]; [contradiction | exact H].
Qed.

Lemma reverse_object_result es :
  op (reverse (object_result es)) = op (object_result (reverse_entries es)).
Proof. destruct es; reflexivity. Qed.

(** Such a patch applies both ways. *)
Lemma object_patch_two_way r1 p1 r2 p2 es :
  NoDup (map fst p1) -> NoDup (map fst p2) ->
  ~ In proto_key (map fst p1) -> ~ In proto_key (map fst p2) ->
  Forall (fair_entry p1 p2) es ->
  (forall k, covered p1 p2 (map fst es) k) ->
  applies_to (op (object_result es)) (VObject r1 p1) (VObject r2 p2) /\
  applies_to (op (reverse (object_result es))) (VObject r2 p2) (VObject r1 p1).
Proof.
  intros Hnd1 Hnd2 Hno1 Hno2 Hfair Hcov. split; [apply object_patch_applies; assumption|].
  rewrite reverse_object_result.
  apply object_patch_applies; try assumption.
  - apply Forall_fair_reverse. exact Hfair.
  - intros k. rewrite map_fst_reverse_entries.
    destruct (Hcov k) as [Hin|[H1 H2]]; [left; exact Hin | right; split; assumption].
Qed.

Lemma covered_mono p1 p2 keys keys' k :
  (forall x, In x keys -> In x keys') -> covered p1 p2 keys k -> covered p1 p2 keys' k.
Proof. intros Hsub [Hin|H]; [left; apply Hsub; exact Hin | right; exact H]. Qed.

Lemma two_way_Identical differ from to patch :
  differ from to = Ok patch -> two_way differ from to -> isIdentical (op patch) = true ->
  equals from to = true /\ equals to from = true.
Proof.
  intros Hp (p & Hp' & Hfw & Hbw) Hid. rewrite Hp in Hp'. injection Hp' as <-.
  apply isIdentical_true in Hid. unfold reverse in Hbw. rewrite Hid in Hfw, Hbw.
  destruct (Hfw 0) as (o1 & n1 & H1 & E1). destruct (Hbw 0) as (o2 & n2 & H2 & E2).
  cbn in H1, H2. injection H1 as <- _. injection H2 as <- _. split; assumption.
Qed.

(** The entries of the declared fields are fair, and cover the declared
    names. *)
Lemma fields_fair p1 p2 :
  (forall k v, assoc k p1 = Some v -> equals v v = true) ->
  (forall k v, assoc k p2 = Some v -> equals v v = true) ->
  forall fields : list (PropertyKey * Differ),
    (forall name d f t, In (name, d) fields ->
       assoc name p1 = Some f -> assoc name p2 = Some t -> two_way d f t) ->
    (forall name d, In (name, d) fields -> returns_positional d) ->
    exists es,
      field_entries fields p1 p2 = Ok es /\
      Forall (fair_entry p1 p2) es /\
      forall k, In k (map fst fields) -> covered p1 p2 (map fst es) k.
Proof.
  intros Hrefl1 Hrefl2.
  induction fields as [|[name d] fields IH]; intros Htwo Hpos.
  - exists []. split; [reflexivity|]. split; [constructor | intros k []].
  - destruct IH as (es' & Hes' & Hfair' & Hcov').
    { intros n' d' f t Hin. apply Htwo. right. exact Hin. }
    { intros n' d' Hin. apply (Hpos n' d'). right. exact Hin. }
    assert (Hlater : forall e k, In k (map fst fields) ->
                       covered p1 p2 (map fst (e ++ es')) k).
    { intros e k Hk. apply (covered_mono p1 p2 (map fst es')); [|exact (Hcov' k Hk)].
      intros x Hx. rewrite map_app. apply in_or_app. right. exact Hx. }
    cbn [field_entries]. unfold field_entry. rewrite Hes'.
    destruct (assoc name p1) as [f|] eqn:Ef, (assoc name p2) as [t|] eqn:Et; cbn [bind].
    + pose proof (Htwo name d f t (or_introl eq_refl) Ef Et) as H2.
      destruct H2 as (p & Hp & Hfw & Hbw) eqn:E2. rewrite Hp. cbn [bind].
      eexists. split; [reflexivity|].
      destruct (isIdentical (op p)) eqn:Eid.
      * split; [exact Hfair'|]. intros k Hk; cbn [map fst In] in Hk; destruct Hk as [<-|Hk]; [|exact (Hlater [] k Hk)].
        right. rewrite Ef, Et. cbn [agree].
        exact (two_way_Identical d f t p Hp (Htwo name d f t (or_introl eq_refl) Ef Et) Eid).
      * split.
        -- constructor; [|exact Hfair'].
           apply (@fair_nested p1 p2 name (op p) f t); try assumption.
           exact (proj2 (Hpos name d (or_introl eq_refl) f t p Hp)).
        -- intros k Hk; cbn [map fst In] in Hk; destruct Hk as [<-|Hk]; [left; left; reflexivity | exact (Hlater [_] k Hk)].
    + eexists. split; [reflexivity|]. split.
      * constructor; [|exact Hfair']. apply fair_Remove; [assumption.. | exact (Hrefl1 _ _ Ef)].
      * intros k Hk; cbn [map fst In] in Hk; destruct Hk as [<-|Hk]; [left; left; reflexivity | exact (Hlater [_] k Hk)].
    + eexists. split; [reflexivity|]. split.
      * constructor; [|exact Hfair']. apply fair_Add; [assumption.. | exact (Hrefl2 _ _ Et)].
      * intros k Hk; cbn [map fst In] in Hk; destruct Hk as [<-|Hk]; [left; left; reflexivity | exact (Hlater [_] k Hk)].
    + eexists. split; [reflexivity|]. split; [exact Hfair'|].
      intros k Hk; cbn [map fst In] in Hk; destruct Hk as [<-|Hk]; [|exact (Hlater [] k Hk)].
      right. rewrite Ef, Et. split; exact I.
Qed.

Lemma unexpected_undeclared names k :
  k <> proto_key -> isExpectedKey (expected_keys names) k = false -> ~ In k names.
Proof.
  intros Hne Hexp Hin. apply isExpectedKey_false in Hexp.
  exact (Hexp (declared_expected_keys _ _ Hne Hin)).
Qed.

Lemma undeclared_unexpected names k :
  ~ In k names -> isExpectedKey (expected_keys names) k = false.
Proof.
  intros Hnin. apply isExpectedKey_false. intros Hin.
  exact (Hnin (expected_keys_declared _ _ Hin)).
Qed.

Section IndexSignatures.
Variables (r1 : nat) (p1 : list (PropertyKey * Value)).
Variables (r2 : nat) (p2 : list (PropertyKey * Value)).
Variable expectedKeys : Ordinary.
Hypothesis Hrefl1 : forall k v, assoc k p1 = Some v -> equals v v = true.
Hypothesis Hrefl2 : forall k v, assoc k p2 = Some v -> equals v v = true.

Lemma from_keys_fair differ fromKeys :
  returns_positional differ ->
  (forall k, In k fromKeys -> exists f, assoc k p1 = Some f) ->
  (forall k f t, In k fromKeys -> isExpectedKey expectedKeys k = false ->
     assoc k p1 = Some f -> assoc k p2 = Some t -> two_way differ f t) ->
  forall ops,
  exists es,
    handle_from_keys differ expectedKeys fromKeys (VObject r1 p1) (VObject r2 p2) ops
      = Ok (ops ++ es) /\
    Forall (fair_entry p1 p2) es /\
    forall k, In k fromKeys -> isExpectedKey expectedKeys k = false ->
              covered p1 p2 (map fst es) k.
Proof.
  intros Hpos. induction fromKeys as [|name rest IH]; intros Hkeys Htwo ops.
  - exists []. rewrite app_nil_r. split; [reflexivity|]. split; [constructor | intros k []].
  - assert (IH' : forall ops', exists es,
              handle_from_keys differ expectedKeys rest (VObject r1 p1) (VObject r2 p2) ops'
                = Ok (ops' ++ es) /\
              Forall (fair_entry p1 p2) es /\
              forall k, In k rest -> isExpectedKey expectedKeys k = false ->
                        covered p1 p2 (map fst es) k).
    { apply IH.
      - intros k Hk. apply Hkeys. right. exact Hk.
      - intros k f t Hk. apply Htwo. right. exact Hk. }
    clear IH. cbn [handle_from_keys].
    destruct (isExpectedKey expectedKeys name) eqn:Eexp.
    + destruct (IH' ops) as (es & Hes & Hfair & Hcov).
      exists es. split; [exact Hes|]. split; [exact Hfair|].
      intros k [<-|Hk] Hk'; [congruence | exact (Hcov k Hk Hk')].
    + destruct (Hkeys name (or_introl eq_refl)) as [f Ef].
      rewrite hasOwnProperty_object, !get_object, Ef.
      destruct (assoc name p2) as [t|] eqn:Et; cbn [bind].
      * pose proof (Htwo name f t (or_introl eq_refl) Eexp Ef Et) as H2.
        destruct H2 as (p & Hp & Hfw & Hbw) eqn:E2. rewrite Hp. cbn [bind].
        destruct (isIdentical (op p)) eqn:Eid; cbn [negb].
        -- destruct (IH' ops) as (es & Hes & Hfair & Hcov).
           exists es. split; [exact Hes|]. split; [exact Hfair|].
           intros k [<-|Hk] Hk'; [|exact (Hcov k Hk Hk')].
           right. rewrite Ef, Et. cbn [agree].
           exact (two_way_Identical differ f t p Hp
                    (Htwo name f t (or_introl eq_refl) Eexp Ef Et) Eid).
        -- destruct (IH' (push ops (name, op p))) as (es & Hes & Hfair & Hcov).
           exists ((name, op p) :: es). unfold push in Hes. rewrite <- app_assoc in Hes.
           split; [exact Hes|]. split.
           ++ constructor; [|exact Hfair].
              apply (@fair_nested p1 p2 name (op p) f t); try assumption.
              exact (proj2 (Hpos f t p Hp)).
           ++ intros k [<-|Hk] Hk'; [left; left; reflexivity|].
              apply (covered_mono p1 p2 (map fst es)); [|exact (Hcov k Hk Hk')].
              intros x Hx. right. exact Hx.
      * destruct (IH' (push ops (name, remove f))) as (es & Hes & Hfair & Hcov).
        exists ((name, Remove f) :: es). unfold push in Hes. rewrite <- app_assoc in Hes.
        split; [exact Hes|]. split.
        -- constructor; [|exact Hfair].
           apply fair_Remove; [assumption.. | exact (Hrefl1 _ _ Ef)].
        -- intros k [<-|Hk] Hk'; [left; left; reflexivity|].
           apply (covered_mono p1 p2 (map fst es)); [|exact (Hcov k Hk Hk')].
           intros x Hx. right. exact Hx.
Qed.

Lemma to_keys_fair toKeys :
  (forall k, In k toKeys -> exists t, assoc k p2 = Some t) ->
  forall ops,
  exists es,
    handle_to_keys expectedKeys toKeys (VObject r1 p1) (VObject r2 p2) ops
      = Ok (ops ++ es) /\
    Forall (fair_entry p1 p2) es /\
    forall k, In k toKeys -> isExpectedKey expectedKeys k = false ->
              assoc k p1 = None -> In k (map fst es).
Proof.
  induction toKeys as [|name rest IH]; intros Hkeys ops.
  - exists []. rewrite app_nil_r. split; [reflexivity|].
    split; [constructor | intros k []].
  - assert (IH' : forall ops', exists es,
              handle_to_keys expectedKeys rest (VObject r1 p1) (VObject r2 p2) ops'
                = Ok (ops' ++ es) /\
              Forall (fair_entry p1 p2) es /\
              forall k, In k rest -> isExpectedKey expectedKeys k = false ->
                        assoc k p1 = None -> In k (map fst es)).
    { apply IH. intros k Hk. apply Hkeys. right. exact Hk. }
    clear IH. cbn [handle_to_keys].
    destruct (isExpectedKey expectedKeys name) eqn:Eexp.
    + destruct (IH' ops) as (es & Hes & Hfair & Hcov).
      exists es. split; [exact Hes|]. split; [exact Hfair|].
      intros k [<-|Hk] Hk'; [congruence | exact (Hcov k Hk Hk')].
    + destruct (Hkeys name (or_introl eq_refl)) as [t Et].
      rewrite hasOwnProperty_object, get_object, Et.
      destruct (assoc name p1) as [f|] eqn:Ef; cbn [bind negb].
      * destruct (IH' ops) as (es & Hes & Hfair & Hcov).
        exists es. split; [exact Hes|]. split; [exact Hfair|].
        intros k [<-|Hk] Hk' Hnone; [congruence | exact (Hcov k Hk Hk' Hnone)].
      * destruct (IH' (push ops (name, add t))) as (es & Hes & Hfair & Hcov).
        exists ((name, Add t) :: es). unfold push in Hes. rewrite <- app_assoc in Hes.
        split; [exact Hes|]. split.
        -- constructor; [|exact Hfair].
           apply fair_Add; [assumption.. | exact (Hrefl2 _ _ Et)].
        -- intros k [<-|Hk] Hk' Hnone; [left; reflexivity|].
           right. exact (Hcov k Hk Hk' Hnone).
Qed.

Lemma In_keys_of_kind k b (props : list (PropertyKey * Value)) v :
  assoc k props = Some v -> is_string_key k = b ->
  In k (filter (fun k => Bool.eqb (is_string_key k) b) (map fst props)).
Proof.
  intros Hk Hb. apply filter_In. split.
  - apply In_keys_assoc. eauto.
  - rewrite Hb. apply Bool.eqb_reflx.
Qed.

Lemma keys_of_kind_In k b (props : list (PropertyKey * Value)) :
  In k (filter (fun k => Bool.eqb (is_string_key k) b) (map fst props)) ->
  is_string_key k = b /\ exists v, assoc k props = Some v.
Proof.
  intros H. apply filter_In in H. destruct H as [Hin Hb].
  split; [apply Bool.eqb_prop; exact Hb | apply In_keys_assoc; exact Hin].
Qed.

(** The entries of the index signatures are fair, and cover every
    undeclared key of a kind some signature ranges over. *)
Lemma index_signatures_fair (indexSignatures : list (AST * Differ)) :
  (forall parameter differ, In (parameter, differ) indexSignatures ->
     returns_positional differ /\
     exists b, key_kind parameter = Some b /\
       forall k f t, is_string_key k = b -> isExpectedKey expectedKeys k = false ->
         assoc k p1 = Some f -> assoc k p2 = Some t -> two_way differ f t) ->
  forall ops,
  exists es,
    handle_index_signatures indexSignatures expectedKeys (VObject r1 p1) (VObject r2 p2) ops
      = Ok (ops ++ es) /\
    Forall (fair_entry p1 p2) es /\
    forall k, isExpectedKey expectedKeys k = false ->
      (exists parameter differ, In (parameter, differ) indexSignatures /\
                                key_kind parameter = Some (is_string_key k)) ->
      assoc k p1 <> None \/ assoc k p2 <> None ->
      covered p1 p2 (map fst es) k.
Proof.
  induction indexSignatures as [|[parameter differ] rest IH]; intros Hsigs ops.
  - exists []. rewrite app_nil_r. split; [reflexivity|]. split; [constructor|].
    intros k _ (param & d & [] & _).
  - destruct (Hsigs parameter differ (or_introl eq_refl)) as (Hpos & b & Hkind & Htwo).
    cbn [handle_index_signatures]. rewrite !(getKeys_object _ _ _ _ Hkind). cbn [bind].
    destruct (from_keys_fair differ
                (filter (fun k => Bool.eqb (is_string_key k) b) (map fst p1)) Hpos)
      with (ops := ops) as (es1 & Hes1 & Hfair1 & Hcov1).
    { intros k Hk. exact (proj2 (keys_of_kind_In k b p1 Hk)). }
    { intros k f t Hk. apply Htwo. exact (proj1 (keys_of_kind_In k b p1 Hk)). }
    rewrite Hes1. cbn [bind].
    destruct (to_keys_fair (filter (fun k => Bool.eqb (is_string_key k) b) (map fst p2)))
      with (ops := ops ++ es1) as (es2 & Hes2 & Hfair2 & Hcov2).
    { intros k Hk. exact (proj2 (keys_of_kind_In k b p2 Hk)). }
    rewrite Hes2. cbn [bind].
    destruct (IH (fun param d Hin => Hsigs param d (or_intror Hin)) ((ops ++ es1) ++ es2))
      as (es3 & Hes3 & Hfair3 & Hcov3).
    exists (es1 ++ es2 ++ es3). rewrite Hes3, <- !app_assoc.
    split; [reflexivity|]. split.
    { apply Forall_app. split; [exact Hfair1|]. apply Forall_app. split; assumption. }
    intros k Hexp (param & d & Hin & Hparam) Hpresent.
    destruct Hin as [Heq|Hin].
    + injection Heq as <- <-. rewrite Hkind in Hparam. injection Hparam as ->.
      destruct (assoc k p1) as [f|] eqn:Ef.
      * apply (covered_mono p1 p2 (map fst es1)).
        { intros x Hx. rewrite map_app. apply in_or_app. left. exact Hx. }
        apply Hcov1; [|exact Hexp]. exact (In_keys_of_kind k _ p1 f Ef eq_refl).
      * destruct (assoc k p2) as [t|] eqn:Et; [|destruct Hpresent; congruence].
        left. rewrite !map_app. apply in_or_app. right. apply in_or_app. left.
        apply Hcov2; [|exact Hexp | exact Ef]. exact (In_keys_of_kind k _ p2 t Et eq_refl).
    + apply (covered_mono p1 p2 (map fst es3)).
      { intros x Hx. rewrite !map_app. apply in_or_app. right.
        apply in_or_app. right. exact Hx. }
      apply Hcov3; [exact Hexp | eauto | exact Hpresent].
Qed.

End IndexSignatures.

(** *** Tuples *)

Lemma array_set_middle Q x l r :
  array_set (Q ++ x :: l) (List.length Q) r = Q ++ r :: l.
Proof. induction Q as [|q Q IH]; cbn [app List.length array_set]; [|rewrite IH]; reflexivity. Qed.

Lemma nth_middle_eq (P1 P2 : list Value) y l d :
  List.length P1 = List.length P2 -> nth (List.length P1) (P2 ++ y :: l) d = y.
Proof. intros ->. apply nth_middle. Qed.

Lemma reverse_array_result es :
  op (reverse (array_result es)) = op (array_result (reverse_entries es)).
Proof. destruct es; reflexivity. Qed.

(** The tuple loops, position by position: the entries are computed;
    applying them rewrites the items of [from] into items equal to those
    of [to], and applying the reversed entries rewrites the items of [to]
    into items equal to those of [from].  [P1] and [P2] are the items
    before the current position, [Q] what the copy holds there. *)
Lemma tuple_two_way thunks fuel r1 r2 :
  (forall ast differ from to,
     go fuel thunks ast = Some differ ->
     has_shape thunks ast from -> has_shape thunks ast to ->
     two_way differ from to) ->
  forall elements differs,
    Forall2 (fun e d => go fuel thunks (Element.type e) = Some d) elements differs ->
    forall l1 l2,
      Forall2 (fun e v => has_shape thunks (Element.type e) v) elements l1 ->
      Forall2 (fun e v => has_shape thunks (Element.type e) v) elements l2 ->
      forall P1 P2,
        List.length P1 = List.length P2 ->
        exists es,
          element_entries differs (List.length P1) (P1 ++ l1) (P2 ++ l2) = Ok es /\
          (forall Q next,
             List.length Q = List.length P1 ->
             exists out next',
               run_array_entries (VArray r1 (P1 ++ l1)) es (Q ++ l1) next
                 = Ok (Q ++ out, next') /\
               Forall2 (fun x y => equals x y = true) out l2) /\
          (forall Q next,
             List.length Q = List.length P1 ->
             exists out next',
               run_array_entries (VArray r2 (P2 ++ l2)) (reverse_entries es) (Q ++ l2) next
                 = Ok (Q ++ out, next') /\
               Forall2 (fun x y => equals x y = true) out l1).
Proof.
  intros HRT elements differs H.
  induction H as [|e d elements differs Hgo _ IH]; intros l1 l2 H1 H2 P1 P2 Hlen.
  - inversion H1; subst. inversion H2; subst.
    exists []. split; [reflexivity|].
    split; intros Q next _; exists [], next; (split; [reflexivity | constructor]).
  - inversion H1 as [|? x ? l1' Hx Hl1]; subst.
    inversion H2 as [|? y ? l2' Hy Hl2]; subst.
    destruct (HRT _ _ _ _ Hgo Hx Hy) as (p & Hp & Hfw & Hbw).
    unfold reverse in Hbw. cbn [op] in Hbw.
    assert (Hlen' : List.length (P1 ++ [x]) = List.length (P2 ++ [y]))
      by (rewrite !length_app; cbn [List.length]; lia).
    destruct (IH l1' l2' Hl1 Hl2 (P1 ++ [x]) (P2 ++ [y]) Hlen')
      as (es' & Hes' & Hloop & Hback).
    rewrite <- !app_assoc in Hes'. cbn [app] in Hes'.
    rewrite length_app in Hes'. cbn [List.length] in Hes'.
    rewrite Nat.add_1_r in Hes'.
    cbn [element_entries].
    rewrite nth_middle, (nth_middle_eq P1 P2 y l2' VUndefined Hlen), Hp. cbn [bind].
    rewrite Hes'. cbn [bind].
    eexists. split; [reflexivity|].
    assert (Hroot : is_add_or_remove (op p) = false)
      by exact (proj2 (go_returns_positional _ _ _ _ Hgo _ _ _ Hp)).
    destruct (isIdentical (op p)) eqn:Eid; cbn [app reverse_entries map].
    + apply isIdentical_true in Eid. rewrite Eid in Hfw, Hbw. cbn [reverseOp] in Hbw.
      split; intros Q next HQ.
      * destruct (Hfw next) as (r & next1 & Hr & Heq). cbn [runOp] in Hr.
        injection Hr as <- <-.
        destruct (Hloop (Q ++ [x]) next) as (out & next' & Hout & Hall).
        { rewrite !length_app. cbn [List.length]. lia. }
        rewrite <- !app_assoc in Hout. cbn [app] in Hout.
        exists (x :: out), next'. split; [exact Hout|].
        constructor; [exact Heq | exact Hall].
      * destruct (Hbw next) as (r & next1 & Hr & Heq). cbn [runOp] in Hr.
        injection Hr as <- <-.
        destruct (Hback (Q ++ [y]) next) as (out & next' & Hout & Hall).
        { rewrite !length_app. cbn [List.length]. lia. }
        rewrite <- !app_assoc in Hout. cbn [app] in Hout.
        exists (y :: out), next'. split; [exact Hout|].
        constructor; [exact Heq | exact Hall].
    + split; intros Q next HQ.
      * destruct (Hfw next) as (r & next1 & Hr & Heq).
        rewrite (run_array_entries_nested _ _ _ _ _ _ Hroot Eid).
        cbn [get_index]. rewrite nth_middle. cbn [bind]. rewrite Hr. cbn [bind].
        rewrite <- HQ, array_set_middle.
        destruct (Hloop (Q ++ [r]) next1) as (out & next' & Hout & Hall).
        { rewrite !length_app. cbn [List.length]. lia. }
        rewrite <- !app_assoc in Hout. cbn [app] in Hout.
        exists (r :: out), next'. split; [exact Hout|].
        constructor; [exact Heq | exact Hall].
      * destruct (Hbw next) as (r & next1 & Hr & Heq).
        rewrite (reverseNestedOp_root _ Hroot).
        rewrite run_array_entries_nested;
          [| rewrite is_add_or_remove_reverseOp; exact Hroot
           | rewrite isIdentical_reverseOp; exact Eid].
        cbn [get_index]. rewrite (nth_middle_eq P1 P2 y l2' VUndefined Hlen).
        cbn [bind]. rewrite Hr. cbn [bind].
        rewrite <- HQ, array_set_middle.
        destruct (Hback (Q ++ [r]) next1) as (out & next' & Hout & Hall).
        { rewrite !length_app. cbn [List.length]. lia. }
        rewrite <- !app_assoc in Hout. cbn [app] in Hout.
        exists (r :: out), next'. split; [exact Hout|].
        constructor; [exact Heq | exact Hall].
Qed.

Lemma array_patch_applies r1 l1 r2 l2 es :
  (forall Q next,
     List.length Q = 0 ->
     exists out next',
       run_array_entries (VArray r1 l1) es (Q ++ l1) next = Ok (Q ++ out, next') /\
       Forall2 (fun x y => equals x y = true) out l2) ->
  applies_to (op (array_result es)) (VArray r1 l1) (VArray r2 l2).
Proof.
  intros Hloop next. destruct es as [|entry es]; cbn [array_result op].
  - destruct (Hloop [] next eq_refl) as (out & next' & Hout & Hall).
    cbn [app] in Hout. injection Hout as <- <-.
    exists (VArray r1 l1), next. split; [reflexivity|].
    apply equals_arrays. exact Hall.
  - rewrite runOp_ArrayOps.
    destruct (Hloop [] (S next) eq_refl) as (out & next' & Hout & Hall).
    cbn [app] in Hout. rewrite Hout. cbn [bind].
    eexists. eexists. split; [reflexivity|].
    apply equals_arrays. exact Hall.
Qed.

(** *** Type literals *)

Lemma Forall2_length_eq {A B : Type} (R : A -> B -> Prop) l l' :
  Forall2 R l l' -> List.length l = List.length l'.
Proof. induction 1; cbn [List.length]; congruence. Qed.

Lemma map_fst_combine {A B : Type} (l1 : list A) (l2 : list B) :
  List.length l1 = List.length l2 -> map fst (combine l1 l2) = l1.
Proof.
  revert l2. induction l1 as [|x l1 IH]; intros [|y l2] H; try discriminate H;
    [reflexivity|].
  cbn [combine map fst]. rewrite IH; [reflexivity|]. injection H as H. exact H.
Qed.

(** What a compiled list pairs: each key of a signature with the differ of
    that signature. *)
Lemma In_combine_map {A K : Type} (key : A -> K) (R : A -> Differ -> Prop) l ds :
  Forall2 R l ds ->
  (forall k d, In (k, d) (combine (map key l) ds) ->
               exists x, In x l /\ key x = k /\ R x d) /\
  (forall x, In x l -> exists d, In (key x, d) (combine (map key l) ds) /\ R x d).
Proof.
  induction 1 as [|x0 d0 l ds HR _ [IH1 IH2]]; cbn [map combine].
  - split; [intros k d [] | intros x []].
  - split.
    + intros k d [Heq|Hin].
      * injection Heq as <- <-. exists x0. split; [left; reflexivity|]. split; [reflexivity|exact HR].
      * destruct (IH1 _ _ Hin) as (x & Hx & Hk & HRx).
        exists x. split; [right; exact Hx | split; assumption].
    + intros x [<-|Hin].
      * exists d0. split; [left; reflexivity | exact HR].
      * destruct (IH2 _ Hin) as (d & Hd & HRx).
        exists d. split; [right; exact Hd | exact HRx].
Qed.

Lemma NoDup_map_injective {A B : Type} (g : A -> B) l :
  NoDup (map g l) -> forall x y, In x l -> In y l -> g x = g y -> x = y.
Proof.
  induction l as [|a l IH]; intros Hnd x y Hx Hy Hg; [contradiction Hx|].
  cbn [map] in Hnd. inversion Hnd as [|? ? Hnot Hnd']; subst.
  destruct Hx as [<-|Hx], Hy as [<-|Hy].
  - reflexivity.
  - contradiction Hnot. rewrite Hg. apply in_map. exact Hy.
  - contradiction Hnot. rewrite <- Hg. apply in_map. exact Hx.
  - exact (IH Hnd' x y Hx Hy Hg).
Qed.

(** What the rule of [has_shape] for type literals gives on the property
    table: the property of a declared name has the shape of its signature,
    an undeclared property falls under an index signature and has the
    shape of every index signature of its kind. *)
Lemma shaped_properties thunks propertySignatures indexSignatures
    (props : list (PropertyKey * Value)) :
  NoDup (map (@PropertySignature.name AST) propertySignatures) ->
  (forall k v, In (k, v) props ->
     (exists ps, In ps propertySignatures /\ PropertySignature.name ps = k /\
                 has_shape thunks (PropertySignature.type ps) v) \/
     (~ In k (map (@PropertySignature.name AST) propertySignatures) /\
      (exists sig, In sig indexSignatures /\
                   key_kind (IndexSignature.parameter sig) = Some (is_string_key k)) /\
      (forall sig, In sig indexSignatures ->
         key_kind (IndexSignature.parameter sig) = Some (is_string_key k) ->
         has_shape thunks (IndexSignature.type sig) v))) ->
  (forall ps v, In ps propertySignatures ->
     assoc (PropertySignature.name ps) props = Some v ->
     has_shape thunks (PropertySignature.type ps) v) /\
  (forall k v, ~ In k (map (@PropertySignature.name AST) propertySignatures) ->
     assoc k props = Some v ->
     (exists sig, In sig indexSignatures /\
                  key_kind (IndexSignature.parameter sig) = Some (is_string_key k)) /\
     (forall sig, In sig indexSignatures ->
        key_kind (IndexSignature.parameter sig) = Some (is_string_key k) ->
        has_shape thunks (IndexSignature.type sig) v)).
Proof.
  intros Hnames Hprops. split.
  - intros ps v Hps Hv. apply assoc_In in Hv.
    destruct (Hprops _ _ Hv) as [(ps' & Hps' & Hname & Hshape)|(Hnot & _)].
    + assert (ps' = ps) by (apply (NoDup_map_injective _ _ Hnames); assumption).
      subst ps'. exact Hshape.
    + contradiction Hnot. apply in_map. exact Hps.
  - intros k v Hnot Hv. apply assoc_In in Hv.
    destruct (Hprops _ _ Hv) as [(ps' & Hps' & Hname & _)|(_ & Hsome & Hall)].
    + contradiction Hnot. rewrite <- Hname. apply in_map. exact Hps'.
    + split; assumption.
Qed.

Lemma shaped_properties_refl thunks propertySignatures indexSignatures
    (props : list (PropertyKey * Value)) :
  (forall k v, In (k, v) props ->
     (exists ps, In ps propertySignatures /\ PropertySignature.name ps = k /\
                 has_shape thunks (PropertySignature.type ps) v) \/
     (~ In k (map (@PropertySignature.name AST) propertySignatures) /\
      (exists sig, In sig indexSignatures /\
                   key_kind (IndexSignature.parameter sig) = Some (is_string_key k)) /\
      (forall sig, In sig indexSignatures ->
         key_kind (IndexSignature.parameter sig) = Some (is_string_key k) ->
         has_shape thunks (IndexSignature.type sig) v))) ->
  forall k v, assoc k props = Some v -> equals v v = true.
Proof.
  intros Hprops k v Hv. apply assoc_In in Hv.
  destruct (Hprops _ _ Hv) as [(ps & _ & _ & Hshape)|(_ & (sig & Hsig & Hkind) & Hall)].
  - exact (equals_refl_shaped _ _ _ Hshape).
  - exact (equals_refl_shaped _ _ _ (Hall sig Hsig Hkind)).
Qed.

(** *** Every supported shape *)

(** For every shape [go] compiles and every two values of that shape
    among the supported ones, the differ returns a patch; the patch
    applied to [from] gives a value structurally equal to [to], and the
    reversed patch applied to [to] gives a value structurally equal to
    [from]. *)
Lemma go_two_way thunks :
  forall fuel ast differ from to,
    go fuel thunks ast = Some differ ->
    has_shape thunks ast from -> has_shape thunks ast to ->
    two_way differ from to.
Proof.
  induction fuel as [|fuel IH]; intros ast differ from to Hgo Hf Ht; [discriminate Hgo|].
  destruct Hf as [x|ast from Hleaf Hprim|base from Hf|f from Hf|elements rest r1 items1 Hf
                  |pss iss r1 p1 Hnames Hkeys1 Hproto1 Hkinds Hprops1].
  - inversion Ht as [y | ? ? Hleaf' | | | |]; subst; [|discriminate Hleaf'].
    rewrite go_number in Hgo. injection Hgo as <-. apply number_leaf_two_way.
  - rewrite (go_strict_leaf _ _ _ Hleaf) in Hgo. injection Hgo as <-.
    apply strict_leaf_two_way; [exact Hprim|].
    inversion Ht as [y | ? ? _ Hprim' | ? ? Ht' | ? ? Ht' | |]; subst;
      try discriminate Hleaf; exact Hprim'.
  - inversion Ht as [| ? ? Hleaf' | ? ? Ht' | | |]; subst; [discriminate Hleaf'|].
    exact (IH _ _ _ _ Hgo Hf Ht').
  - inversion Ht as [| ? ? Hleaf' | | ? ? Ht' | |]; subst; [discriminate Hleaf'|].
    exact (IH _ _ _ _ Hgo Hf Ht').
  - inversion Ht as [| ? ? Hleaf' | | | ? ? r2 items2 Ht' |]; subst; [discriminate Hleaf'|].
    cbn [go] in Hgo.
    destruct (traverse (fun e => go fuel thunks (Element.type e)) elements)
      as [differs|] eqn:E; [|discriminate Hgo].
    injection Hgo as <-.
    destruct (tuple_two_way thunks fuel r1 r2 IH elements differs
                (traverse_Forall2 _ _ _ E) items1 items2 Hf Ht' [] [] eq_refl)
      as (es & Hes & Hloop & Hback).
    cbn [app List.length] in Hes, Hloop, Hback.
    unfold two_way. rewrite handle_elements_spec, Hes. cbn [bind app].
    exists (array_result es). split; [destruct es; reflexivity|]. split.
    + apply array_patch_applies. exact Hloop.
    + rewrite reverse_array_result. apply array_patch_applies. exact Hback.
  - inversion Ht as [| ? ? Hleaf' | | | | ? ? r2 p2 _ Hkeys2 Hproto2 _ Hprops2]; subst;
      [discriminate Hleaf'|].
    cbn [go] in Hgo.
    destruct (traverse (fun ps => go fuel thunks (PropertySignature.type ps)) pss)
      as [differs|] eqn:E; [|discriminate Hgo].
    destruct (traverse (fun sig => go fuel thunks (IndexSignature.type sig)) iss)
      as [differs'|] eqn:E'; [|discriminate Hgo].
    injection Hgo as <-.
    destruct (In_combine_map (@PropertySignature.name AST) _ _ _ (traverse_Forall2 _ _ _ E))
      as [Hfields _].
    destruct (In_combine_map (@IndexSignature.parameter AST) _ _ _ (traverse_Forall2 _ _ _ E'))
      as [Hsigs Hsigs'].
    destruct (shaped_properties thunks pss iss p1 Hnames Hprops1) as [Hdecl1 Hund1].
    destruct (shaped_properties thunks pss iss p2 Hnames Hprops2) as [Hdecl2 Hund2].
    pose proof (shaped_properties_refl thunks pss iss p1 Hprops1) as Hrefl1.
    pose proof (shaped_properties_refl thunks pss iss p2 Hprops2) as Hrefl2.
    set (names := map (@PropertySignature.name AST) pss) in *.
    set (parameters := map (@IndexSignature.parameter AST) iss) in *.
    assert (Hfst : map fst (combine names differs) = names).
    { apply map_fst_combine. unfold names. rewrite length_map.
      exact (Forall2_length_eq _ _ _ (traverse_Forall2 _ _ _ E)). }
    destruct (fields_fair p1 p2 Hrefl1 Hrefl2 (combine names differs))
      as (es1 & Hes1 & Hfair1 & Hcov1).
    { intros name d f t Hin Ef Et.
      destruct (Hfields name d Hin) as (ps & Hps & <- & Hd).
      exact (IH _ _ _ _ Hd (Hdecl1 ps f Hps Ef) (Hdecl2 ps t Hps Et)). }
    { intros name d Hin.
      destruct (Hfields name d Hin) as (ps & _ & _ & Hd).
      exact (go_returns_positional _ _ _ _ Hd). }
    destruct (index_signatures_fair r1 p1 r2 p2 (expected_keys names) Hrefl1 Hrefl2
                (combine parameters differs'))
      with (ops := es1) as (es2 & Hes2 & Hfair2 & Hcov2).
    { intros parameter d Hin.
      destruct (Hsigs parameter d Hin) as (sig & Hsig & <- & Hd).
      split; [exact (go_returns_positional _ _ _ _ Hd)|].
      destruct (key_kind (IndexSignature.parameter sig)) as [b|] eqn:Eb;
        [|contradiction (Hkinds sig Hsig Eb)].
      exists b. split; [reflexivity|].
      intros k f t <- Hexp Ef Et.
      apply unexpected_undeclared in Hexp; [|exact (assoc_key_not_proto _ _ _ Hproto1 Ef)].
      exact (IH _ _ _ _ Hd (proj2 (Hund1 k f Hexp Ef) sig Hsig Eb)
                           (proj2 (Hund2 k t Hexp Et) sig Hsig Eb)). }
    unfold two_way. rewrite handle_property_signatures_spec, Hes1. cbn [bind app].
    rewrite Hes2. cbn [bind].
    exists (object_result (es1 ++ es2)).
    split; [destruct (es1 ++ es2); reflexivity|].
    apply object_patch_two_way; try assumption.
    { apply Forall_app. split; assumption. }
    intros k. rewrite map_app.
    destruct (in_dec PropertyKey_eq_dec k names) as [Hin|Hnin].
    { apply (covered_mono p1 p2 (map fst es1)).
      - intros x Hx. apply in_or_app. left. exact Hx.
      - apply Hcov1. rewrite Hfst. exact Hin. }
    assert (Hexp : isExpectedKey (expected_keys names) k = false)
      by (apply undeclared_unexpected; exact Hnin).
    assert (Hsome : forall p v,
              (forall k v, ~ In k names -> assoc k p = Some v ->
                 (exists sig, In sig iss /\
                    key_kind (IndexSignature.parameter sig) = Some (is_string_key k)) /\
                 (forall sig, In sig iss ->
                    key_kind (IndexSignature.parameter sig) = Some (is_string_key k) ->
                    has_shape thunks (IndexSignature.type sig) v)) ->
              assoc k p = Some v ->
              exists parameter d, In (parameter, d) (combine parameters differs') /\
                                  key_kind parameter = Some (is_string_key k)).
    { intros p v Hund Hv.
      destruct (proj1 (Hund k v Hnin Hv)) as (sig & Hsig & Hkind).
      destruct (Hsigs' sig Hsig) as (d & Hd & _).
      exists (IndexSignature.parameter sig), d. split; assumption. }
    destruct (assoc k p1) as [f|] eqn:Ef.
    { apply (covered_mono p1 p2 (map fst es2)).
      - intros x Hx. apply in_or_app. right. exact Hx.
      - apply Hcov2; [exact Hexp | exact (Hsome p1 f Hund1 Ef) | left; congruence]. }
    destruct (assoc k p2) as [t|] eqn:Et.
    { apply (covered_mono p1 p2 (map fst es2)).
      - intros x Hx. apply in_or_app. right. exact Hx.
      - apply Hcov2; [exact Hexp | exact (Hsome p2 t Hund2 Et) | right; congruence]. }
    right. rewrite Ef, Et. split; exact I.
Qed.

(** ** Round trip on the supported shapes *)

(** X6: round trip, where it holds: for every shape [go] compiles and
    every two values of that shape among the supported ones
    ([has_shape]: numbers at number leaves, primitives other than numbers
    at the other leaves, one item per declared tuple element, objects
    with distinct own keys, no own key ["__proto__"] and no excess
    property), the differ returns a patch, and applying the patch to
    [from] returns a value structurally equal to [to]. *)
Theorem go_round_trips thunks :
  forall fuel ast differ from to,
    go fuel thunks ast = Some differ ->
    has_shape thunks ast from -> has_shape thunks ast to ->
    round_trips differ from to.
Proof.
  intros fuel ast differ from to Hgo Hf Ht.
  destruct (go_two_way thunks fuel ast differ from to Hgo Hf Ht) as (patch & Hp & Hfw & _).
  exists patch. split; assumption.
Qed.

(** ** Reversal on the supported shapes *)

(** X7: reversibility, where it holds: on the supported shapes and
    values ([has_shape], as for the round trip: in particular objects
    without an own key ["__proto__"] and without excess property) the
    differ returns a patch, and the reversed patch applied to [to]
    returns a value structurally equal to [from]. *)
Theorem go_reversal thunks :
  forall fuel ast differ from to,
    go fuel thunks ast = Some differ ->
    has_shape thunks ast from -> has_shape thunks ast to ->
    exists patch,
      differ from to = Ok patch /\
      forall next, exists out next',
        runPatch (reverse patch) to next = Ok (out, next') /\ equals out from = true.
Proof.
  intros fuel ast differ from to Hgo Hf Ht.
  destruct (go_two_way thunks fuel ast differ from to Hgo Hf Ht) as (patch & Hp & _ & Hbw).
  exists patch. split; [exact Hp | exact Hbw].
Qed.

(** ** Identity on the supported shapes *)

Lemma strict_equals_refl_primitive a :
  non_number_primitive a = true -> strict_equals a a = true.
Proof.
  destruct a; intros H; try discriminate H; cbn;
    auto using Bool.eqb_reflx, Z.eqb_refl, String.eqb_refl.
Qed.

Lemma tuple_identity thunks fuel :
  (forall ast differ a,
     go fuel thunks ast = Some differ -> has_shape thunks ast a ->
     differ a a = Ok (make Identical)) ->
  forall elements differs,
    Forall2 (fun e d => go fuel thunks (Element.type e) = Some d) elements differs ->
    forall l,
      Forall2 (fun e v => has_shape thunks (Element.type e) v) elements l ->
      forall P, element_entries differs (List.length P) (P ++ l) (P ++ l) = Ok [].
Proof.
  intros Hid elements differs H.
  induction H as [|e d elements differs Hgo _ IH]; intros l Hl P; [reflexivity|].
  inversion Hl as [|? x ? l' Hx Hl']; subst.
  cbn [element_entries]. rewrite nth_middle, (Hid _ _ _ Hgo Hx). cbn [bind op isIdentical].
  specialize (IH l' Hl' (P ++ [x])).
  rewrite <- app_assoc, length_app in IH. cbn [app List.length] in IH.
  rewrite Nat.add_1_r in IH. rewrite IH. reflexivity.
Qed.

Lemma struct_identity p :
  forall fields : list (PropertyKey * Differ),
    (forall name d f, In (name, d) fields -> assoc name p = Some f ->
                      d f f = Ok (make Identical)) ->
    field_entries fields p p = Ok [].
Proof.
  induction fields as [|[name d] fields IH]; intros Hfields; [reflexivity|].
  cbn [field_entries]. unfold field_entry.
  rewrite IH; [|intros n' d' f' Hin; apply Hfields; right; exact Hin].
  destruct (assoc name p) as [f|] eqn:Ef; [|reflexivity].
  rewrite (Hfields name d f (or_introl eq_refl) Ef). reflexivity.
Qed.

Lemma from_keys_identity r p differ expectedKeys :
  forall fromKeys ops,
    (forall k, In k fromKeys -> isExpectedKey expectedKeys k = false ->
       exists v, assoc k p = Some v /\ differ v v = Ok (make Identical)) ->
    handle_from_keys differ expectedKeys fromKeys (VObject r p) (VObject r p) ops = Ok ops.
Proof.
  induction fromKeys as [|name rest IH]; intros ops Hkeys; [reflexivity|].
  cbn [handle_from_keys].
  assert (Hrest : handle_from_keys differ expectedKeys rest (VObject r p) (VObject r p) ops
                  = Ok ops).
  { apply IH. intros k Hk. apply Hkeys. right. exact Hk. }
  destruct (isExpectedKey expectedKeys name) eqn:Eexp; [exact Hrest|].
  destruct (Hkeys name (or_introl eq_refl) Eexp) as (v & Hv & Hd).
  rewrite hasOwnProperty_object, !get_object, Hv. cbn [bind]. rewrite Hd.
  cbn [bind op isIdentical negb]. exact Hrest.
Qed.

Lemma to_keys_identity r p expectedKeys :
  forall toKeys ops,
    (forall k, In k toKeys -> exists v, assoc k p = Some v) ->
    handle_to_keys expectedKeys toKeys (VObject r p) (VObject r p) ops = Ok ops.
Proof.
  induction toKeys as [|name rest IH]; intros ops Hkeys; [reflexivity|].
  cbn [handle_to_keys].
  assert (Hrest : handle_to_keys expectedKeys rest (VObject r p) (VObject r p) ops = Ok ops).
  { apply IH. intros k Hk. apply Hkeys. right. exact Hk. }
  destruct (isExpectedKey expectedKeys name) eqn:Eexp; [exact Hrest|].
  destruct (Hkeys name (or_introl eq_refl)) as (v & Hv).
  rewrite hasOwnProperty_object, Hv. cbn [bind negb]. exact Hrest.
Qed.

Lemma index_signatures_identity r p expectedKeys :
  forall (indexSignatures : list (AST * Differ)) ops,
    (forall parameter differ, In (parameter, differ) indexSignatures ->
       exists b, key_kind parameter = Some b /\
         forall k v, is_string_key k = b -> isExpectedKey expectedKeys k = false ->
           assoc k p = Some v -> differ v v = Ok (make Identical)) ->
    handle_index_signatures indexSignatures expectedKeys (VObject r p) (VObject r p) ops
      = Ok ops.
Proof.
  induction indexSignatures as [|[parameter differ] rest IH]; intros ops Hsigs;
    [reflexivity|].
  destruct (Hsigs parameter differ (or_introl eq_refl)) as (b & Hkind & Hid).
  cbn [handle_index_signatures]. rewrite !(getKeys_object _ _ _ _ Hkind). cbn [bind].
  rewrite from_keys_identity.
  - cbn [bind]. rewrite to_keys_identity.
    + cbn [bind]. apply IH. intros param d Hin. apply Hsigs. right. exact Hin.
    + intros k Hk. exact (proj2 (keys_of_kind_In k b p Hk)).
  - intros k Hk Hexp. destruct (keys_of_kind_In k b p Hk) as [Hb [v Hv]].
    exists v. split; [exact Hv | exact (Hid k v Hb Hexp Hv)].
Qed.

(** X8: identity, where it holds: a value of a supported shape
    ([has_shape]: in particular an object has no own key ["__proto__"]
    and no excess property, and a leaf other than the number shape holds
    no number) diffed against itself gives [Identical]. *)
Theorem go_identity thunks :
  forall fuel ast differ a,
    go fuel thunks ast = Some differ ->
    has_shape thunks ast a ->
    differ a a = Ok (make Identical).
Proof.
  induction fuel as [|fuel IH]; intros ast differ a Hgo Ha; [discriminate Hgo|].
  destruct Ha as [x|ast a Hleaf Hprim|base a Ha|f a Ha|elements rest r items Ha
                  |pss iss r props Hnames Hkeys Hproto Hkinds Hprops].
  - rewrite go_number in Hgo. injection Hgo as <-. rewrite Object_is_refl. reflexivity.
  - rewrite (go_strict_leaf _ _ _ Hleaf) in Hgo. injection Hgo as <-.
    rewrite (strict_equals_refl_primitive _ Hprim). reflexivity.
  - exact (IH _ _ _ Hgo Ha).
  - exact (IH _ _ _ Hgo Ha).
  - cbn [go] in Hgo.
    destruct (traverse (fun e => go fuel thunks (Element.type e)) elements)
      as [differs|] eqn:E; [|discriminate Hgo].
    injection Hgo as <-. rewrite handle_elements_spec.
    pose proof (tuple_identity thunks fuel IH elements differs
                  (traverse_Forall2 _ _ _ E) items Ha []) as Hes.
    cbn [app List.length] in Hes. rewrite Hes. reflexivity.
  - cbn [go] in Hgo.
    destruct (traverse (fun ps => go fuel thunks (PropertySignature.type ps)) pss)
      as [differs|] eqn:E; [|discriminate Hgo].
    destruct (traverse (fun sig => go fuel thunks (IndexSignature.type sig)) iss)
      as [differs'|] eqn:E'; [|discriminate Hgo].
    injection Hgo as <-.
    destruct (In_combine_map (@PropertySignature.name AST) _ _ _ (traverse_Forall2 _ _ _ E))
      as [Hfields _].
    destruct (In_combine_map (@IndexSignature.parameter AST) _ _ _ (traverse_Forall2 _ _ _ E'))
      as [Hsigs _].
    destruct (shaped_properties thunks pss iss props Hnames Hprops) as [Hdecl Hund].
    rewrite handle_property_signatures_spec, struct_identity.
    + cbn [bind app]. rewrite index_signatures_identity; [reflexivity|].
      intros parameter d Hin.
      destruct (Hsigs parameter d Hin) as (sig & Hsig & <- & Hd).
      destruct (key_kind (IndexSignature.parameter sig)) as [b|] eqn:Eb;
        [|contradiction (Hkinds sig Hsig Eb)].
      exists b. split; [reflexivity|].
      intros k v <- Hexp Hv.
      apply unexpected_undeclared in Hexp; [|exact (assoc_key_not_proto _ _ _ Hproto Hv)].
      exact (IH _ _ _ Hd (proj2 (Hund k v Hexp Hv) sig Hsig Eb)).
    + intros name d f Hin Ef.
      destruct (Hfields name d Hin) as (ps & Hps & <- & Hd).
      exact (IH _ _ _ Hd (Hdecl ps f Hps Ef)).
Qed.

(** *** On the schemas of the test suite *)

(** The struct [{ a: string, b: number }], its properties in either
    order. *)
Lemma go_round_trips_witness :
  exists differ,
    go 2 no_thunks struct_a_b = Some differ /\
    round_trips differ
      (VObject 1 [(KString "a", VString "a"); (KString "b", number 1)])
      (VObject 2 [(KString "b", number 2); (KString "a", VString "b")]).
Proof.
  eexists. split; [reflexivity|].
  assert (Hshape : forall r props x y,
            props = [(KString "a", VString x); (KString "b", VNumber y)] \/
            props = [(KString "b", VNumber y); (KString "a", VString x)] ->
            has_shape no_thunks struct_a_b (VObject r props)).
  { intros r props x y Hprops. apply shape_TypeLiteral.
    - repeat constructor; cbn; intuition discriminate.
    - destruct Hprops as [-> | ->]; repeat constructor; cbn; intuition discriminate.
    - destruct Hprops as [-> | ->]; cbn; intuition discriminate.
    - intros sig [].
    - intros k v Hin. left.
      assert (Hcases : (k = KString "a" /\ v = VString x) \/ (k = KString "b" /\ v = VNumber y)).
      { destruct Hprops as [-> | ->]; cbn in Hin;
          destruct Hin as [H|[H|[]]]; injection H as <- <-; auto. }
      destruct Hcases as [[-> ->]|[-> ->]].
      + exists (required "a" StringKeyword).
        split; [left; reflexivity|]. split; [reflexivity|].
        apply shape_leaf; reflexivity.
      + exists (required "b" NumberKeyword).
        split; [right; left; reflexivity|]. split; [reflexivity|].
        apply shape_number. }
  apply (go_round_trips no_thunks 2 struct_a_b); [reflexivity | |].
  - apply (Hshape 1 _ "a" (number_of_Z 1)). left. reflexivity.
  - apply (Hshape 2 _ "b" (number_of_Z 2)). right. reflexivity.
Defined.

Lemma NoDup_map_KString (l : list string) : NoDup l -> NoDup (map KString l).
Proof.
  induction 1 as [|x l Hnot _ IH]; cbn [map]; constructor; [|exact IH].
  intros Hin. apply in_map_iff in Hin. destruct Hin as (y & Hy & Hin).
  injection Hy as ->. exact (Hnot Hin).
Qed.

Lemma keys_of_string_table (props : list (string * string)) :
  map fst (map (fun '(k, v) => (KString k, VString v)) props) = map KString (map fst props).
Proof. rewrite !map_map. apply map_ext. intros [k v]. reflexivity. Qed.

(** Every object whose own keys are distinct strings other than
    ["__proto__"] and whose values are strings has the shape of
    [record(string, string)]. *)
Lemma record_string_string_shape r (props : list (string * string)) :
  NoDup (map fst props) -> ~ In "__proto__" (map fst props) ->
  has_shape no_thunks record_string_string
    (VObject r (map (fun '(k, v) => (KString k, VString v)) props)).
Proof.
  intros Hnd Hno. apply shape_TypeLiteral.
  - constructor.
  - rewrite keys_of_string_table. apply NoDup_map_KString. exact Hnd.
  - rewrite keys_of_string_table. intros Hin. apply in_map_iff in Hin.
    destruct Hin as (k & Hk & Hin). injection Hk as ->. exact (Hno Hin).
  - intros sig [<-|[]]. discriminate.
  - intros k v Hin. right. apply in_map_iff in Hin.
    destruct Hin as ([k' v'] & Heq & _). injection Heq as <- <-.
    split; [intros []|]. split.
    + eexists. split; [left; reflexivity | reflexivity].
    + intros sig [<-|[]] _. apply shape_leaf; reflexivity.
Qed.

(** Round trip and reversal on every two such records. *)
Example go_two_way_record :
  exists differ,
    go 2 no_thunks record_string_string = Some differ /\
    forall r1 props1 r2 props2,
      NoDup (map fst props1) -> NoDup (map fst props2) ->
      ~ In "__proto__" (map fst props1) -> ~ In "__proto__" (map fst props2) ->
      two_way differ
        (VObject r1 (map (fun '(k, v) => (KString k, VString v)) props1))
        (VObject r2 (map (fun '(k, v) => (KString k, VString v)) props2)).
Proof.
  eexists. split; [reflexivity|]. intros r1 props1 r2 props2 H1 H2 H3 H4.
  apply (go_two_way no_thunks 2 record_string_string); [reflexivity | |];
    apply record_string_string_shape; assumption.
Qed.

(** ** Well-typed ops *)

Lemma isNestedOp_ObjectOps ops :
  isNestedOp (ObjectOps ops) = true <->
  ops <> [] /\ Forall (fun entry => isNestedOp (snd entry) = true) ops.
Proof.
  cbn [isNestedOp]. rewrite andb_true_iff.
  assert (Hall : (fix all (l : list (PropertyKey * Op)) : bool :=
                    match l with [] => true | (_, o) :: l' => isNestedOp o && all l' end) ops
                 = true <-> Forall (fun entry => isNestedOp (snd entry) = true) ops).
  { induction ops as [|[k o] ops IH]; [split; [constructor | reflexivity]|].
    rewrite andb_true_iff, IH. split.
    - intros [H1 H2]. constructor; assumption.
    - intros H. inversion H; subst. split; assumption. }
  rewrite Hall. destruct ops; cbn [isNonEmptyReadonlyArray];
    split; intros [H1 H2]; split; congruence.
Qed.

Lemma isNestedOp_ArrayOps ops :
  isNestedOp (ArrayOps ops) = true <->
  ops <> [] /\ Forall (fun entry => isNestedOp (snd entry) = true) ops.
Proof.
  cbn [isNestedOp]. rewrite andb_true_iff.
  assert (Hall : (fix all (l : list (nat * Op)) : bool :=
                    match l with [] => true | (_, o) :: l' => isNestedOp o && all l' end) ops
                 = true <-> Forall (fun entry => isNestedOp (snd entry) = true) ops).
  { induction ops as [|[k o] ops IH]; [split; [constructor | reflexivity]|].
    rewrite andb_true_iff, IH. split.
    - intros [H1 H2]. constructor; assumption.
    - intros H. inversion H; subst. split; assumption. }
  rewrite Hall. destruct ops; cbn [isNonEmptyReadonlyArray];
    split; intros [H1 H2]; split; congruence.
Qed.

Lemma isOp_nested op : isOp op = true -> isIdentical op = false -> isNestedOp op = true.
Proof. destruct op; cbn; congruence. Qed.

(** X5: every op a compiled differ returns is an [Op] of the source: it
    is [Identical], a [Replace], or an [ObjectOps] or [ArrayOps] whose
    lists of entries, at every depth, are not empty and hold [NestedOp]s
    (never an [Identical] entry). *)
Lemma go_returns_Op thunks :
  forall fuel ast differ from to patch,
    go fuel thunks ast = Some differ -> differ from to = Ok patch ->
    isOp (op patch) = true.
Proof.
  induction fuel as [|fuel IH]; intros ast differ from to patch Hgo Hp; [discriminate Hgo|].
  assert (Hsub : forall ast differ,
            go fuel thunks ast = Some differ ->
            returns_entries (fun op => isNestedOp op = true) differ).
  { intros ast' d Hd f t p Hdp Hid. exact (isOp_nested _ (IH _ _ _ _ _ Hd Hdp) Hid). }
  destruct ast; cbn [go] in Hgo;
    try (injection Hgo as <-; injection Hp as <-; cbn [op];
         match goal with |- isOp (if ?c then _ else _) = true => destruct c; reflexivity end).
  - exact (IH _ _ _ _ _ Hgo Hp).
  - destruct (traverse (fun e => go fuel thunks (Element.type e)) elements)
      as [elements'|] eqn:Et; [|discriminate Hgo].
    injection Hgo as <-. unbind Hp as ops Eops. injection Hp as <-. cbn [op].
    assert (Hall : Forall (fun entry => isNestedOp (snd entry) = true) ops).
    { eapply (handle_elements_entries (fun op => isNestedOp op = true));
        [|constructor|exact Eops].
      eapply Forall2_Forall_r; [|exact (traverse_Forall2 _ _ _ Et)].
      intros e d Hd. exact (Hsub _ _ Hd). }
    destruct ops as [|entry ops]; [reflexivity|].
    cbn [isNonEmptyReadonlyArray]. unfold arrayOps.
    change (isNestedOp (ArrayOps (entry :: ops)) = true).
    apply isNestedOp_ArrayOps. split; [discriminate | exact Hall].
  - destruct (traverse (fun ps => go fuel thunks (PropertySignature.type ps)) propertySignatures)
      as [fields|] eqn:Ef; [|discriminate Hgo].
    destruct (traverse (fun sig => go fuel thunks (IndexSignature.type sig)) indexSignatures)
      as [indexes|] eqn:Ei; [|discriminate Hgo].
    injection Hgo as <-. unbind Hp as ops1 E1. unbind Hp as ops E2.
    injection Hp as <-. cbn [op].
    assert (Hall : Forall (fun entry => isNestedOp (snd entry) = true) ops).
    { eapply (handle_index_signatures_entries (fun op => isNestedOp op = true));
        [reflexivity | reflexivity | | |exact E2].
      - apply Forall_combine_snd.
        eapply Forall2_Forall_r; [|exact (traverse_Forall2 _ _ _ Ei)].
        intros e d Hd. exact (Hsub _ _ Hd).
      - eapply (handle_property_signatures_entries (fun op => isNestedOp op = true));
          [reflexivity | reflexivity | |constructor|exact E1].
        apply Forall_combine_snd.
        eapply Forall2_Forall_r; [|exact (traverse_Forall2 _ _ _ Ef)].
        intros e d Hd. exact (Hsub _ _ Hd). }
    destruct ops as [|entry ops]; [reflexivity|].
    cbn [isNonEmptyReadonlyArray]. unfold objectOps.
    change (isNestedOp (ObjectOps (entry :: ops)) = true).
    apply isNestedOp_ObjectOps. split; [discriminate | exact Hall].
  - exact (IH _ _ _ _ _ Hgo Hp).
Qed.

(* ===================================================================== *)
(** * Further properties of the code *)
(* ===================================================================== *)

(** ** Reversal of well-typed ops *)

Lemma reverseNestedOp_isNestedOp op :
  isNestedOp op = true -> isNestedOp (reverseNestedOp op) = true.
Proof.
  induction op as [|from to|ops IH|ops IH|value|value] using Op_tree_ind;
    intros H; try exact H; try reflexivity.
  - apply isNestedOp_ObjectOps in H. destruct H as [Hne Hall].
    change (isNestedOp (ObjectOps (reverse_entries ops)) = true).
    apply isNestedOp_ObjectOps. split.
    + destruct ops; [contradiction Hne; reflexivity | discriminate].
    + clear Hne. induction IH as [|[k o] ops Ho _ IHops]; [constructor|].
      inversion Hall as [|? ? Hk Hrest]; subst.
      constructor; [exact (Ho Hk) | exact (IHops Hrest)].
  - apply isNestedOp_ArrayOps in H. destruct H as [Hne Hall].
    change (isNestedOp (ArrayOps (reverse_entries ops)) = true).
    apply isNestedOp_ArrayOps. split.
    + destruct ops; [contradiction Hne; reflexivity | discriminate].
    + clear Hne. induction IH as [|[k o] ops Ho _ IHops]; [constructor|].
      inversion Hall as [|? ? Hk Hrest]; subst.
      constructor; [exact (Ho Hk) | exact (IHops Hrest)].
Qed.

(** X1: [reverse] maps a patch whose op is an [Op] of the source (with
    non-empty entry lists of [NestedOp]s at every depth) to such a patch,
    and reversing twice gives the patch back. *)
Theorem reverse_well_typed_involution patch :
  isOp (op patch) = true ->
  isOp (op (reverse patch)) = true /\ reverse (reverse patch) = patch.
Proof.
  intros H. split; [|apply reverse_involutive].
  destruct patch as [o]. unfold reverse. cbn [op] in *.
  destruct o as [|from to|ops|ops|value|value]; try exact H.
  - exact (reverseNestedOp_isNestedOp (ObjectOps ops) H).
  - exact (reverseNestedOp_isNestedOp (ArrayOps ops) H).
Qed.

Lemma reverse_well_typed_involution_witness :
  let patch :=
    make (ObjectOps [(KString "a", Replace (VString "a") (VString "b"));
                     (KString "b", Remove (number 1));
                     (KString "c", ArrayOps [(0, Add VNull)])]) in
  op (reverse patch) =
    ObjectOps [(KString "a", Replace (VString "b") (VString "a"));
               (KString "b", Add (number 1));
               (KString "c", ArrayOps [(0, Remove VNull)])] /\
  isOp (op (reverse patch)) = true /\ reverse (reverse patch) = patch.
Proof.
  split; [reflexivity|].
  apply (reverse_well_typed_involution
           (make (ObjectOps [(KString "a", Replace (VString "a") (VString "b"));
                             (KString "b", Remove (number 1));
                             (KString "c", ArrayOps [(0, Add VNull)])]))).
  reflexivity.
Defined.

(** ** What [runOp] leaves alone *)

Lemma assoc_assign_other out name v k :
  k <> name -> assoc k (properties (assign out name v)) = assoc k (properties out).
Proof.
  intros Hne. unfold assign.
  destruct (negb (has_own (properties out) name) && PropertyKey_eqb name proto_key
            && has_proto_accessor out); cbn [properties]; [reflexivity|].
  apply assoc_define_property_other. exact Hne.
Qed.

Lemma run_object_entries_others a es :
  forall out next out' next',
    run_object_entries a es out next = Ok (out', next') ->
    forall k, ~ In k (map fst es) -> assoc k (properties out') = assoc k (properties out).
Proof.
  induction es as [|[name subop] es IH]; intros out next out' next' H k Hk.
  - injection H as <- _. reflexivity.
  - cbn [map fst In] in Hk.
    assert (Hne : k <> name) by (intros ->; apply Hk; left; reflexivity).
    assert (Hrest : ~ In k (map fst es)) by (intros Hin; apply Hk; right; exact Hin).
    assert (Hset : forall out1 next1,
              run_object_entries a es (assign out name out1) next1 = Ok (out', next') ->
              assoc k (properties out') = assoc k (properties out)).
    { intros out1 next1 H1. rewrite (IH _ _ _ _ H1 k Hrest).
      apply assoc_assign_other. exact Hne. }
    destruct subop as [|from to|ops|ops|value|value].
    + exact (IH _ _ _ _ H k Hrest).
    + rewrite run_object_entries_nested in H by reflexivity.
      unbind H as v Ev. unbind H as rn Er. destruct rn as [r next1]. exact (Hset _ _ H).
    + rewrite run_object_entries_nested in H by reflexivity.
      unbind H as v Ev. unbind H as rn Er. destruct rn as [r next1]. exact (Hset _ _ H).
    + rewrite run_object_entries_nested in H by reflexivity.
      unbind H as v Ev. unbind H as rn Er. destruct rn as [r next1]. exact (Hset _ _ H).
    + rewrite run_object_entries_Add in H. exact (Hset _ _ H).
    + rewrite run_object_entries_Remove in H. rewrite (IH _ _ _ _ H k Hrest).
      unfold unset. cbn [properties].
      apply assoc_delete_property_other. exact Hne.
Qed.

(** X2: an [ObjectOps] patch is applied to a copy.  When [runOp] returns,
    the result is a new object (at the address allocated for it, whatever
    the input was), and every property that no entry names is the
    property of the input, untouched. *)
Theorem runOp_ObjectOps_keeps_other_properties ops a next v next' :
  runOp (ObjectOps ops) a next = Ok (v, next') ->
  exists out,
    v = VObject next out /\
    forall k, ~ In k (map fst ops) -> assoc k out = assoc k (spread a).
Proof.
  intros H.
  rewrite runOp_ObjectOps in H.
  unbind H as on Eon. destruct on as [out n]. injection H as <- <-.
  exists (properties out). split; [reflexivity|].
  exact (run_object_entries_others a ops _ _ _ _ Eon).
Qed.

Lemma runOp_ObjectOps_keeps_other_properties_witness :
  exists out,
    VObject 7 [(KString "a", VString "b"); (KString "x", VArray 2 [VNull])] = VObject 7 out /\
    forall k, ~ In k [KString "a"; KString "b"] ->
      assoc k out =
      assoc k [(KString "a", VString "a"); (KString "b", VNull); (KString "x", VArray 2 [VNull])].
Proof.
  exact (runOp_ObjectOps_keeps_other_properties
           [(KString "a", Replace (VString "a") (VString "b"));
            (KString "b", Remove VNull)]
           (VObject 1 [(KString "a", VString "a"); (KString "b", VNull);
                       (KString "x", VArray 2 [VNull])])
           7 (VObject 7 [(KString "a", VString "b"); (KString "x", VArray 2 [VNull])])
           8 eq_refl).
Defined.

(** ** Array entries past the end *)

Lemma array_set_past_the_end out i v :
  List.length out <= i ->
  array_set out i v = out ++ repeat VUndefined (i - List.length out) ++ [v].
Proof.
  revert i. induction out as [|x out IH]; intros i H.
  - cbn [List.length app]. rewrite Nat.sub_0_r. clear H.
    induction i as [|i IHi]; [reflexivity|].
    cbn [array_set repeat app]. rewrite IHi. reflexivity.
  - destruct i as [|i]; [cbn in H; lia|].
    cbn [array_set List.length app Nat.sub]. rewrite IH by (cbn in H; lia). reflexivity.
Qed.

(** X3: an entry of an [ArrayOps] node whose index is past the end of the
    array does not fail.  A nested op is assigned at its index, the array
    growing with holes up to it; an insertion appends at the end; a
    removal removes nothing. *)
Theorem runOp_ArrayOps_past_the_end r items next i from to value :
  List.length items <= i ->
  runOp (ArrayOps [(i, Replace from to)]) (VArray r items) next =
    Ok (VArray next (items ++ repeat VUndefined (i - List.length items) ++ [to]), S next) /\
  runOp (ArrayOps [(i, Add value)]) (VArray r items) next =
    Ok (VArray next (items ++ [value]), S next) /\
  runOp (ArrayOps [(i, Remove value)]) (VArray r items) next =
    Ok (VArray next items, S next).
Proof.
  intros H. rewrite !runOp_ArrayOps.
  cbn [run_array_entries get_index runOp bind]. unfold splice_insert, splice_delete.
  rewrite (array_set_past_the_end items i to H).
  rewrite (firstn_all2 items) by exact H.
  rewrite !(skipn_all2 items) by lia.
  rewrite app_nil_r. repeat split; reflexivity.
Qed.

Lemma runOp_ArrayOps_past_the_end_witness :
  runOp (ArrayOps [(3, Replace VUndefined (VString "d"))]) (VArray 1 [VString "a"]) 2 =
    Ok (VArray 2 [VString "a"; VUndefined; VUndefined; VString "d"], 3) /\
  runOp (ArrayOps [(3, Add (VString "d"))]) (VArray 1 [VString "a"]) 2 =
    Ok (VArray 2 [VString "a"; VString "d"], 3) /\
  runOp (ArrayOps [(3, Remove (VString "d"))]) (VArray 1 [VString "a"]) 2 =
    Ok (VArray 2 [VString "a"], 3).
Proof.
  apply (runOp_ArrayOps_past_the_end 1 [VString "a"] 2 3 VUndefined (VString "d") (VString "d")).
  cbn [List.length]. lia.
Defined.

(** ** When compilation returns *)

Lemma traverse_agree {A B : Type} (f1 f2 : A -> option B) l :
  (forall x y1 y2, f1 x = Some y1 -> f2 x = Some y2 -> y1 = y2) ->
  forall l1 l2, traverse f1 l = Some l1 -> traverse f2 l = Some l2 -> l1 = l2.
Proof.
  intros Hf. induction l as [|x l IH]; intros l1 l2 H1 H2; cbn [traverse] in H1, H2.
  - congruence.
  - destruct (f1 x) as [y1|] eqn:E1; [|discriminate H1].
    destruct (f2 x) as [y2|] eqn:E2; [|discriminate H2].
    destruct (traverse f1 l) as [r1|]; [|discriminate H1].
    destruct (traverse f2 l) as [r2|]; [|discriminate H2].
    injection H1 as <-. injection H2 as <-.
    rewrite (Hf _ _ _ E1 E2), (IH r1 r2 eq_refl eq_refl). reflexivity.
Qed.

(** The differ does not depend on the fuel compilation was given. *)
Lemma go_fuel_irrelevant thunks :
  forall fuel1 fuel2 ast d1 d2,
    go fuel1 thunks ast = Some d1 -> go fuel2 thunks ast = Some d2 -> d1 = d2.
Proof.
  induction fuel1 as [|fuel1 IH]; intros fuel2 ast d1 d2 H1 H2; [discriminate H1|].
  destruct fuel2 as [|fuel2]; [discriminate H2|].
  destruct ast; cbn [go] in H1, H2; try congruence.
  - exact (IH _ _ _ _ H1 H2).
  - destruct (traverse (fun e => go fuel1 thunks (Element.type e)) elements)
      as [l1|] eqn:E1; [|discriminate H1].
    destruct (traverse (fun e => go fuel2 thunks (Element.type e)) elements)
      as [l2|] eqn:E2; [|discriminate H2].
    assert (l1 = l2).
    { eapply traverse_agree; [|exact E1|exact E2]. intros x y1 y2. apply IH. }
    subst l2. congruence.
  - destruct (traverse (fun ps => go fuel1 thunks (PropertySignature.type ps))
                propertySignatures) as [l1|] eqn:E1; [|discriminate H1].
    destruct (traverse (fun ps => go fuel2 thunks (PropertySignature.type ps))
                propertySignatures) as [l2|] eqn:E2; [|discriminate H2].
    destruct (traverse (fun sig => go fuel1 thunks (IndexSignature.type sig))
                indexSignatures) as [i1|] eqn:F1; [|discriminate H1].
    destruct (traverse (fun sig => go fuel2 thunks (IndexSignature.type sig))
                indexSignatures) as [i2|] eqn:F2; [|discriminate H2].
    assert (l1 = l2).
    { eapply traverse_agree; [|exact E1|exact E2]. intros x y1 y2. apply IH. }
    assert (i1 = i2).
    { eapply traverse_agree; [|exact F1|exact F2]. intros x y1 y2. apply IH. }
    subst l2 i2. congruence.
  - exact (IH _ _ _ _ H1 H2).
Qed.

(** X4: compilation returns exactly on the descriptors with a finite
    unfolding.  On such a descriptor [go] returns, and returns one
    differ, however deep the evaluation is allowed to go beyond what it
    needs; on any other descriptor (one that reaches itself through its
    thunks along the parts the compiler visits) it never returns. *)
Theorem go_returns_exactly_on_finite_unfoldings thunks ast :
  (resolves thunks ast ->
   exists differ n, forall fuel, n <= fuel -> go fuel thunks ast = Some differ) /\
  (~ resolves thunks ast -> forall fuel, go fuel thunks ast = None).
Proof.
  split.
  - intros H. destruct (resolves_returns thunks ast H) as [n Hn].
    destruct (Hn n (le_n n)) as [differ Hd].
    exists differ, n. intros fuel Hfuel.
    destruct (Hn fuel Hfuel) as [differ' Hd'].
    rewrite Hd'. f_equal. exact (go_fuel_irrelevant thunks _ _ _ _ _ Hd' Hd).
  - intros H fuel. destruct (go fuel thunks ast) as [differ|] eqn:E; [|reflexivity].
    contradiction H. exact (returns_resolves thunks fuel _ _ E).
Qed.

(** ** The theorems above on the schemas of the test suite *)

(** A patch of the struct [{ a: string, b: number }]. *)
Lemma go_returns_Op_witness :
  isOp (ObjectOps [(KString "a", Replace (VString "a") (VString "b"))]) = true.
Proof.
  exact (go_returns_Op no_thunks 2 struct_a_b _
           (VObject 1 [(KString "a", VString "a"); (KString "b", number 1)])
           (VObject 2 [(KString "a", VString "b"); (KString "b", number 1)])
           (make (ObjectOps [(KString "a", Replace (VString "a") (VString "b"))]))
           eq_refl eq_refl).
Defined.

(** Reversal on two records without a common key: the patch removes ["a"]
    and adds ["b"]; reversed and applied to the second record it gives the
    first one back. *)
Lemma go_reversal_witness :
  exists differ,
    go 2 no_thunks record_string_string = Some differ /\
    exists patch,
      differ (VObject 1 [(KString "a", VString "x")])
             (VObject 2 [(KString "b", VString "y")]) = Ok patch /\
      forall next, exists out next',
        runPatch (reverse patch) (VObject 2 [(KString "b", VString "y")]) next
          = Ok (out, next') /\
        equals out (VObject 1 [(KString "a", VString "x")]) = true.
Proof.
  eexists. split; [reflexivity|].
  apply (go_reversal no_thunks 2 record_string_string); [reflexivity | |].
  - apply (record_string_string_shape 1 [("a", "x")]).
    + repeat constructor. intros [].
    + cbn. intuition discriminate.
  - apply (record_string_string_shape 2 [("b", "y")]).
    + repeat constructor. intros [].
    + cbn. intuition discriminate.
Defined.

(** Identity on a pair [[string, number]]. *)
Lemma go_identity_witness :
  exists differ,
    go 2 no_thunks (Tuple [Element.make StringKeyword false;
                           Element.make NumberKeyword false] None) = Some differ /\
    differ (VArray 1 [VString "a"; VNumber NaN]) (VArray 1 [VString "a"; VNumber NaN])
      = Ok (make Identical).
Proof.
  eexists. split; [reflexivity|].
  apply (go_identity no_thunks 2
           (Tuple [Element.make StringKeyword false; Element.make NumberKeyword false] None));
    [reflexivity|].
  apply shape_Tuple. repeat constructor.
Defined.

(** ** The patch of two equal values *)

Lemma equals_objects_inv r1 p1 r2 p2 :
  NoDup (map fst p1) ->
  equals (VObject r1 p1) (VObject r2 p2) = true ->
  forall k, agree (assoc k p1) (assoc k p2).
Proof.
  intros Hnd H. cbn [equals] in H. apply andb_true_iff in H. destruct H as [Hlen Hall].
  apply Nat.eqb_eq in Hlen.
  assert (Hin : forall l,
            (fix all (l : list (PropertyKey * Value)) : bool :=
               match l with
               | [] => true
               | (k, v) :: l' =>
                   match assoc k p2 with
                   | Some w => equals v w && all l'
                   | None => false
                   end
               end) l = true ->
            forall k v, In (k, v) l ->
              exists w, assoc k p2 = Some w /\ equals v w = true).
  { induction l as [|[k' v'] l IH]; intros Hl k v Hkv; [contradiction Hkv|].
    destruct (assoc k' p2) as [w|] eqn:E; [|discriminate Hl].
    apply andb_true_iff in Hl. destruct Hl as [Hvw Hl].
    destruct Hkv as [Heq|Hkv]; [|exact (IH Hl k v Hkv)].
    injection Heq as <- <-. exists w. split; assumption. }
  specialize (Hin p1 Hall).
  assert (Hincl : incl (map fst p2) (map fst p1)).
  { apply NoDup_length_incl; [exact Hnd | rewrite !length_map; lia |].
    intros k Hk. apply In_keys_assoc in Hk. destruct Hk as [v Hv].
    destruct (Hin k v (assoc_In _ _ _ Hv)) as (w & Hw & _).
    apply In_keys_assoc. eauto. }
  intros k. unfold agree. destruct (assoc k p1) as [v|] eqn:E1.
  - destruct (Hin k v (assoc_In _ _ _ E1)) as (w & -> & Hvw). exact Hvw.
  - destruct (assoc k p2) as [w|] eqn:E2; [|exact I].
    apply assoc_None in E1. apply E1. apply Hincl. apply In_keys_assoc. eauto.
Qed.

Lemma equals_arrays_inv r1 l1 r2 l2 :
  equals (VArray r1 l1) (VArray r2 l2) = true ->
  Forall2 (fun x y => equals x y = true) l1 l2.
Proof.
  cbn [equals]. revert l2. induction l1 as [|x l1 IH]; intros [|y l2] H;
    try discriminate H; [constructor|].
  apply andb_true_iff in H. destruct H as [Hxy H].
  constructor; [exact Hxy | exact (IH _ H)].
Qed.

Lemma tuple_equal thunks fuel :
  (forall ast differ from to,
     go fuel thunks ast = Some differ ->
     has_shape thunks ast from -> has_shape thunks ast to ->
     equals from to = true -> differ from to = Ok (make Identical)) ->
  forall elements differs,
    Forall2 (fun e d => go fuel thunks (Element.type e) = Some d) elements differs ->
    forall l1 l2,
      Forall2 (fun e v => has_shape thunks (Element.type e) v) elements l1 ->
      Forall2 (fun e v => has_shape thunks (Element.type e) v) elements l2 ->
      Forall2 (fun x y => equals x y = true) l1 l2 ->
      forall P1 P2,
        List.length P1 = List.length P2 ->
        element_entries differs (List.length P1) (P1 ++ l1) (P2 ++ l2) = Ok [].
Proof.
  intros Heq elements differs H.
  induction H as [|e d elements differs Hgo _ IH]; intros l1 l2 H1 H2 H12 P1 P2 Hlen;
    [reflexivity|].
  inversion H1 as [|? x ? l1' Hx Hl1]; subst.
  inversion H2 as [|? y ? l2' Hy Hl2]; subst.
  inversion H12 as [|? ? ? ? Hxy Hrest]; subst.
  cbn [element_entries].
  rewrite nth_middle, (nth_middle_eq P1 P2 y l2' VUndefined Hlen).
  rewrite (Heq _ _ _ _ Hgo Hx Hy Hxy). cbn [bind op isIdentical].
  assert (Hlen' : List.length (P1 ++ [x]) = List.length (P2 ++ [y]))
    by (rewrite !length_app; cbn [List.length]; lia).
  specialize (IH l1' l2' Hl1 Hl2 Hrest (P1 ++ [x]) (P2 ++ [y]) Hlen').
  rewrite <- !app_assoc in IH. cbn [app] in IH.
  rewrite length_app in IH. cbn [List.length] in IH. rewrite Nat.add_1_r in IH.
  rewrite IH. reflexivity.
Qed.

Lemma struct_equal p1 p2 :
  (forall k, agree (assoc k p1) (assoc k p2)) ->
  forall fields : list (PropertyKey * Differ),
    (forall name d f t, In (name, d) fields ->
       assoc name p1 = Some f -> assoc name p2 = Some t -> equals f t = true ->
       d f t = Ok (make Identical)) ->
    field_entries fields p1 p2 = Ok [].
Proof.
  intros Hag. induction fields as [|[name d] fields IH]; intros Hfields; [reflexivity|].
  cbn [field_entries]. unfold field_entry.
  rewrite IH; [|intros n' d' f' t' Hin; apply Hfields; right; exact Hin].
  specialize (Hag name). unfold agree in Hag.
  destruct (assoc name p1) as [f|] eqn:Ef, (assoc name p2) as [t|] eqn:Et;
    try contradiction; [|reflexivity].
  rewrite (Hfields name d f t (or_introl eq_refl) Ef Et Hag). reflexivity.
Qed.

Lemma from_keys_equal r1 p1 r2 p2 differ expectedKeys :
  forall fromKeys ops,
    (forall k, In k fromKeys -> isExpectedKey expectedKeys k = false ->
       exists f t, assoc k p1 = Some f /\ assoc k p2 = Some t /\
                   differ f t = Ok (make Identical)) ->
    handle_from_keys differ expectedKeys fromKeys (VObject r1 p1) (VObject r2 p2) ops = Ok ops.
Proof.
  induction fromKeys as [|name rest IH]; intros ops Hkeys; [reflexivity|].
  cbn [handle_from_keys].
  assert (Hrest : handle_from_keys differ expectedKeys rest (VObject r1 p1) (VObject r2 p2) ops
                  = Ok ops).
  { apply IH. intros k Hk. apply Hkeys. right. exact Hk. }
  destruct (isExpectedKey expectedKeys name) eqn:Eexp; [exact Hrest|].
  destruct (Hkeys name (or_introl eq_refl) Eexp) as (f & t & Hf & Ht & Hd).
  rewrite hasOwnProperty_object, !get_object, Hf, Ht. cbn [bind]. rewrite Hd.
  cbn [bind op isIdentical negb]. exact Hrest.
Qed.

Lemma to_keys_equal r1 p1 r2 p2 expectedKeys :
  forall toKeys ops,
    (forall k, In k toKeys -> exists v, assoc k p1 = Some v) ->
    handle_to_keys expectedKeys toKeys (VObject r1 p1) (VObject r2 p2) ops = Ok ops.
Proof.
  induction toKeys as [|name rest IH]; intros ops Hkeys; [reflexivity|].
  cbn [handle_to_keys].
  assert (Hrest : handle_to_keys expectedKeys rest (VObject r1 p1) (VObject r2 p2) ops
                  = Ok ops).
  { apply IH. intros k Hk. apply Hkeys. right. exact Hk. }
  destruct (isExpectedKey expectedKeys name) eqn:Eexp; [exact Hrest|].
  destruct (Hkeys name (or_introl eq_refl)) as (v & Hv).
  rewrite hasOwnProperty_object, Hv. cbn [bind negb]. exact Hrest.
Qed.

Lemma index_signatures_equal r1 p1 r2 p2 expectedKeys :
  (forall k, agree (assoc k p1) (assoc k p2)) ->
  forall (indexSignatures : list (AST * Differ)) ops,
    (forall parameter differ, In (parameter, differ) indexSignatures ->
       exists b, key_kind parameter = Some b /\
         forall k f t, is_string_key k = b -> isExpectedKey expectedKeys k = false ->
           assoc k p1 = Some f -> assoc k p2 = Some t -> equals f t = true ->
           differ f t = Ok (make Identical)) ->
    handle_index_signatures indexSignatures expectedKeys (VObject r1 p1) (VObject r2 p2) ops
      = Ok ops.
Proof.
  intros Hag.
  induction indexSignatures as [|[parameter differ] rest IH]; intros ops Hsigs;
    [reflexivity|].
  destruct (Hsigs parameter differ (or_introl eq_refl)) as (b & Hkind & Hid).
  cbn [handle_index_signatures]. rewrite !(getKeys_object _ _ _ _ Hkind). cbn [bind].
  rewrite from_keys_equal.
  - cbn [bind]. rewrite to_keys_equal.
    + cbn [bind]. apply IH. intros param d Hin. apply Hsigs. right. exact Hin.
    + intros k Hk. destruct (keys_of_kind_In k b p2 Hk) as [_ [t Ht]].
      specialize (Hag k). rewrite Ht in Hag. unfold agree in Hag.
      destruct (assoc k p1) as [f|]; [eauto | contradiction].
  - intros k Hk Hexp. destruct (keys_of_kind_In k b p1 Hk) as [Hb [f Hf]].
    pose proof (Hag k) as Hk'. rewrite Hf in Hk'. unfold agree in Hk'.
    destruct (assoc k p2) as [t|] eqn:Ht; [|contradiction].
    exists f, t. split; [exact Hf|]. split; [reflexivity|].
    exact (Hid k f t Hb Hexp Hf Ht Hk').
Qed.

(** Two structurally equal values of a supported shape have the patch
    [Identical]. *)
Lemma go_equal_Identical thunks :
  forall fuel ast differ from to,
    go fuel thunks ast = Some differ ->
    has_shape thunks ast from -> has_shape thunks ast to ->
    equals from to = true ->
    differ from to = Ok (make Identical).
Proof.
  induction fuel as [|fuel IH]; intros ast differ from to Hgo Hf Ht Heq; [discriminate Hgo|].
  destruct Hf as [x|ast from Hleaf Hprim|base from Hf|f from Hf|elements rest r1 items1 Hf
                  |pss iss r1 p1 Hnames Hkeys1 Hproto1 Hkinds Hprops1].
  - rewrite go_number in Hgo. injection Hgo as <-.
    destruct to; try discriminate Heq. cbn [equals] in Heq.
    cbn [Object_is]. rewrite Heq. reflexivity.
  - rewrite (go_strict_leaf _ _ _ Hleaf) in Hgo. injection Hgo as <-.
    assert (Hprim' : non_number_primitive to = true)
      by (destruct from, to; try discriminate Hprim; try discriminate Heq; reflexivity).
    rewrite (strict_equals_primitive _ _ Hprim Hprim'), Heq. reflexivity.
  - inversion Ht as [| ? ? Hleaf' | ? ? Ht' | | |]; subst; [discriminate Hleaf'|].
    exact (IH _ _ _ _ Hgo Hf Ht' Heq).
  - inversion Ht as [| ? ? Hleaf' | | ? ? Ht' | |]; subst; [discriminate Hleaf'|].
    exact (IH _ _ _ _ Hgo Hf Ht' Heq).
  - inversion Ht as [| ? ? Hleaf' | | | ? ? r2 items2 Ht' |]; subst; [discriminate Hleaf'|].
    cbn [go] in Hgo.
    destruct (traverse (fun e => go fuel thunks (Element.type e)) elements)
      as [differs|] eqn:E; [|discriminate Hgo].
    injection Hgo as <-. rewrite handle_elements_spec.
    pose proof (tuple_equal thunks fuel IH elements differs (traverse_Forall2 _ _ _ E)
                  items1 items2 Hf Ht' (equals_arrays_inv _ _ _ _ Heq) [] [] eq_refl) as Hes.
    cbn [app List.length] in Hes. rewrite Hes. reflexivity.
  - inversion Ht as [| ? ? Hleaf' | | | | ? ? r2 p2 _ Hkeys2 Hproto2 _ Hprops2]; subst;
      [discriminate Hleaf'|].
    cbn [go] in Hgo.
    destruct (traverse (fun ps => go fuel thunks (PropertySignature.type ps)) pss)
      as [differs|] eqn:E; [|discriminate Hgo].
    destruct (traverse (fun sig => go fuel thunks (IndexSignature.type sig)) iss)
      as [differs'|] eqn:E'; [|discriminate Hgo].
    injection Hgo as <-.
    destruct (In_combine_map (@PropertySignature.name AST) _ _ _ (traverse_Forall2 _ _ _ E))
      as [Hfields _].
    destruct (In_combine_map (@IndexSignature.parameter AST) _ _ _ (traverse_Forall2 _ _ _ E'))
      as [Hsigs _].
    destruct (shaped_properties thunks pss iss p1 Hnames Hprops1) as [Hdecl1 Hund1].
    destruct (shaped_properties thunks pss iss p2 Hnames Hprops2) as [Hdecl2 Hund2].
    pose proof (equals_objects_inv _ _ _ _ Hkeys1 Heq) as Hag.
    rewrite handle_property_signatures_spec, (struct_equal p1 p2 Hag).
    + cbn [bind app]. rewrite (index_signatures_equal r1 p1 r2 p2 _ Hag); [reflexivity|].
      intros parameter d Hin.
      destruct (Hsigs parameter d Hin) as (sig & Hsig & <- & Hd).
      destruct (key_kind (IndexSignature.parameter sig)) as [b|] eqn:Eb;
        [|contradiction (Hkinds sig Hsig Eb)].
      exists b. split; [reflexivity|].
      intros k f t <- Hexp Hkf Hkt Hft.
      apply unexpected_undeclared in Hexp; [|exact (assoc_key_not_proto _ _ _ Hproto1 Hkf)].
      exact (IH _ _ _ _ Hd (proj2 (Hund1 k f Hexp Hkf) sig Hsig Eb)
                           (proj2 (Hund2 k t Hexp Hkt) sig Hsig Eb) Hft).
    + intros name d f t Hin Ef Et Hft.
      destruct (Hfields name d Hin) as (ps & Hps & <- & Hd).
      exact (IH _ _ _ _ Hd (Hdecl1 ps f Hps Ef) (Hdecl2 ps t Hps Et) Hft).
Qed.

(** X9: on the supported shapes and values ([has_shape]: in particular
    objects without an own key ["__proto__"] and without excess
    property) the differ finds a difference exactly when there is one: it
    returns a patch, and the patch is [Identical] if and only if [from]
    and [to] are structurally equal. *)
Theorem go_Identical_iff_equal thunks fuel ast differ from to :
  go fuel thunks ast = Some differ ->
  has_shape thunks ast from -> has_shape thunks ast to ->
  exists patch,
    differ from to = Ok patch /\
    (op patch = Identical <-> equals from to = true).
Proof.
  intros Hgo Hf Ht.
  pose proof (go_two_way thunks fuel ast differ from to Hgo Hf Ht) as Htwo.
  destruct Htwo as (patch & Hp & Hfw & Hbw) eqn:E. clear E.
  exists patch. split; [exact Hp|]. split.
  - intros Hid.
    apply (two_way_Identical differ from to patch Hp
             (go_two_way thunks fuel ast differ from to Hgo Hf Ht)).
    rewrite Hid. reflexivity.
  - intros Heq. rewrite (go_equal_Identical thunks fuel ast differ from to Hgo Hf Ht Heq) in Hp.
    injection Hp as <-. reflexivity.
Qed.

Lemma struct_a_b_shape r props x y :
  props = [(KString "a", VString x); (KString "b", VNumber y)] \/
  props = [(KString "b", VNumber y); (KString "a", VString x)] ->
  has_shape no_thunks struct_a_b (VObject r props).
Proof.
  intros Hprops. apply shape_TypeLiteral.
  - repeat constructor; cbn; intuition discriminate.
  - destruct Hprops as [-> | ->]; repeat constructor; cbn; intuition discriminate.
  - destruct Hprops as [-> | ->]; cbn; intuition discriminate.
  - intros sig [].
  - intros k v Hin. left.
    assert (Hcases : (k = KString "a" /\ v = VString x) \/ (k = KString "b" /\ v = VNumber y)).
    { destruct Hprops as [-> | ->]; cbn in Hin;
        destruct Hin as [H|[H|[]]]; injection H as <- <-; auto. }
    destruct Hcases as [[-> ->]|[-> ->]].
    + exists (required "a" StringKeyword).
      split; [left; reflexivity|]. split; [reflexivity|].
      apply shape_leaf; reflexivity.
    + exists (required "b" NumberKeyword).
      split; [right; left; reflexivity|]. split; [reflexivity|].
      apply shape_number.
Qed.

(** The theorem on two objects of [{ a: string, b: number }] that list
    their properties in different orders and live at different
    addresses. *)
Lemma go_Identical_iff_equal_witness :
  exists differ,
    go 2 no_thunks struct_a_b = Some differ /\
    exists patch,
      differ (VObject 1 [(KString "a", VString "a"); (KString "b", VNumber NaN)])
             (VObject 2 [(KString "b", VNumber NaN); (KString "a", VString "a")]) = Ok patch /\
      (op patch = Identical <->
       equals (VObject 1 [(KString "a", VString "a"); (KString "b", VNumber NaN)])
              (VObject 2 [(KString "b", VNumber NaN); (KString "a", VString "a")]) = true).
Proof.
  eexists. split; [reflexivity|].
  apply (go_Identical_iff_equal no_thunks 2 struct_a_b); [reflexivity | |].
  - apply (struct_a_b_shape 1 _ "a" NaN). left. reflexivity.
  - apply (struct_a_b_shape 2 _ "a" NaN). right. reflexivity.
Defined.

(** ** [null] and [undefined] where a tuple or a struct is expected *)

(** X10: the differ of a tuple with at least one element, and the differ
    of a type literal with at least one property signature, throw a
    [TypeError] when [from] or [to] is [null] or [undefined]. *)
Theorem differ_throws_on_null_or_undefined thunks fuel ast differ from to :
  go fuel thunks ast = Some differ ->
  (exists e elements rest, ast = Tuple (e :: elements) rest) \/
  (exists ps propertySignatures indexSignatures,
     ast = TypeLiteral (ps :: propertySignatures) indexSignatures) ->
  from = VUndefined \/ from = VNull \/ to = VUndefined \/ to = VNull ->
  differ from to = Throw TypeError.
Proof. apply go_throws_on_null_or_undefined. Qed.

(** The theorem on the struct [{ a: string, b: number }] diffed against
    [undefined]. *)
Lemma differ_throws_on_null_or_undefined_witness :
  exists differ,
    go 2 no_thunks struct_a_b = Some differ /\
    differ (VObject 1 [(KString "a", VString "a"); (KString "b", number 1)]) VUndefined
      = Throw TypeError.
Proof.
  eexists. split; [reflexivity|].
  apply (differ_throws_on_null_or_undefined no_thunks 2 struct_a_b); [reflexivity | |].
  - right. eexists. eexists. eexists. reflexivity.
  - right. right. left. reflexivity.
Defined.

(** ** What a differ reads *)

Lemma field_entries_ext p1 p2 p1' p2' :
  forall fields : list (PropertyKey * Differ),
    (forall name d, In (name, d) fields ->
       assoc name p1 = assoc name p1' /\ assoc name p2 = assoc name p2') ->
    field_entries fields p1 p2 = field_entries fields p1' p2'.
Proof.
  induction fields as [|[name d] fields IH]; intros H; [reflexivity|].
  cbn [field_entries]. unfold field_entry.
  destruct (H name d (or_introl eq_refl)) as [-> ->].
  rewrite IH; [reflexivity|]. intros n' d' Hin. apply (H n' d'). right. exact Hin.
Qed.

(** X11: the differ of a struct (a type literal without index signatures)
    reads the declared properties only.  Two pairs of objects that agree
    on every declared name get the same patch, whatever their other
    properties, the order of their properties and their addresses: excess
    properties are never compared. *)
Theorem struct_differ_reads_declared_properties thunks fuel propertySignatures differ :
  go fuel thunks (TypeLiteral propertySignatures []) = Some differ ->
  forall r1 p1 r2 p2 r1' p1' r2' p2',
    (forall ps, In ps propertySignatures ->
       assoc (PropertySignature.name ps) p1 = assoc (PropertySignature.name ps) p1' /\
       assoc (PropertySignature.name ps) p2 = assoc (PropertySignature.name ps) p2') ->
    differ (VObject r1 p1) (VObject r2 p2) = differ (VObject r1' p1') (VObject r2' p2').
Proof.
  intros Hgo r1 p1 r2 p2 r1' p1' r2' p2' H.
  destruct fuel as [|fuel]; [discriminate Hgo|]. cbn [go] in Hgo.
  destruct (traverse (fun ps => go fuel thunks (PropertySignature.type ps)) propertySignatures)
    as [differs|] eqn:E; [|discriminate Hgo].
  cbn [traverse] in Hgo. injection Hgo as <-.
  destruct (In_combine_map (@PropertySignature.name AST) _ _ _ (traverse_Forall2 _ _ _ E))
    as [Hfields _].
  rewrite !handle_property_signatures_spec.
  rewrite (field_entries_ext p1 p2 p1' p2'); [reflexivity|].
  intros name d Hin. destruct (Hfields name d Hin) as (ps & Hps & <- & _).
  exact (H ps Hps).
Qed.

Lemma struct_differ_reads_declared_properties_witness :
  exists differ,
    go 2 no_thunks struct_a_b = Some differ /\
    differ (VObject 1 [(KString "a", VString "a"); (KString "b", number 1);
                       (KString "x", VBoolean true)])
           (VObject 2 [(KString "a", VString "b"); (KString "b", number 1)]) =
    differ (VObject 3 [(KString "b", number 1); (KString "a", VString "a")])
           (VObject 4 [(KString "y", VNull); (KString "a", VString "b");
                       (KString "b", number 1)]).
Proof.
  eexists. split; [reflexivity|].
  apply (struct_differ_reads_declared_properties no_thunks 2
           [required "a" StringKeyword; required "b" NumberKeyword]); [reflexivity|].
  intros ps [<-|[<-|[]]]; split; reflexivity.
Defined.

Lemma element_entries_ext (differs : list Differ) :
  forall i l1 l2 l1' l2',
    (forall j, i <= j < i + List.length differs ->
       nth j l1 VUndefined = nth j l1' VUndefined /\
       nth j l2 VUndefined = nth j l2' VUndefined) ->
    element_entries differs i l1 l2 = element_entries differs i l1' l2'.
Proof.
  induction differs as [|d differs IH]; intros i l1 l2 l1' l2' H; [reflexivity|].
  cbn [element_entries List.length] in *.
  destruct (H i) as [-> ->]; [lia|].
  rewrite (IH (S i) l1 l2 l1' l2'); [reflexivity|].
  intros j Hj. apply H. lia.
Qed.

(** X12: the differ of a tuple reads the declared positions only.  Two
    pairs of arrays that agree on every declared position (a position
    past the end reading as [undefined]) get the same patch: the items
    after the declared elements, those of the rest of the tuple, are
    never compared. *)
Theorem tuple_differ_reads_declared_positions thunks fuel elements rest differ :
  go fuel thunks (Tuple elements rest) = Some differ ->
  forall r1 l1 r2 l2 r1' l1' r2' l2',
    (forall j, j < List.length elements ->
       nth j l1 VUndefined = nth j l1' VUndefined /\
       nth j l2 VUndefined = nth j l2' VUndefined) ->
    differ (VArray r1 l1) (VArray r2 l2) = differ (VArray r1' l1') (VArray r2' l2').
Proof.
  intros Hgo r1 l1 r2 l2 r1' l1' r2' l2' H.
  destruct fuel as [|fuel]; [discriminate Hgo|]. cbn [go] in Hgo.
  destruct (traverse (fun e => go fuel thunks (Element.type e)) elements)
    as [differs|] eqn:E; [|discriminate Hgo].
  injection Hgo as <-.
  rewrite !handle_elements_spec.
  rewrite (element_entries_ext differs 0 l1 l2 l1' l2'); [reflexivity|].
  intros j Hj. apply H.
  rewrite (Forall2_length_eq _ _ _ (traverse_Forall2 _ _ _ E)). lia.
Qed.

Lemma tuple_differ_reads_declared_positions_witness :
  exists differ,
    go 2 no_thunks (Tuple [Element.make StringKeyword false] (Some [NumberKeyword]))
      = Some differ /\
    differ (VArray 1 [VString "a"; number 1]) (VArray 2 [VString "b"; number 2; number 3]) =
    differ (VArray 3 [VString "a"]) (VArray 4 [VString "b"]).
Proof.
  eexists. split; [reflexivity|].
  apply (tuple_differ_reads_declared_positions no_thunks 2
           [Element.make StringKeyword false] (Some [NumberKeyword])); [reflexivity|].
  intros [|j] Hj; [split; reflexivity | cbn [List.length] in Hj; lia].
Defined.

(** ** Diffing in the other direction *)

Lemma reverse_entries_push {K : Type} (ops : list (K * Op)) key e :
  reverse_entries (push ops (key, e)) = push (reverse_entries ops) (key, reverseNestedOp e).
Proof. unfold reverse_entries, push. rewrite map_app. reflexivity. Qed.

Lemma handle_elements_swapped (differs : list Differ) :
  Forall (fun d => returns_positional d /\
                   forall f t p, d f t = Ok p -> d t f = Ok (reverse p)) differs ->
  forall i from to ops ops',
    handle_elements differs i from to ops = Ok ops' ->
    handle_elements differs i to from (reverse_entries ops) = Ok (reverse_entries ops').
Proof.
  induction 1 as [|d differs [Hpos Hd] _ IH]; intros i from to ops ops' H;
    cbn [handle_elements] in H |- *.
  - injection H as <-. reflexivity.
  - unbind H as f Ef. unbind H as t Et. unbind H as p Ep.
    cbn [bind]. rewrite (Hd _ _ _ Ep). cbn [bind].
    unfold reverse at 1. cbn [op]. rewrite isIdentical_reverseOp.
    specialize (IH _ _ _ _ _ H).
    destruct (isIdentical (op p)); cbn [negb] in *; [exact IH|].
    rewrite reverse_entries_push, (reverseNestedOp_root _ (proj2 (Hpos _ _ _ Ep))) in IH.
    exact IH.
Qed.

Lemma handle_property_signatures_swapped (fields : list (PropertyKey * Differ)) :
  Forall (fun field => returns_positional (snd field) /\
                       forall f t p, snd field f t = Ok p -> snd field t f = Ok (reverse p))
         fields ->
  forall from to ops ops',
    handle_property_signatures fields from to ops = Ok ops' ->
    handle_property_signatures fields to from (reverse_entries ops)
      = Ok (reverse_entries ops').
Proof.
  induction 1 as [|[name d] fields [Hpos Hd] _ IH]; intros from to ops ops' H;
    cbn [handle_property_signatures] in H |- *; cbn [snd] in *.
  - injection H as <-. reflexivity.
  - unbind H as hf Ehf. unbind H as ops1 Eops.
    specialize (IH _ _ _ _ H). clear H.
    destruct hf; unbind Eops as ht Eht; cbn [bind]; destruct ht.
    + unbind Eops as f Ef. unbind Eops as t Et. unbind Eops as p Ep.
      injection Eops as <-.
      cbn [bind]. rewrite (Hd _ _ _ Ep). cbn [bind].
      unfold reverse at 1. cbn [op]. rewrite isIdentical_reverseOp.
      destruct (isIdentical (op p)); cbn [negb bind] in *; [exact IH|].
      rewrite reverse_entries_push, (reverseNestedOp_root _ (proj2 (Hpos _ _ _ Ep))) in IH.
      exact IH.
    + unbind Eops as f Ef. injection Eops as <-.
      cbn [bind]. rewrite reverse_entries_push in IH. exact IH.
    + unbind Eops as t Et. injection Eops as <-.
      cbn [bind]. rewrite reverse_entries_push in IH. exact IH.
    + injection Eops as <-. cbn [bind]. exact IH.
Qed.

Lemma Forall2_Forall_both {A B : Type} (R : A -> B -> Prop) (P : A -> Prop) (Q : B -> Prop)
    l l' :
  (forall x y, R x y -> P x -> Q y) -> Forall2 R l l' -> Forall P l -> Forall Q l'.
Proof.
  intros HR H. induction H as [|x y l l' Hxy _ IH]; intros Hl; [constructor|].
  inversion Hl; subst. constructor; [eapply HR; eassumption | apply IH; assumption].
Qed.

(** X13: on a descriptor that declares every component (leaves, tuples
    and structs, through refinements and lazy nodes), diffing in the
    other direction gives the reversed patch: whenever [differ(from, to)]
    returns [patch], [differ(to, from)] returns [reverse(patch)].  This
    holds for all values, of the shape or not. *)
Theorem differ_swapped_is_reverse thunks :
  forall fuel ast differ from to patch,
    go fuel thunks ast = Some differ ->
    declares_all thunks ast ->
    differ from to = Ok patch ->
    differ to from = Ok (reverse patch).
Proof.
  induction fuel as [|fuel IH]; intros ast differ from to patch Hgo Hast Hp;
    [discriminate Hgo|].
  destruct Hast as [|ast Hleaf|base Hbase|f Hf|elements rest Helements|pss Hpss].
  - rewrite go_number in Hgo. injection Hgo as <-.
    cbv beta in Hp |- *. rewrite (Object_is_sym to from).
    destruct (Object_is from to); injection Hp as <-; reflexivity.
  - rewrite (go_strict_leaf _ _ _ Hleaf) in Hgo. injection Hgo as <-.
    cbv beta in Hp |- *. rewrite (strict_equals_sym to from).
    destruct (strict_equals from to); injection Hp as <-; reflexivity.
  - exact (IH _ _ _ _ _ Hgo Hbase Hp).
  - exact (IH _ _ _ _ _ Hgo Hf Hp).
  - cbn [go] in Hgo.
    destruct (traverse (fun e => go fuel thunks (Element.type e)) elements)
      as [differs|] eqn:E; [|discriminate Hgo].
    injection Hgo as <-. unbind Hp as ops Eops. injection Hp as <-.
    rewrite (handle_elements_swapped differs) with (ops := []) (ops' := ops) (from := from);
      [| |exact Eops].
    + cbn [bind]. destruct ops; reflexivity.
    + eapply Forall2_Forall_both; [|exact (traverse_Forall2 _ _ _ E)|exact Helements].
      intros e d Hd He. split; [exact (go_returns_positional _ _ _ _ Hd)|].
      intros f t p. exact (IH _ _ _ _ _ Hd He).
  - cbn [go] in Hgo.
    destruct (traverse (fun ps => go fuel thunks (PropertySignature.type ps)) pss)
      as [differs|] eqn:E; [|discriminate Hgo].
    cbn [traverse map combine] in Hgo. injection Hgo as <-.
    unbind Hp as ops Eops. cbn [handle_index_signatures bind] in Hp. injection Hp as <-.
    rewrite (handle_property_signatures_swapped _)
      with (ops := []) (ops' := ops) (from := from); [| |exact Eops].
    + cbn [bind handle_index_signatures]. destruct ops; reflexivity.
    + destruct (In_combine_map (@PropertySignature.name AST) _ _ _ (traverse_Forall2 _ _ _ E))
        as [Hfields _].
      apply Forall_forall. intros [name d] Hin. cbn [snd].
      destruct (Hfields name d Hin) as (ps & Hps & _ & Hd).
      split; [exact (go_returns_positional _ _ _ _ Hd)|].
      intros f t p. apply (IH _ _ _ _ _ Hd).
      rewrite Forall_forall in Hpss. exact (Hpss ps Hps).
Qed.

(** The theorem on the struct [{ a: string, b: number }], the property
    ["b"] missing on one side. *)
Lemma differ_swapped_is_reverse_witness :
  exists differ,
    go 2 no_thunks struct_a_b = Some differ /\
    differ (VObject 2 [(KString "a", VString "b")])
           (VObject 1 [(KString "a", VString "a"); (KString "b", number 1)]) =
      Ok (make (ObjectOps [(KString "a", Replace (VString "b") (VString "a"));
                           (KString "b", Add (number 1))])).
Proof.
  eexists. split; [reflexivity|].
  apply (differ_swapped_is_reverse no_thunks 2 struct_a_b _
           (VObject 1 [(KString "a", VString "a"); (KString "b", number 1)])
           (VObject 2 [(KString "a", VString "b")])
           (make (ObjectOps [(KString "a", Replace (VString "a") (VString "b"));
                             (KString "b", Remove (number 1))])));
    [reflexivity | | reflexivity].
  apply declares_TypeLiteral. repeat constructor.
Defined.

(** ** Pointers *)

Lemma concat_empty_cons x l :
  String.concat "" (x :: l) = (x ++ String.concat "" l)%string.
Proof.
  destruct l as [|y l]; cbn [String.concat String.append]; [|reflexivity].
  induction x as [|c x IH]; cbn [String.append]; [reflexivity|]. rewrite <- IH. reflexivity.
Qed.

Lemma append_assoc (a b c : string) : ((a ++ b) ++ c = a ++ (b ++ c))%string.
Proof. induction a as [|x a IH]; cbn [String.append]; [reflexivity|]. rewrite IH. reflexivity. Qed.

Lemma pointer_cons s path :
  pointer (s :: path) = String "/" (escape s ++ pointer path)%string.
Proof.
  rewrite !pointer_escape. cbn [map]. rewrite concat_empty_cons.
  cbn [String.append]. reflexivity.
Qed.

Lemma pointer_head path : pointer path = "" \/ exists rest, pointer path = String "/" rest.
Proof.
  destruct path as [|s path]; [left; reflexivity|].
  right. rewrite pointer_cons. eexists. reflexivity.
Qed.

(** An escaped segment ends where the text ends or the next "/" stands:
    no escaped character begins with "/". *)
Lemma escape_split :
  forall s1 s2 r1 r2,
    (r1 = "" \/ exists x, r1 = String "/" x) ->
    (r2 = "" \/ exists x, r2 = String "/" x) ->
    (escape s1 ++ r1 = escape s2 ++ r2)%string ->
    s1 = s2 /\ r1 = r2.
Proof.
  induction s1 as [|c1 s1 IH]; intros [|c2 s2] r1 r2 H1 H2 H; cbn [escape] in H.
  - cbn [String.append] in H. split; [reflexivity | exact H].
  - exfalso. cbn [String.append] in H. unfold escape_char in H.
    destruct (Ascii.eqb_spec c2 "~") as [->|n]; [|destruct (Ascii.eqb_spec c2 "/") as [->|n']];
      cbn [String.append] in H;
      destruct H1 as [->|[x ->]]; try discriminate H; injection H as Hc _; congruence.
  - exfalso. cbn [String.append] in H. unfold escape_char in H.
    destruct (Ascii.eqb_spec c1 "~") as [->|n]; [|destruct (Ascii.eqb_spec c1 "/") as [->|n']];
      cbn [String.append] in H;
      destruct H2 as [->|[x ->]]; try discriminate H; injection H as Hc _; congruence.
  - rewrite !append_assoc in H. unfold escape_char in H.
    destruct (Ascii.eqb_spec c1 "~") as [->|n1];
      [|destruct (Ascii.eqb_spec c1 "/") as [->|n1']];
      (destruct (Ascii.eqb_spec c2 "~") as [->|n2];
       [|destruct (Ascii.eqb_spec c2 "/") as [->|n2']]);
      cbn [String.append] in H; try discriminate H;
      try (injection H as H; destruct (IH _ _ _ H1 H2 H) as [-> ->]; split; reflexivity);
      try (injection H as Hc H; try congruence; try discriminate Hc;
           destruct (IH _ _ _ H1 H2 H) as [-> ->]; subst; split; reflexivity).
Qed.

Lemma pointer_inj :
  forall path1 path2, pointer path1 = pointer path2 -> path1 = path2.
Proof.
  induction path1 as [|s1 path1 IH]; intros [|s2 path2] H.
  - reflexivity.
  - rewrite pointer_cons in H. discriminate H.
  - rewrite pointer_cons in H. discriminate H.
  - rewrite !pointer_cons in H. injection H as H.
    destruct (escape_split s1 s2 _ _ (pointer_head path1) (pointer_head path2) H) as [-> Hrest].
    rewrite (IH _ Hrest). reflexivity.
Qed.

(** X14: [pointer] is injective: two paths have the same pointer exactly
    when they are the same path, segment by segment.  The escaping of "~"
    and "/" keeps the segments apart, whatever characters they hold: the
    path of the one segment "a/b" and the path of the two segments "a"
    and "b" have the pointers "/a~1b" and "/a/b". *)
Theorem pointer_injective :
  (forall path1 path2, pointer path1 = pointer path2 <-> path1 = path2) /\
  pointer ["a/b"] = "/a~1b" /\ pointer ["a"; "b"] = "/a/b".
Proof.
  split; [|split; reflexivity].
  intros path1 path2. split; [apply pointer_inj | intros ->; reflexivity].
Qed.

(** ** Lowering a reversed patch *)

Lemma entries_of_ObjectOps_string segments s o l :
  entries_of segments (ObjectOps ((KString s, o) :: l)) =
  entries_of (segments ++ [s]) o ++ entries_of segments (ObjectOps l).
Proof. reflexivity. Qed.

Lemma entries_of_ObjectOps_symbol segments s o l :
  entries_of segments (ObjectOps ((KSymbol s, o) :: l)) = entries_of segments (ObjectOps l).
Proof. reflexivity. Qed.

Lemma entries_of_ArrayOps_cons segments i o l :
  entries_of segments (ArrayOps ((i, o) :: l)) =
  entries_of (segments ++ [String_of_index i]) o ++ entries_of segments (ArrayOps l).
Proof. reflexivity. Qed.

Lemma entries_of_mirror op :
  forall segments,
    Forall2 mirrors (entries_of segments op) (entries_of segments (reverseNestedOp op)).
Proof.
  induction op as [|from to|ops IH|ops IH|value|value] using Op_tree_ind; intros segments;
    try (repeat constructor).
  - change (reverseNestedOp (ObjectOps ops)) with (ObjectOps (reverse_entries ops)).
    induction IH as [|[k o] ops Ho _ IHops]; [constructor|].
    cbn [reverse_entries map] in *. destruct k as [s|s].
    + rewrite !entries_of_ObjectOps_string.
      apply Forall2_app; [exact (Ho (segments ++ [s])) | exact IHops].
    + rewrite !entries_of_ObjectOps_symbol. exact IHops.
  - change (reverseNestedOp (ArrayOps ops)) with (ArrayOps (reverse_entries ops)).
    induction IH as [|[i o] ops Ho _ IHops]; [constructor|].
    cbn [reverse_entries map] in *. rewrite !entries_of_ArrayOps_cons.
    apply Forall2_app; [exact (Ho (segments ++ [String_of_index i])) | exact IHops].
Qed.

(** The document [getJSONPatch] returns, when it returns one. *)
Lemma getJSONPatch_Right op document :
  getJSONPatch op = Right document -> document = patch_document op.
Proof.
  unfold getJSONPatch, liftThrowable.
  set (st := {| out := []; path := [] |}).
  destruct op as [|from to|ops|ops|value|value];
    try (cbn; intros H; injection H as <-; reflexivity).
  - destruct (lower_entry_spec (Replace from to) st) as [Hok Hko].
    cbn [lower_entry] in Hok, Hko.
    destruct (lowerable_entry (Replace from to)) eqn:E.
    + rewrite (Hok eq_refl). cbn. intros H. injection H as <-. reflexivity.
    + destruct (Hko eq_refl) as (e & -> & _). cbn. discriminate.
  - destruct (lower_entry_spec (ObjectOps ops) st) as [Hok Hko].
    destruct (lowerable_entry (ObjectOps ops)) eqn:E.
    + rewrite (Hok eq_refl). cbn [bind]. intros H. injection H as <-. reflexivity.
    + destruct (Hko eq_refl) as (e & -> & _). cbn [bind]. discriminate.
  - destruct (lower_entry_spec (ArrayOps ops) st) as [Hok Hko].
    destruct (lowerable_entry (ArrayOps ops)) eqn:E.
    + rewrite (Hok eq_refl). cbn [bind]. intros H. injection H as <-. reflexivity.
    + destruct (Hko eq_refl) as (e & -> & _). cbn [bind]. discriminate.
Qed.

(** X15: the document of a reversed patch mirrors the document of the
    patch.  When an op and its reverse both lower, the two documents have
    the same length and address the same paths in the same order; each
    [add] faces a [remove], each [remove] an [add] and each [replace] a
    [replace]. *)
Theorem reversed_patch_lowers_to_mirror op document document' :
  isOp op = true ->
  getJSONPatch op = Right document ->
  getJSONPatch (reverseOp op) = Right document' ->
  Forall2 mirrors document document'.
Proof.
  intros Hop H H'.
  apply getJSONPatch_Right in H, H'. subst document document'.
  destruct op as [|from to|ops|ops|value|value]; try discriminate Hop.
  - constructor.
  - exact (entries_of_mirror (Replace from to) []).
  - exact (entries_of_mirror (ObjectOps ops) []).
  - exact (entries_of_mirror (ArrayOps ops) []).
Qed.

Lemma reversed_patch_lowers_to_mirror_witness :
  Forall2 mirrors
    [op_replace "/a" (VString "b"); op_remove "/b"; op_add "/c/0" VNull]
    [op_replace "/a" (VString "a"); op_add "/b" (number 1); op_remove "/c/0"].
Proof.
  exact (reversed_patch_lowers_to_mirror
           (ObjectOps [(KString "a", Replace (VString "a") (VString "b"));
                       (KString "b", Remove (number 1));
                       (KString "c", ArrayOps [(0, Add VNull)])])
           _ _ eq_refl eq_refl eq_refl).
Defined.

(** ** Patches between JSON values *)

(** Whatever holds of the removal of a property of [from], of the
    addition of a property of [to] and of the entries the component
    differs give on the properties present on both sides, holds of every
    entry of the patch of two objects. *)
Section TableEntries.
Variables (r1 : nat) (p1 : list (PropertyKey * Value)).
Variables (r2 : nat) (p2 : list (PropertyKey * Value)).
Variable Q : PropertyKey * Op -> Prop.
Hypothesis Q_Remove : forall k f, assoc k p1 = Some f -> Q (k, Remove f).
Hypothesis Q_Add : forall k t, assoc k p2 = Some t -> Q (k, Add t).

Lemma field_entries_from_tables :
  forall (fields : list (PropertyKey * Differ)) es,
    (forall name d f t p, In (name, d) fields ->
       assoc name p1 = Some f -> assoc name p2 = Some t ->
       d f t = Ok p -> isIdentical (op p) = false -> Q (name, op p)) ->
    field_entries fields p1 p2 = Ok es -> Forall Q es.
Proof.
  induction fields as [|[name d] fields IH]; intros es Hcomp H; cbn [field_entries] in H.
  - injection H as <-. constructor.
  - unbind H as e Ee. unbind H as es' Ees. injection H as <-.
    apply Forall_app. split.
    + unfold field_entry in Ee.
      destruct (assoc name p1) as [f|] eqn:Ef, (assoc name p2) as [t|] eqn:Et.
      * unbind Ee as p Ep. injection Ee as <-.
        destruct (isIdentical (op p)) eqn:Eid; [constructor|].
        constructor; [|constructor].
        exact (Hcomp name d f t p (or_introl eq_refl) Ef Et Ep Eid).
      * injection Ee as <-. constructor; [|constructor]. exact (Q_Remove _ _ Ef).
      * injection Ee as <-. constructor; [|constructor]. exact (Q_Add _ _ Et).
      * injection Ee as <-. constructor.
    + apply IH; [|reflexivity].
      intros n' d' f t p Hin. apply Hcomp. right. exact Hin.
Qed.

Lemma from_keys_from_tables differ expectedKeys :
  forall fromKeys ops ops',
    (forall k f t p, In k fromKeys -> isExpectedKey expectedKeys k = false ->
       assoc k p1 = Some f -> assoc k p2 = Some t ->
       differ f t = Ok p -> isIdentical (op p) = false -> Q (k, op p)) ->
    (forall k, In k fromKeys -> exists f, assoc k p1 = Some f) ->
    Forall Q ops ->
    handle_from_keys differ expectedKeys fromKeys (VObject r1 p1) (VObject r2 p2) ops
      = Ok ops' ->
    Forall Q ops'.
Proof.
  induction fromKeys as [|name rest IH]; intros ops ops' Hcomp Hkeys Hops H;
    cbn [handle_from_keys] in H.
  - injection H as <-. exact Hops.
  - assert (IH' : forall ops1,
              Forall Q ops1 ->
              handle_from_keys differ expectedKeys rest (VObject r1 p1) (VObject r2 p2) ops1
                = Ok ops' ->
              Forall Q ops').
    { intros ops1. apply IH.
      - intros k f t p Hk. apply Hcomp. right. exact Hk.
      - intros k Hk. apply Hkeys. right. exact Hk. }
    clear IH.
    destruct (isExpectedKey expectedKeys name) eqn:Eexp; [exact (IH' _ Hops H)|].
    destruct (Hkeys name (or_introl eq_refl)) as [f Ef].
    rewrite hasOwnProperty_object, !get_object, Ef in H.
    destruct (assoc name p2) as [t|] eqn:Et; cbn [bind] in H.
    + unbind H as ops1 Eops. unbind Eops as p Ep. injection Eops as <-.
      apply (IH' _ ) in H; [exact H|].
      destruct (isIdentical (op p)) eqn:Eid; cbn [negb]; [exact Hops|].
      pushed. exact (Hcomp name f t p (or_introl eq_refl) Eexp Ef Et Ep Eid).
    + apply (IH' _) in H; [exact H|]. pushed. exact (Q_Remove _ _ Ef).
Qed.

Lemma to_keys_from_tables expectedKeys :
  forall toKeys ops ops',
    (forall k, In k toKeys -> exists t, assoc k p2 = Some t) ->
    Forall Q ops ->
    handle_to_keys expectedKeys toKeys (VObject r1 p1) (VObject r2 p2) ops = Ok ops' ->
    Forall Q ops'.
Proof.
  induction toKeys as [|name rest IH]; intros ops ops' Hkeys Hops H;
    cbn [handle_to_keys] in H.
  - injection H as <-. exact Hops.
  - assert (IH' : forall ops1,
              Forall Q ops1 ->
              handle_to_keys expectedKeys rest (VObject r1 p1) (VObject r2 p2) ops1 = Ok ops' ->
              Forall Q ops').
    { intros ops1. apply IH. intros k Hk. apply Hkeys. right. exact Hk. }
    clear IH.
    destruct (isExpectedKey expectedKeys name) eqn:Eexp; [exact (IH' _ Hops H)|].
    destruct (Hkeys name (or_introl eq_refl)) as [t Et].
    rewrite hasOwnProperty_object, get_object, Et in H.
    destruct (assoc name p1) as [f|] eqn:Ef; cbn [bind negb] in H.
    + exact (IH' _ Hops H).
    + apply (IH' _) in H; [exact H|]. pushed. exact (Q_Add _ _ Et).
Qed.

Lemma index_signatures_from_tables expectedKeys :
  forall (indexSignatures : list (AST * Differ)) ops ops',
    (forall parameter differ, In (parameter, differ) indexSignatures ->
       exists b, key_kind parameter = Some b /\
         forall k f t p, is_string_key k = b -> isExpectedKey expectedKeys k = false ->
           assoc k p1 = Some f -> assoc k p2 = Some t ->
           differ f t = Ok p -> isIdentical (op p) = false -> Q (k, op p)) ->
    Forall Q ops ->
    handle_index_signatures indexSignatures expectedKeys (VObject r1 p1) (VObject r2 p2) ops
      = Ok ops' ->
    Forall Q ops'.
Proof.
  induction indexSignatures as [|[parameter differ] rest IH]; intros ops ops' Hsigs Hops H;
    cbn [handle_index_signatures] in H.
  - injection H as <-. exact Hops.
  - destruct (Hsigs parameter differ (or_introl eq_refl)) as (b & Hkind & Hcomp).
    rewrite !(getKeys_object _ _ _ _ Hkind) in H. cbn [bind] in H.
    unbind H as ops1 E1. unbind H as ops2 E2.
    apply (IH ops2 ops'); [|  |exact H].
    + intros param d Hin. apply Hsigs. right. exact Hin.
    + apply (to_keys_from_tables _ _ _ _) with (3 := E2).
      * intros k Hk. exact (proj2 (keys_of_kind_In k b p2 Hk)).
      * apply (from_keys_from_tables _ _ _ _ _) with (4 := E1); [| |exact Hops].
        -- intros k f t p Hk. apply Hcomp. exact (proj1 (keys_of_kind_In k b p1 Hk)).
        -- intros k Hk. exact (proj2 (keys_of_kind_In k b p1 Hk)).
Qed.

End TableEntries.

Lemma isJson_object r props :
  isJson (VObject r props) = true ->
  forall k v, assoc k props = Some v -> is_string_key k = true /\ isJson v = true.
Proof.
  intros H k v Hk. apply assoc_In in Hk. cbn [isJson] in H.
  induction props as [|[k' v'] props IH]; [contradiction Hk|].
  destruct k' as [s|s]; [|discriminate H].
  apply andb_true_iff in H. destruct H as [Hv H].
  destruct Hk as [Heq|Hk]; [|exact (IH H Hk)].
  injection Heq as <- <-. split; [reflexivity | exact Hv].
Qed.

Lemma isJson_array r items :
  isJson (VArray r items) = true -> Forall (fun v => isJson v = true) items.
Proof.
  cbn [isJson]. induction items as [|v items IH]; intros H; [constructor|].
  apply andb_true_iff in H. destruct H as [Hv H].
  constructor; [exact Hv | exact (IH H)].
Qed.

Lemma lowerable_ObjectOps ops :
  Forall (fun entry => is_string_key (fst entry) = true /\
                       lowerable_entry (snd entry) = true) ops ->
  lowerable_entry (ObjectOps ops) = true.
Proof.
  cbn [lowerable_entry]. induction 1 as [|[k o] ops [Hk Ho] _ IH]; [reflexivity|].
  cbn [fst snd] in *. destruct k as [s|s]; [|discriminate Hk].
  rewrite Ho. exact IH.
Qed.

Lemma lowerable_ArrayOps ops :
  Forall (fun entry => lowerable_entry (snd entry) = true) ops ->
  lowerable_entry (ArrayOps ops) = true.
Proof.
  cbn [lowerable_entry]. induction 1 as [|[i o] ops Ho _ IH]; [reflexivity|].
  cbn [snd] in *. rewrite Ho. exact IH.
Qed.

Lemma tuple_lowerable thunks fuel :
  (forall ast differ from to patch,
     go fuel thunks ast = Some differ ->
     has_shape thunks ast from -> has_shape thunks ast to ->
     isJson from = true -> isJson to = true ->
     differ from to = Ok patch -> lowerable_entry (op patch) = true) ->
  forall elements differs,
    Forall2 (fun e d => go fuel thunks (Element.type e) = Some d) elements differs ->
    forall l1 l2,
      Forall2 (fun e v => has_shape thunks (Element.type e) v) elements l1 ->
      Forall2 (fun e v => has_shape thunks (Element.type e) v) elements l2 ->
      Forall (fun v => isJson v = true) l1 ->
      Forall (fun v => isJson v = true) l2 ->
      forall P1 P2 es,
        List.length P1 = List.length P2 ->
        element_entries differs (List.length P1) (P1 ++ l1) (P2 ++ l2) = Ok es ->
        Forall (fun entry => lowerable_entry (snd entry) = true) es.
Proof.
  intros HJ elements differs H.
  induction H as [|e d elements differs Hgo _ IH]; intros l1 l2 H1 H2 J1 J2 P1 P2 es Hlen Hes;
    cbn [element_entries] in Hes.
  - injection Hes as <-. constructor.
  - inversion H1 as [|? x ? l1' Hx Hl1]; subst.
    inversion H2 as [|? y ? l2' Hy Hl2]; subst.
    inversion J1 as [|? ? Jx J1']; subst. inversion J2 as [|? ? Jy J2']; subst.
    rewrite nth_middle, (nth_middle_eq P1 P2 y l2' VUndefined Hlen) in Hes.
    unbind Hes as p Ep. unbind Hes as es' Ees. injection Hes as <-.
    apply Forall_app. split.
    + destruct (isIdentical (op p)); [constructor|].
      constructor; [|constructor]. exact (HJ _ _ _ _ _ Hgo Hx Hy Jx Jy Ep).
    + assert (Hlen' : List.length (P1 ++ [x]) = List.length (P2 ++ [y]))
        by (rewrite !length_app; cbn [List.length]; lia).
      apply (IH l1' l2' Hl1 Hl2 J1' J2' (P1 ++ [x]) (P2 ++ [y]) es' Hlen').
      rewrite <- !app_assoc. cbn [app]. rewrite length_app. cbn [List.length].
      rewrite Nat.add_1_r. exact Ees.
Qed.

(** The patch of two JSON values of a supported shape places only string
    keys on the path and emits only JSON values. *)
Lemma go_lowerable thunks :
  forall fuel ast differ from to patch,
    go fuel thunks ast = Some differ ->
    has_shape thunks ast from -> has_shape thunks ast to ->
    isJson from = true -> isJson to = true ->
    differ from to = Ok patch ->
    lowerable_entry (op patch) = true.
Proof.
  induction fuel as [|fuel IH]; intros ast differ from to patch Hgo Hf Ht Jf Jt Hp;
    [discriminate Hgo|].
  destruct Hf as [x|ast from Hleaf Hprim|base from Hf|f from Hf|elements rest r1 items1 Hf
                  |pss iss r1 p1 Hnames Hkeys1 Hproto1 Hkinds Hprops1].
  - rewrite go_number in Hgo. injection Hgo as <-. injection Hp as <-. cbn [op].
    match goal with |- lowerable_entry (if ?c then _ else _) = true => destruct c end;
      [reflexivity | exact Jt].
  - rewrite (go_strict_leaf _ _ _ Hleaf) in Hgo. injection Hgo as <-. injection Hp as <-.
    cbn [op].
    match goal with |- lowerable_entry (if ?c then _ else _) = true => destruct c end;
      [reflexivity | exact Jt].
  - inversion Ht as [| ? ? Hleaf' | ? ? Ht' | | |]; subst; [discriminate Hleaf'|].
    exact (IH _ _ _ _ _ Hgo Hf Ht' Jf Jt Hp).
  - inversion Ht as [| ? ? Hleaf' | | ? ? Ht' | |]; subst; [discriminate Hleaf'|].
    exact (IH _ _ _ _ _ Hgo Hf Ht' Jf Jt Hp).
  - inversion Ht as [| ? ? Hleaf' | | | ? ? r2 items2 Ht' |]; subst; [discriminate Hleaf'|].
    cbn [go] in Hgo.
    destruct (traverse (fun e => go fuel thunks (Element.type e)) elements)
      as [differs|] eqn:E; [|discriminate Hgo].
    injection Hgo as <-. rewrite handle_elements_spec in Hp.
    unbind Hp as es0 Ees0. unbind Ees0 as es Ees. cbn [app] in Ees0. injection Ees0 as <-.
    injection Hp as <-. cbn [op].
    pose proof (tuple_lowerable thunks fuel IH elements differs (traverse_Forall2 _ _ _ E)
                  items1 items2 Hf Ht' (isJson_array _ _ Jf) (isJson_array _ _ Jt)
                  [] [] es eq_refl Ees) as Hall.
    destruct es as [|entry es]; [reflexivity|].
    exact (lowerable_ArrayOps _ Hall).
  - inversion Ht as [| ? ? Hleaf' | | | | ? ? r2 p2 _ Hkeys2 Hproto2 _ Hprops2]; subst;
      [discriminate Hleaf'|].
    cbn [go] in Hgo.
    destruct (traverse (fun ps => go fuel thunks (PropertySignature.type ps)) pss)
      as [differs|] eqn:E; [|discriminate Hgo].
    destruct (traverse (fun sig => go fuel thunks (IndexSignature.type sig)) iss)
      as [differs'|] eqn:E'; [|discriminate Hgo].
    injection Hgo as <-.
    destruct (In_combine_map (@PropertySignature.name AST) _ _ _ (traverse_Forall2 _ _ _ E))
      as [Hfields _].
    destruct (In_combine_map (@IndexSignature.parameter AST) _ _ _ (traverse_Forall2 _ _ _ E'))
      as [Hsigs _].
    destruct (shaped_properties thunks pss iss p1 Hnames Hprops1) as [Hdecl1 Hund1].
    destruct (shaped_properties thunks pss iss p2 Hnames Hprops2) as [Hdecl2 Hund2].
    pose proof (isJson_object _ _ Jf) as J1. pose proof (isJson_object _ _ Jt) as J2.
    rewrite handle_property_signatures_spec in Hp.
    unbind Hp as es0 E0. unbind E0 as es1 E1. cbn [app] in E0. injection E0 as <-.
    unbind Hp as es E2. injection Hp as <-. cbn [op].
    assert (Hall : Forall (fun entry => is_string_key (fst entry) = true /\
                                        lowerable_entry (snd entry) = true) es).
    { apply (index_signatures_from_tables r1 p1 r2 p2
               (fun entry => is_string_key (fst entry) = true /\
                             lowerable_entry (snd entry) = true))
        with (5 := E2).
      - intros k f Hk. split; [exact (proj1 (J1 k f Hk)) | reflexivity].
      - intros k t Hk. exact (J2 k t Hk).
      - intros parameter d Hin.
        destruct (Hsigs parameter d Hin) as (sig & Hsig & <- & Hd).
        destruct (key_kind (IndexSignature.parameter sig)) as [b|] eqn:Eb;
          [|contradiction (Hkinds sig Hsig Eb)].
        exists b. split; [reflexivity|].
        intros k f t p <- Hexp Hkf Hkt Hdp _.
        apply unexpected_undeclared in Hexp; [|exact (assoc_key_not_proto _ _ _ Hproto1 Hkf)].
        split; [exact (proj1 (J1 k f Hkf))|].
        exact (IH _ _ _ _ _ Hd (proj2 (Hund1 k f Hexp Hkf) sig Hsig Eb)
                 (proj2 (Hund2 k t Hexp Hkt) sig Hsig Eb)
                 (proj2 (J1 k f Hkf)) (proj2 (J2 k t Hkt)) Hdp).
      - apply (field_entries_from_tables p1 p2
                 (fun entry => is_string_key (fst entry) = true /\
                               lowerable_entry (snd entry) = true))
          with (4 := E1).
        + intros k f Hk. split; [exact (proj1 (J1 k f Hk)) | reflexivity].
        + intros k t Hk. exact (J2 k t Hk).
        + intros name d f t p Hin Hkf Hkt Hdp _.
          destruct (Hfields name d Hin) as (ps & Hps & <- & Hd).
          split; [exact (proj1 (J1 _ f Hkf))|].
          exact (IH _ _ _ _ _ Hd (Hdecl1 ps f Hps Hkf) (Hdecl2 ps t Hps Hkt)
                   (proj2 (J1 _ f Hkf)) (proj2 (J2 _ t Hkt)) Hdp). }
    destruct es as [|entry es]; [reflexivity|].
    exact (lowerable_ObjectOps _ Hall).
Qed.

Lemma getJSONPatch_lowerable op :
  lowerable op = true -> getJSONPatch op = Right (patch_document op).
Proof.
  unfold getJSONPatch, liftThrowable.
  set (st := {| out := []; path := [] |}).
  destruct op as [|from to|ops|ops|value|value]; intros H; try reflexivity.
  - destruct (lower_entry_spec (Replace from to) st) as [Hok _].
    cbn [lower_entry] in Hok. rewrite (Hok H). reflexivity.
  - destruct (lower_entry_spec (ObjectOps ops) st) as [Hok _].
    rewrite (Hok H). reflexivity.
  - destruct (lower_entry_spec (ArrayOps ops) st) as [Hok _].
    rewrite (Hok H). reflexivity.
Qed.

(** X16: the patch of two JSON values always lowers.  For every shape
    [go] compiles and every two JSON values of that shape among the
    supported ones ([has_shape]: in particular objects without an own key
    ["__proto__"] and without excess property), the differ returns a
    patch and [getJSONPatch] returns a document for it, never an
    error. *)
Theorem patch_of_json_values_lowers thunks fuel ast differ from to :
  go fuel thunks ast = Some differ ->
  has_shape thunks ast from -> has_shape thunks ast to ->
  isJson from = true -> isJson to = true ->
  exists patch document,
    differ from to = Ok patch /\ getJSONPatch (op patch) = Right document.
Proof.
  intros Hgo Hf Ht Jf Jt.
  destruct (go_two_way thunks fuel ast differ from to Hgo Hf Ht) as (patch & Hp & _).
  pose proof (go_lowerable thunks fuel ast differ from to patch Hgo Hf Ht Jf Jt Hp) as Hlow.
  exists patch, (patch_document (op patch)). split; [exact Hp|].
  apply getJSONPatch_lowerable.
  destruct (op patch); try reflexivity; exact Hlow.
Qed.

(** The theorem on two records of strings. *)
Lemma patch_of_json_values_lowers_witness :
  exists differ,
    go 2 no_thunks record_string_string = Some differ /\
    exists patch document,
      differ (VObject 1 [(KString "a", VString "x"); (KString "c", VString "z")])
             (VObject 2 [(KString "b", VString "y"); (KString "c", VString "")]) = Ok patch /\
      getJSONPatch (op patch) = Right document.
Proof.
  eexists. split; [reflexivity|].
  apply (patch_of_json_values_lowers no_thunks 2 record_string_string);
    [reflexivity | | | reflexivity | reflexivity].
  - apply (record_string_string_shape 1 [("a", "x"); ("c", "z")]).
    + repeat constructor; cbn; intuition discriminate.
    + cbn. intuition discriminate.
  - apply (record_string_string_shape 2 [("b", "y"); ("c", "")]).
    + repeat constructor; cbn; intuition discriminate.
    + cbn. intuition discriminate.
Defined.

(** ** The key ["__proto__"] *)

(** An [Add] of the key ["__proto__"] creates no property.  Over the
    record keyed by strings, the patch of [{}] against an object with an
    own property ["__proto__"] (as [JSON.parse] builds them) adds that
    key; applied to [{}] the patch returns an object without properties,
    which is not equal to the target. *)
Lemma round_trip_fails_on_proto_key :
  exists differ,
    go 2 no_thunks record_string_string = Some differ /\
    differ (VObject 1 []) (VObject 2 [(proto_key, VString "v")]) =
      Ok (make (ObjectOps [(proto_key, Add (VString "v"))])) /\
    runPatch (make (ObjectOps [(proto_key, Add (VString "v"))])) (VObject 1 []) 3 =
      Ok (VObject 3 [], 4) /\
    equals (VObject 3 []) (VObject 2 [(proto_key, VString "v")]) = false.
Proof. eexists. repeat split. Qed.

(** A declared field named ["__proto__"] is not an expected key: the loop
    over the index signatures diffs it a second time.  Over the struct
    with the field [__proto__: number] extended by a record from strings
    to [unknown], the object whose own property ["__proto__"] is [NaN]
    diffed against itself is not [Identical]. *)
Lemma identity_fails_on_declared_proto_field :
  exists differ,
    go 2 no_thunks
       (TypeLiteral [required "__proto__" NumberKeyword]
                    [IndexSignature.make StringKeyword UnknownKeyword]) = Some differ /\
    differ (VObject 1 [(proto_key, VNumber NaN)]) (VObject 1 [(proto_key, VNumber NaN)]) =
      Ok (make (ObjectOps [(proto_key, Replace (VNumber NaN) (VNumber NaN))])).
Proof. eexists. split; reflexivity. Qed.

(** For the same reason the differ of such a shape can throw on a value
    it accepts: the field [__proto__: unknown] holding [null] is diffed a
    second time as a value of the index signature, here a struct, whose
    differ reads a property of [null]. *)
Lemma differ_throws_on_declared_proto_field :
  exists differ,
    go 3 no_thunks
       (TypeLiteral [required "__proto__" UnknownKeyword]
                    [IndexSignature.make StringKeyword
                       (TypeLiteral [required "a" StringKeyword] [])]) = Some differ /\
    differ (VObject 1 [(proto_key, VNull)]) (VObject 1 [(proto_key, VNull)]) =
      Throw TypeError.
Proof. eexists. split; reflexivity. Qed.

(** ** Leaves compared with [===] *)

(** X17: the differ of a leaf other than the number shape never throws
    and compares with [===]: it answers [Identical] when [from === to]
    and [Replace(from, to)] otherwise.  That is the answer SameValue
    would give on every pair except two kinds, where it is the opposite
    one: [NaN] against [NaN] is reported as replaced, and two zeros of
    opposite signs are reported as identical. *)
Theorem strict_leaf_differ_and_SameValue fuel thunks ast :
  is_strict_leaf ast = true ->
  exists differ,
    go (S fuel) thunks ast = Some differ /\
    (forall from to,
       differ from to =
         Ok (make (if strict_equals from to then Identical else Replace from to))) /\
    (forall from to,
       ~ (from = VNumber NaN /\ to = VNumber NaN) ->
       ~ (exists s, from = VNumber (S754_zero s) /\ to = VNumber (S754_zero (negb s))) ->
       differ from to =
         Ok (make (if Object_is from to then Identical else Replace from to))) /\
    differ (VNumber NaN) (VNumber NaN) = Ok (make (Replace (VNumber NaN) (VNumber NaN))) /\
    (forall s,
       differ (VNumber (S754_zero s)) (VNumber (S754_zero (negb s))) = Ok (make Identical)).
Proof.
  intros Hleaf. eexists. split; [exact (go_strict_leaf fuel thunks ast Hleaf)|].
  cbv beta. split; [reflexivity|]. split; [|split].
  - intros from to Hnan Hzero.
    destruct (strict_equals_Object_is from to) as [->|[[-> ->]|(s & -> & ->)]].
    + reflexivity.
    + contradiction Hnan. split; reflexivity.
    + contradiction Hzero. exists s. split; reflexivity.
  - reflexivity.
  - intros s. destruct s; reflexivity.
Qed.

(** The theorem at the [unknown] shape, on the pairs where [===] and
    SameValue disagree and on a pair of equal strings. *)
Lemma strict_leaf_differ_and_SameValue_witness :
  exists differ,
    go 1 no_thunks UnknownKeyword = Some differ /\
    differ (VNumber NaN) (VNumber NaN) = Ok (make (Replace (VNumber NaN) (VNumber NaN))) /\
    differ (VNumber pos_zero) (VNumber neg_zero) = Ok (make Identical) /\
    differ (VString "a") (VString "a") = Ok (make Identical).
Proof.
  destruct (strict_leaf_differ_and_SameValue 0 no_thunks UnknownKeyword eq_refl)
    as (differ & Hgo & Hstrict & Hsame & Hnan & Hzero).
  exists differ. split; [exact Hgo|]. split; [exact Hnan|]. split; [exact (Hzero false)|].
  rewrite Hsame; [reflexivity | |].
  - intros [H _]. discriminate H.
  - intros (s & H & _). discriminate H.
Defined.

(** ** What [runOp] leaves alone in an array *)

Lemma nth_array_set_other out i v j :
  j <> i -> nth j (array_set out i v) VUndefined = nth j out VUndefined.
Proof.
  revert i j. induction out as [|x out IH]; intros i j Hne.
  - revert j Hne. induction i as [|i IHi]; intros [|j] Hne; cbn [array_set nth];
      try reflexivity; try (contradiction Hne; reflexivity).
    + destruct j; reflexivity.
    + rewrite IHi by congruence. destruct j; reflexivity.
  - destruct i as [|i], j as [|j]; cbn [array_set nth]; try reflexivity.
    + contradiction Hne. reflexivity.
    + apply IH. congruence.
Qed.

Lemma run_array_entries_others a es :
  Forall (fun entry => is_add_or_remove (snd entry) = false) es ->
  forall out next out' next',
    run_array_entries a es out next = Ok (out', next') ->
    forall j, ~ In j (map fst es) -> nth j out' VUndefined = nth j out VUndefined.
Proof.
  induction 1 as [|[index subop] es Hsub _ IH]; intros out next out' next' H j Hj.
  - injection H as <- _. reflexivity.
  - cbn [map fst In snd] in *.
    assert (Hne : j <> index) by (intros ->; apply Hj; left; reflexivity).
    assert (Hrest : ~ In j (map fst es)) by (intros Hin; apply Hj; right; exact Hin).
    destruct (isIdentical subop) eqn:Eid.
    + apply isIdentical_true in Eid. subst subop. exact (IH _ _ _ _ H j Hrest).
    + rewrite (run_array_entries_nested _ _ _ _ _ _ Hsub Eid) in H.
      unbind H as v Ev. unbind H as rn Er. destruct rn as [r next1].
      rewrite (IH _ _ _ _ H j Hrest). apply nth_array_set_other. exact Hne.
Qed.

(** X18: an [ArrayOps] patch without insertions and removals, as the
    differ of a tuple returns them, is applied to a copy.  When [runOp]
    returns, the result is a new array, and every position that no entry
    names holds the item of the input, untouched. *)
Theorem runOp_ArrayOps_keeps_other_items ops r items next v next' :
  Forall (fun entry => is_add_or_remove (snd entry) = false) ops ->
  runOp (ArrayOps ops) (VArray r items) next = Ok (v, next') ->
  exists out,
    v = VArray next out /\
    forall j, ~ In j (map fst ops) -> nth j out VUndefined = nth j items VUndefined.
Proof.
  intros Hops H. rewrite runOp_ArrayOps in H.
  unbind H as on Eon. destruct on as [out n]. injection H as <- <-.
  exists out. split; [reflexivity|].
  exact (run_array_entries_others _ ops Hops _ _ _ _ Eon).
Qed.

Lemma runOp_ArrayOps_keeps_other_items_witness :
  exists out,
    VArray 7 [VString "a"; VString "y"; VArray 2 [VNull]] = VArray 7 out /\
    forall j, ~ In j [1] ->
      nth j out VUndefined = nth j [VString "a"; VString "x"; VArray 2 [VNull]] VUndefined.
Proof.
  refine (runOp_ArrayOps_keeps_other_items
            [(1, Replace (VString "x") (VString "y"))] 1
            [VString "a"; VString "x"; VArray 2 [VNull]] 7
            (VArray 7 [VString "a"; VString "y"; VArray 2 [VNull]]) 8 _ eq_refl).
  repeat constructor.
Defined.

(** ** The entries of a tuple patch *)

Lemma StronglySorted_snoc l i :
  StronglySorted lt l -> Forall (fun x => x < i) l -> StronglySorted lt (l ++ [i]).
Proof.
  induction 1 as [|x l Hl IH Hx]; intros Hb; cbn [app].
  - constructor; constructor.
  - inversion Hb as [|? ? Hxi Hb']; subst. constructor; [exact (IH Hb')|].
    apply Forall_app. split; [exact Hx | constructor; [exact Hxi | constructor]].
Qed.

Lemma handle_elements_indices (differs : list Differ) :
  forall i from to ops ops',
    handle_elements differs i from to ops = Ok ops' ->
    StronglySorted lt (map fst ops) -> Forall (fun x => x < i) (map fst ops) ->
    StronglySorted lt (map fst ops') /\
    Forall (fun x => x < i + List.length differs) (map fst ops').
Proof.
  induction differs as [|d differs IH]; intros i from to ops ops' H Hs Hb;
    cbn [handle_elements] in H.
  - injection H as <-. split; [exact Hs|].
    eapply Forall_impl; [|exact Hb]. intros x Hx. cbn beta in *. lia.
  - unbind H as f Ef. unbind H as t Et. unbind H as p Ep.
    cbn [List.length]. replace (i + S (List.length differs)) with (S i + List.length differs)
      by lia.
    apply (IH _ _ _ _ _ H).
    + destruct (isIdentical (op p)); cbn [negb]; [exact Hs|].
      unfold push. rewrite map_app. cbn [map fst].
      apply StronglySorted_snoc; assumption.
    + destruct (isIdentical (op p)); cbn [negb].
      * eapply Forall_impl; [|exact Hb]. intros x Hx. cbn beta in *. lia.
      * unfold push. rewrite map_app. cbn [map fst]. apply Forall_app. split.
        -- eapply Forall_impl; [|exact Hb]. intros x Hx. cbn beta in *. lia.
        -- constructor; [lia | constructor].
Qed.

(** X19: the entries of the patch of a tuple are listed by strictly
    increasing index, and every index is the position of a declared
    element: no position gets two entries, none is out of the declared
    range. *)
Theorem tuple_patch_indices_increase thunks fuel elements rest differ from to patch ops :
  go fuel thunks (Tuple elements rest) = Some differ ->
  differ from to = Ok patch ->
  op patch = ArrayOps ops ->
  StronglySorted lt (map fst ops) /\
  Forall (fun index => index < List.length elements) (map fst ops).
Proof.
  intros Hgo Hp Hop. destruct fuel as [|fuel]; [discriminate Hgo|]. cbn [go] in Hgo.
  destruct (traverse (fun e => go fuel thunks (Element.type e)) elements)
    as [differs|] eqn:E; [|discriminate Hgo].
  injection Hgo as <-. unbind Hp as es Ees. injection Hp as <-. cbn [op] in Hop.
  destruct (handle_elements_indices differs 0 from to [] es Ees) as [Hs Hb];
    [constructor | constructor |].
  cbn [Nat.add] in Hb.
  rewrite <- (Forall2_length_eq _ _ _ (traverse_Forall2 _ _ _ E)) in Hb.
  destruct es as [|entry es]; [discriminate Hop|].
  cbn [isNonEmptyReadonlyArray] in Hop. injection Hop as <-. split; assumption.
Qed.

Lemma tuple_patch_indices_increase_witness :
  StronglySorted lt [0; 2] /\ Forall (fun index => index < 3) [0; 2].
Proof.
  exact (tuple_patch_indices_increase no_thunks 2
           [Element.make StringKeyword false; Element.make StringKeyword false;
            Element.make NumberKeyword false] None _
           (VArray 1 [VString "a"; VString "b"; number 1])
           (VArray 2 [VString "x"; VString "b"; number 2])
           (make (ArrayOps [(0, Replace (VString "a") (VString "x"));
                            (2, Replace (number 1) (number 2))]))
           [(0, Replace (VString "a") (VString "x")); (2, Replace (number 1) (number 2))]
           eq_refl eq_refl eq_refl).
Defined.

(** ** Documents that are not empty *)

Lemma entries_of_not_empty op :
  forall segments,
    isNestedOp op = true -> lowerable_entry op = true -> entries_of segments op <> [].
Proof.
  induction op as [|from to|ops IH|ops IH|value|value] using Op_tree_ind;
    intros segments Hop Hlow; try discriminate Hop; try (cbn; discriminate).
  - apply isNestedOp_ObjectOps in Hop. destruct Hop as [Hne Hall].
    destruct ops as [|[k o] ops]; [contradiction Hne; reflexivity|].
    inversion IH as [|? ? Ho _]; subst. inversion Hall as [|? ? Hk _]; subst.
    cbn [snd] in *. destruct k as [s|s]; [|discriminate Hlow].
    cbn [lowerable_entry] in Hlow. apply andb_true_iff in Hlow. destruct Hlow as [Hlo _].
    rewrite entries_of_ObjectOps_string. intros Heq. apply app_eq_nil in Heq.
    exact (Ho _ Hk Hlo (proj1 Heq)).
  - apply isNestedOp_ArrayOps in Hop. destruct Hop as [Hne Hall].
    destruct ops as [|[i o] ops]; [contradiction Hne; reflexivity|].
    inversion IH as [|? ? Ho _]; subst. inversion Hall as [|? ? Hk _]; subst.
    cbn [snd] in *.
    cbn [lowerable_entry] in Hlow. apply andb_true_iff in Hlow. destruct Hlow as [Hlo _].
    rewrite entries_of_ArrayOps_cons. intros Heq. apply app_eq_nil in Heq.
    exact (Ho _ Hk Hlo (proj1 Heq)).
Qed.

(** When [getJSONPatch] returns a document, every key on the path is a
    string and every value emitted is JSON. *)
Lemma getJSONPatch_Right_lowerable op document :
  getJSONPatch op = Right document -> lowerable op = true.
Proof.
  unfold getJSONPatch, liftThrowable.
  set (st := {| out := []; path := [] |}).
  destruct op as [|from to|ops|ops|value|value]; intros H; try reflexivity.
  - destruct (lower_entry_spec (Replace from to) st) as [_ Hko].
    cbn [lower_entry] in Hko. unfold lowerable.
    destruct (lowerable_entry (Replace from to)); [reflexivity|].
    destruct (Hko eq_refl) as (e & He & _). rewrite He in H. discriminate H.
  - destruct (lower_entry_spec (ObjectOps ops) st) as [_ Hko]. unfold lowerable.
    destruct (lowerable_entry (ObjectOps ops)); [reflexivity|].
    destruct (Hko eq_refl) as (e & He & _). rewrite He in H. discriminate H.
  - destruct (lower_entry_spec (ArrayOps ops) st) as [_ Hko]. unfold lowerable.
    destruct (lowerable_entry (ArrayOps ops)); [reflexivity|].
    destruct (Hko eq_refl) as (e & He & _). rewrite He in H. discriminate H.
Qed.

(** X20: the document of a well-typed op is empty only for [Identical]:
    when [getJSONPatch] returns a document for an [Op] of the source, the
    document has no entry if and only if the op is [Identical]. *)
Theorem getJSONPatch_empty_iff_Identical op document :
  isOp op = true ->
  getJSONPatch op = Right document ->
  (document = [] <-> op = Identical).
Proof.
  intros Hop H.
  pose proof (getJSONPatch_Right_lowerable op document H) as Hlow.
  apply getJSONPatch_Right in H. subst document.
  split; [|intros ->; reflexivity].
  destruct op as [|from to|ops|ops|value|value]; try discriminate Hop;
    try reflexivity; intros Hnil; exfalso.
  - discriminate Hnil.
  - exact (entries_of_not_empty (ObjectOps ops) [] Hop Hlow Hnil).
  - exact (entries_of_not_empty (ArrayOps ops) [] Hop Hlow Hnil).
Qed.

Lemma getJSONPatch_empty_iff_Identical_witness :
  [op_replace "/a" (VString "b")] = [] <->
  ObjectOps [(KString "a", Replace (VString "a") (VString "b"))] = Identical.
Proof.
  exact (getJSONPatch_empty_iff_Identical
           (ObjectOps [(KString "a", Replace (VString "a") (VString "b"))])
           [op_replace "/a" (VString "b")] eq_refl eq_refl).
Defined.
